(** * A shallow embedding of the single-header JSON library [json.h]

    The development follows the header top to bottom:

    - [error]      the exception classes of namespace [error];
    - the value model: [Type_], the union [Data], [Value], the
      reference-counted [Wrapper] boxes and the heap they live in;
    - the members of [Value]: [incref], [decref], [destory], the copy
      constructor, the assignment operators, [at] and [insert];
    - the serializer ([operator<<] and the [detail::serialize] overloads);
    - the two character sources [StringReader] and [StreamReader];
    - the recursive-descent [Parser], generic in its reader;
    - [deserialize].

    Conventions of the embedding.

    - A C++ call either returns, throws, has undefined behaviour, or (in
      the model only) runs out of fuel: the type [outcome].
    - The header is read as the compiler it is written for takes it
      ([main.cc] calls [_CrtDumpMemoryLeaks]): [int64_t] is [long long],
      so that [is_int_v<Int>] holds and an [Int] selects the constructor
      and the [operator=] for integral types.
    - [Int] is [long long]: a [Z] wrapped to 64 bits by [wrap64] (signed
      overflow, which C++ leaves undefined, wraps around in the model).
    - The use count of a box is an [int]; the model counts in [Z] and the
      statements about a symbolic count that changes bound it by
      [int_range].
    - A [Value] of the model is the content of an object, not the object:
      where the code reads a reference parameter after it has written to
      [*this], the parameter is an [Operand], which says whether it
      designates [*this].
    - [Float] is [double]; it is idealised by exact rationals [Q]
      (rounding, infinities and NaN are outside the model).
    - A [String] is a [string]: a sequence of bytes that may contain the
      byte 0, like [std::string].
    - [Object] is [std::unordered_map<String, Value>]; it is modelled by an
      association list with unique keys, iterated in insertion order (the
      C++ iteration order is unspecified). *)

From Stdlib Require Import ZArith QArith Ascii String List Lia DecimalString DecimalPos.
From stdpp Require Import base gmap strings list.

Local Close Scope Q_scope.
Local Open Scope string_scope.
Local Open Scope list_scope.
Local Open Scope Z_scope.

(** ** Exceptions (namespace [error]) *)

Module error.

Inductive exception : Type :=
| ValueTypeError (msg : string)
| UnexpectedToken
| UnexpectedEscape (escape : ascii)
| IndexOutOfRange
| KeyNotExists (key : string).

End error.
Import error.

(** ** Outcomes *)

Definition addr := positive.

(** The undefined behaviours the header can run into. *)
Inductive undefined : Type :=
| DanglingPointer (p : addr)    (* access to a box that was deleted *)
| MismatchedDelete (p : addr)   (* [delete] through a pointer of another wrapper type *)
| MismatchedAccess (p : addr)   (* access through a pointer of another wrapper type *)
| InactiveMember.               (* a pointer member of the union read while a scalar is stored *)

Inductive outcome (A : Type) : Type :=
| Ret (a : A)
| Throw (e : exception)
| Undefined (u : undefined)
| OutOfFuel.
Arguments Ret {A} a.
Arguments Throw {A} e.
Arguments Undefined {A} u.
Arguments OutOfFuel {A}.

Definition bind {A B : Type} (m : outcome A) (k : A -> outcome B) : outcome B :=
  match m with
  | Ret a => k a
  | Throw e => Throw e
  | Undefined u => Undefined u
  | OutOfFuel => OutOfFuel
  end.

Notation "x <- m ;; k" := (bind m (fun x => k))
  (at level 20, m at level 99, k at level 200, only parsing).
Notation "' pat <- m ;; k" := (bind m (fun x => match x with pat => k end))
  (at level 20, pat pattern, m at level 99, k at level 200, only parsing).

(** ** The value model *)

(** [enum Type : char] *)
Inductive Type_ : Type :=
| JSON_NULL | JSON_BOOL | JSON_INT | JSON_FLOAT | JSON_STRING | JSON_ARRAY | JSON_OBJECT.

Definition Type_eqb (a b : Type_) : bool :=
  match a, b with
  | JSON_NULL, JSON_NULL | JSON_BOOL, JSON_BOOL | JSON_INT, JSON_INT
  | JSON_FLOAT, JSON_FLOAT | JSON_STRING, JSON_STRING
  | JSON_ARRAY, JSON_ARRAY | JSON_OBJECT, JSON_OBJECT => true
  | _, _ => false
  end.

Definition Int := Z.
Definition Float := Q.

Definition wrap64 (z : Z) : Int := (z + 2^63) mod 2^64 - 2^63.

(** [union Data]: the three pointer members [aptr], [optr], [sptr] share
    their storage, so one constructor [Ptr] stands for all of them;
    [Zeroed] is the value-initialised union ([data_{}]). *)
Inductive Data : Type :=
| Zeroed
| Ival (ival : Int)
| Bval (bval : bool)
| Fval (fval : Float)
| Ptr (p : addr).

Record Value : Type := mkValue { type_ : Type_; data_ : Data }.

(** [Value(){}] and [Value(Null){}] *)
Definition Value_null : Value := mkValue JSON_NULL Zeroed.
(** [Value(Bool val)] *)
Definition Value_bool (val : bool) : Value := mkValue JSON_BOOL (Bval val).
(** [Value(R val)] for an integral [R] *)
Definition Value_int (val : Int) : Value := mkValue JSON_INT (Ival val).
(** [Value(R val)] for a floating [R] *)
Definition Value_float (val : Float) : Value := mkValue JSON_FLOAT (Fval val).

Definition Array := list Value.
Definition Object := list (string * Value).

(** The three instances of [Wrapper<T>]. *)
Inductive Payload : Type :=
| PString (s : string)
| PArray (a : Array)
| PObject (o : Object).

Inductive Kind : Type := KString | KArray | KObject.

Definition kind_of (x : Payload) : Kind :=
  match x with PString _ => KString | PArray _ => KArray | PObject _ => KObject end.

Definition Kind_eqb (a b : Kind) : bool :=
  match a, b with
  | KString, KString | KArray, KArray | KObject, KObject => true
  | _, _ => false
  end.

(** [Wrapper<T>]: the payload and its use count, [int uses_ = 1].  The
    count is kept in [Z]: the model agrees with [++uses_] and [--uses_] as
    long as the result is an [int], and the statements in which a symbolic
    count grows or shrinks say so with [int_range]. *)
Record Wrapper : Type := mkWrapper { value : Payload; uses_ : Z }.

(** The free store: the live boxes and the next address [new] hands out
    (addresses are never reused, so a deleted box stays recognisable). *)
Record Heap : Type := mkHeap { cells : gmap addr Wrapper; next : addr }.

Definition empty_heap : Heap := mkHeap ∅ 1%positive.

(** [new Wrapper<T>(v)] *)
Definition new_wrapper (x : Payload) (h : Heap) : addr * Heap :=
  (next h, mkHeap (<[next h := mkWrapper x 1]> (cells h)) (Pos.succ (next h))).

Definition live (p : addr) (h : Heap) : Prop := is_Some (cells h !! p).

(** Reading the pointer stored in the union. *)
Definition ptr_of (v : Value) : outcome addr :=
  match data_ v with
  | Ptr p => Ret p
  | _ => Undefined InactiveMember
  end.

(** [data_.xptr-> ...] for the member of kind [k]. *)
Definition deref (k : Kind) (p : addr) (h : Heap) : outcome Wrapper :=
  match cells h !! p with
  | None => Undefined (DanglingPointer p)
  | Some w => if Kind_eqb k (kind_of (value w)) then Ret w else Undefined (MismatchedAccess p)
  end.

Definition store (p : addr) (w : Wrapper) (h : Heap) : Heap :=
  mkHeap (<[p := w]> (cells h)) (next h).

Definition release (p : addr) (h : Heap) : Heap :=
  mkHeap (delete p (cells h)) (next h).

(** [Wrapper::incref]: [return ++uses_;] *)
Definition Wrapper_incref (k : Kind) (p : addr) (h : Heap) : outcome (Z * Heap) :=
  w <- deref k p h ;;
  Ret (uses_ w + 1, store p (mkWrapper (value w) (uses_ w + 1)) h).

(** [Wrapper::decref]: [return --uses_;] *)
Definition Wrapper_decref (k : Kind) (p : addr) (h : Heap) : outcome (Z * Heap) :=
  w <- deref k p h ;;
  Ret (uses_ w - 1, store p (mkWrapper (value w) (uses_ w - 1)) h).

(** [Value::incref] *)
Definition incref (v : Value) (h : Heap) : outcome Heap :=
  match type_ v with
  | JSON_ARRAY => p <- ptr_of v ;; '(_, h') <- Wrapper_incref KArray p h ;; Ret h'
  | JSON_OBJECT => p <- ptr_of v ;; '(_, h') <- Wrapper_incref KObject p h ;; Ret h'
  | JSON_STRING => p <- ptr_of v ;; '(_, h') <- Wrapper_incref KString p h ;; Ret h'
  | _ => Ret h
  end.

(** Running [~Value] on every element of a destroyed container. *)
Fixpoint destroy_all (destroy : Value -> Heap -> outcome Heap) (vs : list Value) (h : Heap)
  : outcome Heap :=
  match vs with
  | [] => Ret h
  | v :: vs' => h' <- destroy v h ;; destroy_all destroy vs' h'
  end.

(** [delete q] where [q] has static type [Wrapper<static>*]: the destructor
    of the payload runs (destroying the contained Values), then the box is
    released.  Deleting a box through a pointer to another wrapper type is
    undefined. *)
Definition delete_wrapper (destroy : Value -> Heap -> outcome Heap)
    (static : Kind) (p : addr) (h : Heap) : outcome Heap :=
  match cells h !! p with
  | None => Undefined (DanglingPointer p)
  | Some w =>
      if Kind_eqb static (kind_of (value w)) then
        h' <- match value w with
              | PString _ => Ret h
              | PArray a => destroy_all destroy a h
              | PObject o => destroy_all destroy (map snd o) h
              end ;;
        Ret (release p h')
      else Undefined (MismatchedDelete p)
  end.

(** [Value::destory<T>]:
[[
    template <> inline void Value::destory<Array>() const { delete data_.sptr; };
    template <> inline void Value::destory<Object>() const { delete data_.optr; };
    template <> inline void Value::destory<String>() const { delete data_.aptr; };
]] *)
Definition destory (destroy : Value -> Heap -> outcome Heap)
    (T : Kind) (v : Value) (h : Heap) : outcome Heap :=
  p <- ptr_of v ;;
  match T with
  | KArray => delete_wrapper destroy KString p h
  | KObject => delete_wrapper destroy KObject p h
  | KString => delete_wrapper destroy KArray p h
  end.

(** [Value::decref].  The destructor [~Value] is [decref] followed by
    [type_ = JSON_NULL] on an object that ceases to exist, so [decref] one
    level down is what destroys the elements of a deleted container. *)
Fixpoint decref (fuel : nat) (v : Value) (h : Heap) {struct fuel} : outcome Heap :=
  match fuel with
  | O => OutOfFuel
  | S fuel' =>
      match type_ v with
      | JSON_ARRAY =>
          p <- ptr_of v ;;
          '(n, h') <- Wrapper_decref KArray p h ;;
          if n =? 0 then destory (decref fuel') KArray v h' else Ret h'
      | JSON_OBJECT =>
          p <- ptr_of v ;;
          '(n, h') <- Wrapper_decref KObject p h ;;
          if n =? 0 then destory (decref fuel') KObject v h' else Ret h'
      | JSON_STRING =>
          p <- ptr_of v ;;
          '(n, h') <- Wrapper_decref KString p h ;;
          if n =? 0 then destory (decref fuel') KString v h' else Ret h'
      | _ => Ret h
      end
  end.

(** [~Value()] *)
Definition Value_destroy (fuel : nat) (v : Value) (h : Heap) : outcome Heap :=
  decref fuel v h.

(** ** Constructors that allocate a box *)

(** [Value(String&& str)] (and [Value(const String&)], which copies the
    bytes first) *)
Definition Value_string (str : string) (h : Heap) : Value * Heap :=
  let '(p, h') := new_wrapper (PString str) h in (mkValue JSON_STRING (Ptr p), h').

(** [Value(Array&& arr)]: the elements are moved into the new box. *)
Definition Value_array (arr : Array) (h : Heap) : Value * Heap :=
  let '(p, h') := new_wrapper (PArray arr) h in (mkValue JSON_ARRAY (Ptr p), h').

(** [Value(Object&& obj)] *)
Definition Value_object (obj : Object) (h : Heap) : Value * Heap :=
  let '(p, h') := new_wrapper (PObject obj) h in (mkValue JSON_OBJECT (Ptr p), h').

(** [Value(const Value& value) : type_(value.type_), data_(value.data_) { incref(); }] *)
Definition Value_copy (value : Value) (h : Heap) : outcome (Value * Heap) :=
  let this := mkValue (type_ value) (data_ value) in
  h' <- incref this h ;;
  Ret (this, h').

(** [Value(Value&& value)]: returns the new Value and the moved-from one. *)
Definition Value_move (value : Value) : Value * Value :=
  (mkValue (type_ value) (data_ value), mkValue JSON_NULL (data_ value)).

(** ** Type queries *)

Definition is_null (v : Value) : bool := Type_eqb (type_ v) JSON_NULL.
Definition is_bool (v : Value) : bool := Type_eqb (type_ v) JSON_BOOL.
Definition is_int (v : Value) : bool := Type_eqb (type_ v) JSON_INT.
Definition is_float (v : Value) : bool := Type_eqb (type_ v) JSON_FLOAT.
Definition is_string (v : Value) : bool := Type_eqb (type_ v) JSON_STRING.
Definition is_array (v : Value) : bool := Type_eqb (type_ v) JSON_ARRAY.
Definition is_object (v : Value) : bool := Type_eqb (type_ v) JSON_OBJECT.

(** ** Assignment operators

    Each returns the new state of [*this] together with the heap.  The
    right-hand side of the copy assignment is a Value that lives outside
    the heap (a variable); [assign fuel a a] is the self-assignment
    [a = a]. *)

(** [Value::operator=(const Value&)]:
[[
    decref();
    type_ = value.type_;
    data_ = value.data_;
    incref();
]] *)
Definition assign (fuel : nat) (this value : Value) (h : Heap) : outcome (Value * Heap) :=
  h1 <- decref fuel this h ;;
  let this' := mkValue (type_ value) (data_ value) in
  h2 <- incref this' h1 ;;
  Ret (this', h2).

(** The object that a reference parameter designates when the call is
    made: [*this] itself, as in [v = std::move(v)] or [v.insert(v)], or
    another object, of which the Value is given. *)
Inductive Operand : Type :=
| This
| Other (v : Value).

(** What is read through the reference while [*this] holds [this]. *)
Definition read (this : Value) (val : Operand) : Value :=
  match val with
  | This => this
  | Other v => v
  end.

(** [Value::operator=(Value&&)]:
[[
    decref();
    type_       = value.type_;
    data_       = value.data_;
    value.type_ = JSON_NULL;
    return *this;
]]
    Returns the target and the operand as they are after the call.  When
    the operand is [*this], the last assignment is to the one object,
    which is left Null. *)
Definition move_assign (fuel : nat) (this : Value) (value : Operand) (h : Heap)
  : outcome (Value * Value * Heap) :=
  h1 <- decref fuel this h ;;
  let v := read this value in
  let moved_from := mkValue JSON_NULL (data_ v) in
  match value with
  | This => Ret (moved_from, moved_from, h1)
  | Other _ => Ret (mkValue (type_ v) (data_ v), moved_from, h1)
  end.

(** [Value::operator=(Null)] *)
Definition assign_null (fuel : nat) (this : Value) (h : Heap) : outcome (Value * Heap) :=
  h1 <- decref fuel this h ;;
  Ret (mkValue JSON_NULL (data_ this), h1).

(** [Value::operator=(Bool)] *)
Definition assign_bool (fuel : nat) (this : Value) (val : bool) (h : Heap)
  : outcome (Value * Heap) :=
  if is_bool this then Ret (mkValue JSON_BOOL (Bval val), h)
  else h1 <- decref fuel this h ;; Ret (mkValue JSON_BOOL (Bval val), h1).

(** [Value::operator=(R)] for an integral [R] *)
Definition assign_int (fuel : nat) (this : Value) (val : Int) (h : Heap)
  : outcome (Value * Heap) :=
  if is_int this then Ret (mkValue JSON_INT (Ival val), h)
  else h1 <- decref fuel this h ;; Ret (mkValue JSON_INT (Ival val), h1).

(** [Value::operator=(R)] for a floating [R] *)
Definition assign_float (fuel : nat) (this : Value) (val : Float) (h : Heap)
  : outcome (Value * Heap) :=
  if is_float this then Ret (mkValue JSON_FLOAT (Fval val), h)
  else h1 <- decref fuel this h ;; Ret (mkValue JSON_FLOAT (Fval val), h1).

(** [Value::operator=(String&&)] *)
Definition assign_string (fuel : nat) (this : Value) (str : string) (h : Heap)
  : outcome (Value * Heap) :=
  if is_string this then
    p <- ptr_of this ;;
    w <- deref KString p h ;;
    Ret (this, store p (mkWrapper (PString str) (uses_ w)) h)
  else
    h1 <- decref fuel this h ;;
    Ret (Value_string str h1).

(** [Value::operator=(Array&&)]: move-assigning the vector in place
    destroys the elements it held. *)
Definition assign_array (fuel : nat) (this : Value) (arr : Array) (h : Heap)
  : outcome (Value * Heap) :=
  if is_array this then
    p <- ptr_of this ;;
    w <- deref KArray p h ;;
    h1 <- match value w with
          | PArray old => destroy_all (decref fuel) old h
          | _ => Ret h
          end ;;
    w1 <- deref KArray p h1 ;;
    Ret (this, store p (mkWrapper (PArray arr) (uses_ w1)) h1)
  else
    h1 <- decref fuel this h ;;
    Ret (Value_array arr h1).

(** [Value::operator=(Object&&)] *)
Definition assign_object (fuel : nat) (this : Value) (obj : Object) (h : Heap)
  : outcome (Value * Heap) :=
  if is_object this then
    p <- ptr_of this ;;
    w <- deref KObject p h ;;
    h1 <- match value w with
          | PObject old => destroy_all (decref fuel) (map snd old) h
          | _ => Ret h
          end ;;
    w1 <- deref KObject p h1 ;;
    Ret (this, store p (mkWrapper (PObject obj) (uses_ w1)) h1)
  else
    h1 <- decref fuel this h ;;
    Ret (Value_object obj h1).

(** ** Indexed and keyed access *)

(** [obj.find(key)] *)
Fixpoint find (key : string) (obj : Object) : option Value :=
  match obj with
  | [] => None
  | (k, v) :: obj' => if String.eqb k key then Some v else find key obj'
  end.

(** Overwriting the slot of an existing key. *)
Fixpoint set_slot (key : string) (v : Value) (obj : Object) : Object :=
  match obj with
  | [] => []
  | (k, v0) :: obj' =>
      if String.eqb k key then (k, v) :: obj' else (k, v0) :: set_slot key v obj'
  end.

(** [obj[key]] of [std::unordered_map]: the slot of [key], default
    constructed (a Null Value) when the key is absent. *)
Definition subscript (key : string) (obj : Object) : Value * Object :=
  match find key obj with
  | Some v => (v, obj)
  | None => (Value_null, obj ++ [(key, Value_null)])
  end.

Definition type_error {A : Type} (msg : string) : outcome A := Throw (ValueTypeError msg).

(** [bool Value::has(size_t) const] *)
Definition has_index (this : Value) (idx : nat) (h : Heap) : outcome bool :=
  if is_array this then
    p <- ptr_of this ;;
    w <- deref KArray p h ;;
    match value w with
    | PArray arr => Ret (Nat.ltb idx (length arr))
    | _ => Ret false
    end
  else Ret false.

(** [bool Value::has(const String&) const] *)
Definition has_key (this : Value) (key : string) (h : Heap) : outcome bool :=
  if is_object this then
    p <- ptr_of this ;;
    w <- deref KObject p h ;;
    match value w with
    | PObject obj => Ret (match find key obj with Some _ => true | None => false end)
    | _ => Ret false
    end
  else Ret false.

(** [const Value& Value::at(size_t) const] and [Value& Value::at(size_t)]
    (the two bodies are the same). *)
Definition at_index (this : Value) (idx : nat) (h : Heap) : outcome Value :=
  if is_array this then
    p <- ptr_of this ;;
    w <- deref KArray p h ;;
    match value w with
    | PArray arr =>
        match nth_error arr idx with
        | Some v => Ret v
        | None => Throw IndexOutOfRange
        end
    | _ => Undefined (MismatchedAccess p)
    end
  else type_error "This is not an array".

(** [const Value& Value::at(const String& key) const]:
[[
    if (is_object()) {
        const auto& obj = data_.optr->value;
        if (const auto it = obj.find(key); it != obj.end()) return it->second;
        throw error::KeyNotExists(key.c_str());
    }
    throw error::ValueTypeError("This is not an object");
]] *)
Definition at_key_const (this : Value) (key : string) (h : Heap) : outcome Value :=
  if is_object this then
    p <- ptr_of this ;;
    w <- deref KObject p h ;;
    match value w with
    | PObject obj =>
        match find key obj with
        | Some v => Ret v
        | None => Throw (KeyNotExists key)
        end
    | _ => Undefined (MismatchedAccess p)
    end
  else type_error "This is not an object".

(** [Value& Value::at(const String& key)]:
[[
    if (is_object()) return data_.optr->value[key];
    throw error::ValueTypeError("This is not an object");
]]
    The result is the Value in the slot the returned reference designates,
    with the heap after the access. *)
Definition at_key (this : Value) (key : string) (h : Heap) : outcome (Value * Heap) :=
  if is_object this then
    p <- ptr_of this ;;
    w <- deref KObject p h ;;
    match value w with
    | PObject obj =>
        let '(v, obj') := subscript key obj in
        Ret (v, store p (mkWrapper (PObject obj') (uses_ w)) h)
    | _ => Undefined (MismatchedAccess p)
    end
  else type_error "This is not an object".

(** [operator[]] forwards to [at]. *)
Definition subscript_key (this : Value) (key : string) (h : Heap) := at_key this key h.
Definition subscript_key_const (this : Value) (key : string) (h : Heap) :=
  at_key_const this key h.

(** ** insert *)

(** [arr.emplace_back(val)] for [val] of type [const Value&]: the new
    element is copy-constructed. *)
Definition emplace_back (p : addr) (val : Value) (h : Heap) : outcome Heap :=
  w <- deref KArray p h ;;
  '(elt, h1) <- Value_copy val h ;;
  w1 <- deref KArray p h1 ;;
  match value w1 with
  | PArray arr => Ret (store p (mkWrapper (PArray (arr ++ [elt])) (uses_ w1)) h1)
  | _ => Undefined (MismatchedAccess p)
  end.

(** [template <typename R> void Value::insert(R&& val)] at [R = const Value&]:
[[
    if (is_array()) {
        data_.aptr->value.emplace_back(std::forward<R>(val));
    } else if (is_null()) {
        type_      = JSON_ARRAY;
        data_.aptr = new Wrapper<Array>();
        data_.aptr->value.emplace_back(std::forward<R>(val));
    } else {
        throw error::ValueTypeError("This is not an array");
    }
]]
    [val] is a reference: it is read by [emplace_back], after [*this] has
    been made an Array, so an operand that is [*this] is read as the new
    Array. *)
Definition insert_from (this : Value) (val : Operand) (h : Heap) : outcome (Value * Heap) :=
  if is_array this then
    p <- ptr_of this ;;
    h1 <- emplace_back p (read this val) h ;;
    Ret (this, h1)
  else if is_null this then
    let '(p, h0) := new_wrapper (PArray []) h in
    let this' := mkValue JSON_ARRAY (Ptr p) in
    h1 <- emplace_back p (read this' val) h0 ;;
    Ret (this', h1)
  else type_error "This is not an array".

(** [insert] of the Value of another object (on a target that is an Array
    already, [a.insert(a)] reads the same Value). *)
Definition insert (this : Value) (val : Value) (h : Heap) : outcome (Value * Heap) :=
  insert_from this (Other val) h.

(** [data_.optr->value[key] = val]: subscript, then copy assignment to the slot. *)
Definition put (fuel : nat) (p : addr) (key : string) (val : Value) (h : Heap)
  : outcome Heap :=
  w <- deref KObject p h ;;
  match value w with
  | PObject obj =>
      let '(slot, obj') := subscript key obj in
      let h0 := store p (mkWrapper (PObject obj') (uses_ w)) h in
      '(slot', h1) <- assign fuel slot val h0 ;;
      w1 <- deref KObject p h1 ;;
      match value w1 with
      | PObject obj1 => Ret (store p (mkWrapper (PObject (set_slot key slot' obj1)) (uses_ w1)) h1)
      | _ => Undefined (MismatchedAccess p)
      end
  | _ => Undefined (MismatchedAccess p)
  end.

(** [template <typename R> void Value::insert(const String& key, R&& val)]
    at [R = const Value&]:
[[
    if (is_object()) {
        data_.optr->value[key] = std::forward<R>(val);
    } else if (is_null()) {
        type_                  = JSON_OBJECT;
        data_.optr             = new Wrapper<Object>();
        data_.optr->value[key] = std::forward<R>(val);
    } else {
        throw error::ValueTypeError("This is not an object");
    }
]]
    As for the other [insert], an operand that is [*this] is read after
    [*this] has been made an Object. *)
Definition insert_key_from (fuel : nat) (this : Value) (key : string) (val : Operand)
    (h : Heap) : outcome (Value * Heap) :=
  if is_object this then
    p <- ptr_of this ;;
    h1 <- put fuel p key (read this val) h ;;
    Ret (this, h1)
  else if is_null this then
    let '(p, h0) := new_wrapper (PObject []) h in
    let this' := mkValue JSON_OBJECT (Ptr p) in
    h1 <- put fuel p key (read this' val) h0 ;;
    Ret (this', h1)
  else type_error "This is not an object".

(** [insert] under a key of the Value of another object. *)
Definition insert_key (fuel : nat) (this : Value) (key : string) (val : Value) (h : Heap)
  : outcome (Value * Heap) :=
  insert_key_from fuel this key (Other val) h.

(** ** Characters *)

Definition zero : ascii := "000"%char.      (* '\0' *)
Definition dquote : ascii := "034"%char.    (* the double quote *)
Definition backslash : ascii := "092"%char.
Definition slash : ascii := "/"%char.
Definition char_b : ascii := "008"%char.    (* '\b' *)
Definition char_t : ascii := "009"%char.    (* '\t' *)
Definition char_n : ascii := "010"%char.    (* '\n' *)
Definition char_v : ascii := "011"%char.    (* '\v' *)
Definition char_f : ascii := "012"%char.    (* '\f' *)
Definition char_r : ascii := "013"%char.    (* '\r' *)
Definition space : ascii := " "%char.

(** The integer value of a character in the range where the header does
    arithmetic on it (all such characters are 7-bit). *)
Definition code (c : ascii) : Z := Z.of_N (N_of_ascii c).

(** [static_cast<char>(z)]: the low eight bits. *)
Definition to_char (z : Z) : ascii := ascii_of_N (Z.to_N (z mod 256)).

(** [std::isdigit] and [std::isspace] in the "C" locale *)
Definition isdigit (c : ascii) : bool := (48 <=? code c) && (code c <=? 57).
Definition isspace (c : ascii) : bool :=
  Ascii.eqb c space || Ascii.eqb c char_t || Ascii.eqb c char_n
  || Ascii.eqb c char_v || Ascii.eqb c char_f || Ascii.eqb c char_r.

Definition str1 (c : ascii) : string := String c EmptyString.
Definition str2 (c d : ascii) : string := String c (String d EmptyString).

(** ** Serializer *)

(** [detail::serialize(Null, out)] *)
Definition serialize_null : string := "null".

(** [detail::serialize(Int val, out)]: [out << val] prints the decimal form. *)
Definition serialize_int (val : Int) : string := NilZero.string_of_int (Z.to_int val).

(** [detail::serialize(Bool val, out)] *)
Definition serialize_bool (val : bool) : string := if val then "true" else "false".

(** The body of the loop of [detail::serialize(const String&, out)]: a
    [switch] on the byte with one case for each of the double quote, [/], the
    backslash, [\b], [\f], [\n], [\r] and [\t], writing a backslash and
    the escape letter, and [default: out << *ch]. *)
Definition serialize_char (ch : ascii) : string :=
  if Ascii.eqb ch dquote then str2 backslash dquote
  else if Ascii.eqb ch slash then str2 backslash slash
  else if Ascii.eqb ch backslash then str2 backslash backslash
  else if Ascii.eqb ch char_b then str2 backslash "b"
  else if Ascii.eqb ch char_f then str2 backslash "f"
  else if Ascii.eqb ch char_n then str2 backslash "n"
  else if Ascii.eqb ch char_r then str2 backslash "r"
  else if Ascii.eqb ch char_t then str2 backslash "t"
  else str1 ch.

(** [for (const char* ch = str.c_str(); *ch; ++ch)]: the loop walks the
    buffer as a C string and ends at the first byte 0. *)
Fixpoint serialize_chars (str : string) : string :=
  match str with
  | EmptyString => EmptyString
  | String ch str' =>
      if Ascii.eqb ch zero then EmptyString
      else String.append (serialize_char ch) (serialize_chars str')
  end.

(** [detail::serialize(const String& str, out)] *)
Definition serialize_string (str : string) : string :=
  String dquote (String.append (serialize_chars str) (str1 dquote)).

Section Serializer.

(** [out << val] for a [double] is the formatter of the standard library;
    it is a parameter of the serializer. *)
Variable show_Float : Float -> string.

(** [detail::serialize(Float val, out)] *)
Definition serialize_float (val : Float) : string := show_Float val.

(** The loop of [detail::serialize(const Array&, out)]:
    [out << (is_first ? '[' : ',') << v; is_first = false;] *)
Fixpoint serialize_elements (ser : Value -> outcome string) (is_first : bool) (arr : Array)
  : outcome string :=
  match arr with
  | [] => Ret EmptyString
  | v :: arr' =>
      s <- ser v ;;
      rest <- serialize_elements ser false arr' ;;
      Ret (String.append (if is_first then "[" else ",") (String.append s rest))
  end.

(** [detail::serialize(const Array& arr, out)] *)
Definition serialize_array (ser : Value -> outcome string) (arr : Array) : outcome string :=
  match arr with
  | [] => Ret "[]"
  | _ => s <- serialize_elements ser true arr ;; Ret (String.append s "]")
  end.

(** The loop of [detail::serialize(const Object&, out)] *)
Fixpoint serialize_members (ser : Value -> outcome string) (is_first : bool) (obj : Object)
  : outcome string :=
  match obj with
  | [] => Ret EmptyString
  | (k, v) :: obj' =>
      s <- ser v ;;
      rest <- serialize_members ser false obj' ;;
      Ret (String.append (if is_first then "{" else ",")
             (String.append (serialize_string k)
                (String.append ":" (String.append s rest))))
  end.

(** [detail::serialize(const Object& obj, out)] *)
Definition serialize_object (ser : Value -> outcome string) (obj : Object) : outcome string :=
  match obj with
  | [] => Ret "{}"
  | _ => s <- serialize_members ser true obj ;; Ret (String.append s "}")
  end.

(** [operator<<(std::ostream&, const Value&)]: the text written to the
    stream. *)
Fixpoint serialize (fuel : nat) (h : Heap) (v : Value) {struct fuel} : outcome string :=
  match fuel with
  | O => OutOfFuel
  | S fuel' =>
      match type_ v with
      | JSON_NULL => Ret serialize_null
      | JSON_INT =>
          match data_ v with
          | Ival i => Ret (serialize_int i)
          | _ => Undefined InactiveMember
          end
      | JSON_BOOL =>
          match data_ v with
          | Bval b => Ret (serialize_bool b)
          | _ => Undefined InactiveMember
          end
      | JSON_FLOAT =>
          match data_ v with
          | Fval f => Ret (serialize_float f)
          | _ => Undefined InactiveMember
          end
      | JSON_ARRAY =>
          p <- ptr_of v ;;
          w <- deref KArray p h ;;
          match value w with
          | PArray arr => serialize_array (serialize fuel' h) arr
          | _ => Undefined (MismatchedAccess p)
          end
      | JSON_OBJECT =>
          p <- ptr_of v ;;
          w <- deref KObject p h ;;
          match value w with
          | PObject obj => serialize_object (serialize fuel' h) obj
          | _ => Undefined (MismatchedAccess p)
          end
      | JSON_STRING =>
          p <- ptr_of v ;;
          w <- deref KString p h ;;
          match value w with
          | PString str => Ret (serialize_string str)
          | _ => Undefined (MismatchedAccess p)
          end
      end
  end.

End Serializer.

(** ** Character sources *)

(** The one operation of a character source: [char rdch()]. *)
Class Reader (R : Type) : Type := rdch : R -> ascii * R.

(** *** [StringReader]

    The state is [str_], given by the bytes from the pointed-to position
    up to the terminator; [EmptyString] is a pointer to the terminator. *)
Definition StringReader := string.

(** [*str_] *)
Definition peek (str_ : StringReader) : ascii :=
  match str_ with
  | EmptyString => zero
  | String c _ => c
  end.

(** [++str_] *)
Definition advance (str_ : StringReader) : StringReader :=
  match str_ with
  | EmptyString => EmptyString
  | String _ s => s
  end.

(** [char rdch() { return *str_ ? *++str_ : '\0'; }] *)
Definition StringReader_rdch (str_ : StringReader) : ascii * StringReader :=
  if Ascii.eqb (peek str_) zero then (zero, str_)
  else (peek (advance str_), advance str_).

#[export] Instance StringReader_Reader : Reader StringReader := StringReader_rdch.

(** *** [StreamReader] *)

(** The part of [std::istream] the reader uses: the unread bytes, whether
    the stream is [good()], and [gcount()]. *)
Record istream : Type := mkIstream { unread : list ascii; good : bool; gcount : nat }.

(** A stream over a text, as [std::istringstream in(text)] creates it. *)
Definition istream_of (text : string) : istream :=
  mkIstream (list_ascii_of_string text) true 0.

(** [in.read(buf, n)] on a good stream: extracts [n] bytes, or all that is
    left, in which case [eofbit] and [failbit] are set.  Returns the bytes
    extracted. *)
Definition istream_read (n : nat) (i : istream) : list ascii * istream :=
  if Nat.leb n (length (unread i)) then
    (firstn n (unread i), mkIstream (skipn n (unread i)) true n)
  else
    (unread i, mkIstream [] false (length (unread i))).

Record StreamReader : Type :=
  mkStreamReader { in_ : istream; idx_ : nat; len_ : nat; buf_ : list ascii }.

(** [explicit StreamReader(std::istream& in) : in_(in){}] with
    [idx_ = 0], [len_ = 0], [buf_[256]{0}] *)
Definition StreamReader_new (i : istream) : StreamReader :=
  mkStreamReader i 0 0 (repeat zero 256).

(** [buf_[i]] *)
Definition buf_at (buf : list ascii) (i : nat) : ascii := nth i buf zero.

(** [[
    if (++idx_ < len_) return buf_[idx_];
    if (in_.good()) {
        in_.read(buf_, 256);
        len_ = in_.gcount();
        idx_ = 0;
    } else {
        len_ = 0;
        idx_ = 0;
    }
    return len_ ? buf_[0] : '\0';
]] *)
Definition StreamReader_rdch (r : StreamReader) : ascii * StreamReader :=
  let idx := S (idx_ r) in
  if Nat.ltb idx (len_ r) then (buf_at (buf_ r) idx, mkStreamReader (in_ r) idx (len_ r) (buf_ r))
  else if good (in_ r) then
    let '(data, i') := istream_read 256 (in_ r) in
    let buf' := data ++ skipn (length data) (buf_ r) in
    let len' := gcount i' in
    ((if Nat.eqb len' 0 then zero else buf_at buf' 0), mkStreamReader i' 0 len' buf')
  else (zero, mkStreamReader (in_ r) 0 0 (buf_ r)).

#[export] Instance StreamReader_Reader : Reader StreamReader := StreamReader_rdch.

(** ** Parser *)

(** [template <typename R> class Parser]: the reader [r_] and the one
    character of lookahead [ch_]. *)
Record Parser (R : Type) : Type := mkParser { r_ : R; ch_ : ascii }.
Arguments mkParser {R} r_ ch_.
Arguments r_ {R} p.
Arguments ch_ {R} p.

(** Ten raised to an integer, [std::pow(10.0, e)]. *)
Definition pow10 (e : Z) : Float := Qpower (10 # 1) e.

(** [hex] is a [uint32_t]. *)
Definition u32 (z : Z) : Z := z mod 2^32.

Definition is_ch (c d : ascii) : bool := Ascii.eqb c d.

Section Parser.

Context {R : Type} `{Reader R}.

Definition unexpected_token {A : Type} : outcome A := Throw UnexpectedToken.

(** [void skip() { ch_ = r_.rdch(); }] *)
Definition skip (p : Parser R) : Parser R :=
  let '(c, r) := rdch (r_ p) in mkParser r c.

(** [explicit Parser(T&& r) : r_(std::forward<T>(r)) { skip(); }] *)
Definition Parser_new (r : R) : Parser R := skip (mkParser r zero).

(** [while (std::isspace(ch_)) skip();] *)
Fixpoint skip_spaces (fuel : nat) (p : Parser R) : outcome (Parser R) :=
  match fuel with
  | O => OutOfFuel
  | S fuel' => if isspace (ch_ p) then skip_spaces fuel' (skip p) else Ret p
  end.

(** The loop shared by [parse_null], [parse_true] and [parse_false]:
    [for (size_t i = 1; i < n; ++i, skip()) if (ch_ != name[i]) throw ...]
    over the characters [name[1..n-1]]. *)
Fixpoint expect (name : list ascii) (p : Parser R) : outcome (Parser R) :=
  match name with
  | [] => Ret p
  | c :: name' => if is_ch (ch_ p) c then expect name' (skip p) else unexpected_token
  end.

(** [parse_null(Value& value)] *)
Definition parse_null (fuel : nat) (value : Value) (p : Parser R) (h : Heap)
  : outcome (Value * Parser R * Heap) :=
  let p := skip p in
  p <- expect (list_ascii_of_string "ull") p ;;
  '(value, h) <- assign_null fuel value h ;;
  Ret (value, p, h).

(** [parse_true(Value& out)] *)
Definition parse_true (fuel : nat) (out : Value) (p : Parser R) (h : Heap)
  : outcome (Value * Parser R * Heap) :=
  let p := skip p in
  p <- expect (list_ascii_of_string "rue") p ;;
  '(out, h) <- assign_bool fuel out true h ;;
  Ret (out, p, h).

(** [parse_false(Value& out)] *)
Definition parse_false (fuel : nat) (out : Value) (p : Parser R) (h : Heap)
  : outcome (Value * Parser R * Heap) :=
  let p := skip p in
  p <- expect (list_ascii_of_string "alse") p ;;
  '(out, h) <- assign_bool fuel out false h ;;
  Ret (out, p, h).

(** In [parse_exp], the branch [fval == 0]:
    [do { skip(); } while (std::isdigit(ch_));] *)
Fixpoint skip_digits (fuel : nat) (p : Parser R) : outcome (Parser R) :=
  match fuel with
  | O => OutOfFuel
  | S fuel' =>
      let p := skip p in
      if isdigit (ch_ p) then skip_digits fuel' p else Ret p
  end.

(** In [parse_exp], the other branch:
    [do { exp += exp * 10 + ch_ - '0'; skip(); } while (std::isdigit(ch_));] *)
Fixpoint exp_digits (fuel : nat) (exp : Int) (p : Parser R) : outcome (Int * Parser R) :=
  match fuel with
  | O => OutOfFuel
  | S fuel' =>
      let exp := wrap64 (exp + (exp * 10 + code (ch_ p) - code "0")) in
      let p := skip p in
      if isdigit (ch_ p) then exp_digits fuel' exp p else Ret (exp, p)
  end.

(** [parse_exp(Float& fval)] *)
Definition parse_exp (fuel : nat) (fval : Float) (p : Parser R) : outcome (Float * Parser R) :=
  let p := skip p in
  let '(is_positive, p) :=
    if is_ch (ch_ p) "-" then (false, skip p)
    else if is_ch (ch_ p) "+" then (true, skip p)
    else (true, p) in
  if negb (isdigit (ch_ p)) then unexpected_token
  else if Qeq_bool fval 0 then
    p <- skip_digits fuel p ;;
    Ret (fval, p)
  else
    '(exp, p) <- exp_digits fuel 0 p ;;
    Ret (Qmult fval (pow10 (if is_positive then exp else wrap64 (- exp))), p).

(** In [parse_dot]:
[[
  for (Float e = -1;; --e) {
      fval += static_cast<Float>(ch_ - '0') * std::pow(10.0, e);
      skip();
      if (!std::isdigit(ch_)) break;
  }
]] *)
Fixpoint dot_digits (fuel : nat) (e : Z) (fval : Float) (p : Parser R)
  : outcome (Float * Parser R) :=
  match fuel with
  | O => OutOfFuel
  | S fuel' =>
      let fval := Qplus fval (Qmult (inject_Z (code (ch_ p) - code "0")) (pow10 e)) in
      let p := skip p in
      if negb (isdigit (ch_ p)) then Ret (fval, p) else dot_digits fuel' (e - 1) fval p
  end.

(** [parse_dot(Float& fval)] *)
Definition parse_dot (fuel : nat) (fval : Float) (p : Parser R) : outcome (Float * Parser R) :=
  let p := skip p in
  if negb (isdigit (ch_ p)) then unexpected_token
  else
    '(fval, p) <- dot_digits fuel (-1) fval p ;;
    if is_ch (ch_ p) "e" || is_ch (ch_ p) "E" then parse_exp fuel fval p else Ret (fval, p).

(** In [parse_digit]:
    [do { ival = ival * 10 + ch_ - '0'; skip(); } while (std::isdigit(ch_));] *)
Fixpoint int_digits (fuel : nat) (ival : Int) (p : Parser R) : outcome (Int * Parser R) :=
  match fuel with
  | O => OutOfFuel
  | S fuel' =>
      let ival := wrap64 (ival * 10 + code (ch_ p) - code "0") in
      let p := skip p in
      if isdigit (ch_ p) then int_digits fuel' ival p else Ret (ival, p)
  end.

(** [parse_digit(Value& value)] *)
Definition parse_digit (fuel : nat) (value : Value) (p : Parser R) (h : Heap)
  : outcome (Value * Parser R * Heap) :=
  '(is_positive, p) <-
    (if is_ch (ch_ p) "-" then
       let p := skip p in
       if negb (isdigit (ch_ p)) then unexpected_token else Ret (false, p)
     else Ret (true, p)) ;;
  '(ival, p) <- int_digits fuel 0 p ;;
  if is_ch (ch_ p) "." then
    '(fval, p) <- parse_dot fuel (inject_Z ival) p ;;
    '(value, h) <- assign_float fuel value (if is_positive then fval else Qopp fval) h ;;
    Ret (value, p, h)
  else if is_ch (ch_ p) "e" || is_ch (ch_ p) "E" then
    '(fval, p) <- parse_exp fuel (inject_Z ival) p ;;
    '(value, h) <- assign_float fuel value (if is_positive then fval else Qopp fval) h ;;
    Ret (value, p, h)
  else
    '(value, h) <- assign_int fuel value (if is_positive then ival else wrap64 (- ival)) h ;;
    Ret (value, p, h).

(** One hexadecimal digit of a unicode escape, added to [hex]:
[[
  if ('0' <= ch_ && ch_ <= '9')      hex += ch_ - '0';
  else if ('a' <= ch_ && ch_ <= 'f') hex += ch_ - 'a';
  else if ('A' <= ch_ && ch_ <= 'F') hex += ch_ - 'A';
  else throw error::UnexpectedToken();
]] *)
Definition add_hex_digit (hex : Z) (c : ascii) : outcome Z :=
  if (code "0" <=? code c) && (code c <=? code "9") then Ret (u32 (hex + (code c - code "0")))
  else if (code "a" <=? code c) && (code c <=? code "f") then
    Ret (u32 (hex + (code c - code "a")))
  else if (code "A" <=? code c) && (code c <=? code "F") then
    Ret (u32 (hex + (code c - code "A")))
  else unexpected_token.

(** [for (size_t i = 0; i < 4; ++i) { skip(); hex <<= 4; ... }],
    with [n] the number of iterations left. *)
Fixpoint hex_digits (n : nat) (hex : Z) (p : Parser R) : outcome (Z * Parser R) :=
  match n with
  | O => Ret (hex, p)
  | S n' =>
      let p := skip p in
      let hex := u32 (Z.shiftl hex 4) in
      hex <- add_hex_digit hex (ch_ p) ;;
      hex_digits n' hex p
  end.

(** The three bytes written for a unicode escape:
[[
  ss << static_cast<char>(0xE0 | (hex >> 12));
  ss << static_cast<char>(0x80 | (hex >> 6));
  ss << static_cast<char>(0x80 | (hex & 0x3F));
]] *)
Definition encode_hex (hex : Z) : string :=
  String (to_char (Z.lor 224 (Z.shiftr hex 12)))
    (String (to_char (Z.lor 128 (Z.shiftr hex 6)))
       (String (to_char (Z.lor 128 (Z.land hex 63))) EmptyString)).

(** The inner [switch (ch_)] of [parse_string], after the backslash was
    skipped: the bytes appended to [ss]. *)
Definition parse_escape (p : Parser R) : outcome (string * Parser R) :=
  let c := ch_ p in
  if is_ch c slash then Ret (str1 slash, p)
  else if is_ch c dquote then Ret (str1 dquote, p)
  else if is_ch c backslash then Ret (str1 backslash, p)
  else if is_ch c "b" then Ret (str1 char_b, p)
  else if is_ch c "f" then Ret (str1 char_f, p)
  else if is_ch c "v" then Ret (str1 char_v, p)
  else if is_ch c "n" then Ret (str1 char_n, p)
  else if is_ch c "r" then Ret (str1 char_r, p)
  else if is_ch c "t" then Ret (str1 char_t, p)
  else if is_ch c "u" then
    '(hex, p) <- hex_digits 4 0 p ;;
    Ret (encode_hex hex, p)
  else Throw (UnexpectedEscape c).

(** The [for (;;)] loop of [parse_string(String& out)]; [ss] is the
    string stream. *)
Fixpoint string_chars (fuel : nat) (ss : string) (p : Parser R) : outcome (string * Parser R) :=
  match fuel with
  | O => OutOfFuel
  | S fuel' =>
      let c := ch_ p in
      if is_ch c zero then unexpected_token
      else if is_ch c dquote then Ret (ss, skip p)
      else if is_ch c backslash then
        let p := skip p in
        '(bytes, p) <- parse_escape p ;;
        string_chars fuel' (String.append ss bytes) (skip p)
      else string_chars fuel' (String.append ss (str1 c)) (skip p)
  end.

(** [parse_string(String& out)] *)
Definition parse_string (fuel : nat) (p : Parser R) : outcome (string * Parser R) :=
  string_chars fuel EmptyString (skip p).

(** [parse_string(Value& out)] *)
Definition parse_string_value (fuel : nat) (out : Value) (p : Parser R) (h : Heap)
  : outcome (Value * Parser R * Heap) :=
  '(str, p) <- parse_string fuel p ;;
  '(out, h) <- assign_string fuel out str h ;;
  Ret (out, p, h).

(** [parse(Value&)], with the loops of [parse_array] and [parse_object],
    which call it back.

    [parse_array_loop] is [while (ch_) { arr.emplace_back();
    parse(arr.back()); ... }] and [parse_object_loop] is the [while (ch_)]
    loop of [parse_object]; both end in [throw error::UnexpectedToken()]
    when the loop is left. *)
Fixpoint parse (fuel : nat) (value : Value) (p : Parser R) (h : Heap) {struct fuel}
  : outcome (Value * Parser R * Heap) :=
  match fuel with
  | O => OutOfFuel
  | S fuel' =>
      let c := ch_ p in
      if is_ch c space || is_ch c char_t || is_ch c char_r || is_ch c char_v || is_ch c char_f || is_ch c char_n
      then parse fuel' value (skip p) h
      else if is_ch c "-" || isdigit c then parse_digit fuel' value p h
      else if is_ch c "n" then parse_null fuel' value p h
      else if is_ch c "t" then parse_true fuel' value p h
      else if is_ch c "f" then parse_false fuel' value p h
      else if is_ch c dquote then parse_string_value fuel' value p h
      else if is_ch c "[" then parse_array_loop fuel' value [] (skip p) h
      else if is_ch c "{" then parse_object_loop fuel' value [] (skip p) h
      else unexpected_token
  end

with parse_array_loop (fuel : nat) (out : Value) (arr : Array) (p : Parser R) (h : Heap)
       {struct fuel} : outcome (Value * Parser R * Heap) :=
  match fuel with
  | O => OutOfFuel
  | S fuel' =>
      if is_ch (ch_ p) zero then unexpected_token
      else
        '(elt, p, h) <- parse fuel' Value_null p h ;;
        let arr := arr ++ [elt] in
        p <- skip_spaces fuel' p ;;
        if is_ch (ch_ p) "]" then
          let p := skip p in
          '(out, h) <- assign_array fuel' out arr h ;;
          Ret (out, p, h)
        else if negb (is_ch (ch_ p) ",") then unexpected_token
        else parse_array_loop fuel' out arr (skip p) h
  end

with parse_object_loop (fuel : nat) (out : Value) (obj : Object) (p : Parser R) (h : Heap)
       {struct fuel} : outcome (Value * Parser R * Heap) :=
  match fuel with
  | O => OutOfFuel
  | S fuel' =>
      if is_ch (ch_ p) zero then unexpected_token
      else
        p <- skip_spaces fuel' p ;;
        if negb (is_ch (ch_ p) dquote) then unexpected_token
        else
          '(key, p) <- parse_string fuel' p ;;
          p <- skip_spaces fuel' p ;;
          if negb (is_ch (ch_ p) ":") then unexpected_token
          else
            let p := skip p in
            let '(slot, obj) := subscript key obj in
            '(slot, p, h) <- parse fuel' slot p h ;;
            let obj := set_slot key slot obj in
            p <- skip_spaces fuel' p ;;
            if is_ch (ch_ p) "}" then
              let p := skip p in
              '(out, h) <- assign_object fuel' out obj h ;;
              Ret (out, p, h)
            else if negb (is_ch (ch_ p) ",") then unexpected_token
            else parse_object_loop fuel' out obj (skip p) h
  end.

(** [parse_array(Value& out)]: [skip(); Array arr; while (ch_) ...] *)
Definition parse_array (fuel : nat) (out : Value) (p : Parser R) (h : Heap) :=
  parse_array_loop fuel out [] (skip p) h.

(** [parse_object(Value& out)]: [skip(); Object obj; String key; while (ch_) ...] *)
Definition parse_object (fuel : nat) (out : Value) (p : Parser R) (h : Heap) :=
  parse_object_loop fuel out [] (skip p) h.

(** The body shared by the three overloads of [deserialize]:
[[
  Value  value;
  Parser<...> parser(...);
  parser.parse(value);
  return std::move(value);
]] *)
Definition deserialize_with (fuel : nat) (r : R) (h : Heap) : outcome (Value * Heap) :=
  let value := Value_null in
  let parser := Parser_new r in
  '(value, _, h) <- parse fuel value parser h ;;
  Ret (fst (Value_move value), h).

End Parser.

(** [Value deserialize(const char* str)] and [Value deserialize(const String& str)],
    which passes [str.c_str()] *)
Definition deserialize (fuel : nat) (str : string) (h : Heap) : outcome (Value * Heap) :=
  deserialize_with (R := StringReader) fuel str h.

(** [Value deserialize(std::istream& in)] *)
Definition deserialize_stream (fuel : nat) (i : istream) (h : Heap) : outcome (Value * Heap) :=
  deserialize_with (R := StreamReader) fuel (StreamReader_new i) h.

(** * Vocabulary of the statements *)

Definition kind_of_type (t : Type_) : option Kind :=
  match t with
  | JSON_STRING => Some KString
  | JSON_ARRAY => Some KArray
  | JSON_OBJECT => Some KObject
  | _ => None
  end.

(** The values of [int], the type of [Wrapper::uses_]. *)
Definition int_range (n : Z) : Prop := - 2^31 <= n < 2^31.

(** A Value that holds the box at [p]: its tag is one of the three boxed
    kinds, its union holds [p], and the box is live with a payload of that
    kind. *)
Definition holds (v : Value) (p : addr) (w : Wrapper) (h : Heap) : Prop :=
  data_ v = Ptr p /\ cells h !! p = Some w /\ kind_of_type (type_ v) = Some (kind_of (value w)).


(** The scenario of the copy-aliasing property:
    [{ Value a = ...; { Value b = a; } }], that is, [b] is copy-constructed
    from [a], then [b] and [a] are destroyed in that order. *)
Definition copy_then_destroy_both (fuel : nat) (a : Value) (h : Heap) : outcome Heap :=
  '(b, h1) <- Value_copy a h ;;
  h2 <- Value_destroy fuel b h1 ;;
  Value_destroy fuel a h2.

(** The escape of one byte, following the specification: the double
    quote, the backslash, the slash, backspace, form feed, newline,
    carriage return and tab become a backslash and a letter; every other
    byte is passed through. *)
Definition spec_escape_char (c : ascii) : string :=
  match code c with
  | 34 => str2 backslash dquote
  | 92 => str2 backslash backslash
  | 47 => str2 backslash slash
  | 8 => str2 backslash "b"
  | 12 => str2 backslash "f"
  | 10 => str2 backslash "n"
  | 13 => str2 backslash "r"
  | 9 => str2 backslash "t"
  | _ => str1 c
  end.

(** The escaped form of every byte of a string, following the specification. *)
Fixpoint spec_escape (str : string) : string :=
  match str with
  | EmptyString => EmptyString
  | String c str' => String.append (spec_escape_char c) (spec_escape str')
  end.

Definition quoted (s : string) : string := String dquote (String.append s (str1 dquote)).

(** [str.c_str()] read as a C string: the bytes before the first byte 0. *)
Fixpoint c_str (str : string) : string :=
  match str with
  | EmptyString => EmptyString
  | String c str' => if Ascii.eqb c zero then EmptyString else String c (c_str str')
  end.

(** The string of five characters [a], double quote, [b], backslash, [c]. *)
Definition a_quote_b_backslash_c : string :=
  String "a" (String dquote (String "b" (String backslash (String "c" EmptyString)))).

(** The first [n] characters a reader returns to successive calls of [rdch]. *)
Fixpoint outputs {R : Type} `{Reader R} (n : nat) (r : R) : list ascii :=
  match n with
  | O => []
  | S n' => let '(c, r') := rdch r in c :: outputs n' r'
  end.

(** The contract of a character source, following the specification:
    every character of the text in order, then the null sentinel
    indefinitely. *)
Definition contract (text : string) (n : nat) : list ascii :=
  firstn n (list_ascii_of_string text ++ repeat zero n).

(** The three-byte UTF-8 encoding of a code point, following the
    specification. *)
Definition utf8_3 (h : Z) : string :=
  String (to_char (Z.lor 224 (Z.shiftr h 12)))
    (String (to_char (Z.lor 128 (Z.land (Z.shiftr h 6) 63)))
       (String (to_char (Z.lor 128 (Z.land h 63))) EmptyString)).

(** A backslash, [u] and four characters. *)
Definition unicode_escape (d1 d2 d3 d4 : ascii) : string :=
  String backslash (String "u" (String d1 (String d2 (String d3 (String d4 EmptyString))))).

(** The payload of the box a parsed Value points to. *)
Definition payload_of (r : Value * Heap) : option Payload :=
  match data_ (fst r) with
  | Ptr p => option_map value (cells (snd r) !! p)
  | _ => None
  end.

(** The outcome of a parse, without the heap. *)
Definition parsed {A B : Type} (o : outcome (A * B)) : outcome A :=
  '(v, _) <- o ;; Ret v.

(** The payload of the box of the Value [deserialize(std::istream&)]
    returns for a text. *)
Definition payload_of_parse (text : string) : outcome (option Payload) :=
  r <- deserialize_stream (S (S (String.length text))) (istream_of text) empty_heap ;;
  Ret (payload_of r).

(** ** Two parsers in lockstep *)

(** The characters that continue a numeric literal: after them the number
    parsers read on. *)
Definition continues_number (c : ascii) : bool :=
  isdigit c || is_ch c "." || is_ch c "e" || is_ch c "E".

Section Lockstep.

Context {RA RB : Type}.
Variable c : ascii.
Variable Rel : RA -> RB -> Prop.

(** Both parsers look at the same character and their readers are related. *)
Definition same (a : Parser RA) (b : Parser RB) : Prop :=
  ch_ a = ch_ b /\ Rel (r_ a) (r_ b).

(** The first parser has reached the sentinel where the second one sees the
    further character [c]. *)
Definition at_end (a : Parser RA) (b : Parser RB) : Prop :=
  ch_ a = zero /\ ch_ b = c.

Definition sim (a : Parser RA) (b : Parser RB) : Prop := same a b \/ at_end a b.

(** The first parser has ended a number at the sentinel where the second
    one reads on, because [c] continues a number. *)
Definition cut_short (a : Parser RA) : Prop :=
  ch_ a = zero /\ continues_number c = true.

End Lockstep.

(** Related readers return the same character and stay related, until the
    first one returns the sentinel where the second one returns [c]. *)
Definition steps_together {RA RB : Type} `{Reader RA} `{Reader RB}
    (c : ascii) (Rel : RA -> RB -> Prop) : Prop :=
  forall a b, Rel a b ->
    (fst (rdch a) = fst (rdch b) /\ Rel (snd (rdch a)) (snd (rdch b)))
    \/ (fst (rdch a) = zero /\ fst (rdch b) = c).

(** The character at which the parser stops behind the value it has read:
    the sentinel when the value ends the text. *)
Definition lookahead_after {R : Type} `{Reader R} (fuel : nat) (r : R) (h : Heap)
  : outcome ascii :=
  '(_, p, _) <- parse fuel Value_null (Parser_new r) h ;; Ret (ch_ p).

(** A Value that holds a number. *)
Definition is_number (v : Value) : bool := is_int v || is_float v.

(** ** What a reader has yet to return *)

(** The characters a [StringReader] will still return before the sentinel:
    the C string behind the current position. *)
Definition StringReader_pending (str_ : StringReader) : list ascii :=
  if Ascii.eqb (peek str_) zero then []
  else list_ascii_of_string (c_str (advance str_)).

(** The characters a [StreamReader] will still return before the sentinel:
    the rest of the chunk in [buf_], then what the stream still holds. *)
Definition StreamReader_pending (r : StreamReader) : list ascii :=
  firstn (len_ r - S (idx_ r)) (skipn (S (idx_ r)) (buf_ r)) ++ unread (in_ r).

(** The representation invariant of a [StreamReader]: [buf_] has its 256
    bytes, [len_] counts bytes of it, and a stream that is no longer good
    has nothing left. *)
Definition StreamReader_wf (r : StreamReader) : Prop :=
  length (buf_ r) = 256%nat /\ (len_ r <= 256)%nat
  /\ (good (in_ r) = false -> unread (in_ r) = []).


Definition stream_followed_by (t : list ascii) (a b : StreamReader) : Prop :=
  StreamReader_wf a /\ StreamReader_wf b
  /\ StreamReader_pending b = StreamReader_pending a ++ t.

(** A string reader and a stream reader with the same characters to come. *)
Definition string_like_stream (a : StringReader) (b : StreamReader) : Prop :=
  StreamReader_wf b /\ StringReader_pending a = StreamReader_pending b.

(** * More of [Value]: the typed getters *)

(** [get<R>()] for [R = Bool] *)
Definition get_bool (this : Value) : outcome bool :=
  if is_bool this then
    match data_ this with
    | Bval b => Ret b
    | _ => Undefined InactiveMember
    end
  else type_error "This is not an bool value".

(** [get<R>()] for an integral [R]: [static_cast<R>(data_.ival)], at
    [R = Int], where the cast is the identity. *)
Definition get_int (this : Value) : outcome Int :=
  if is_int this then
    match data_ this with
    | Ival i => Ret i
    | _ => Undefined InactiveMember
    end
  else type_error "This is not an int value".

(** [get<R>()] for [R = String]: a reference into the box; the model
    returns the bytes it designates. *)
Definition get_string (this : Value) (h : Heap) : outcome string :=
  if is_string this then
    p <- ptr_of this ;;
    w <- deref KString p h ;;
    match value w with
    | PString s => Ret s
    | _ => Undefined (MismatchedAccess p)
    end
  else type_error "This is not a string".

(** [get<R>()] for [R = Array].  The source writes [throw ValueTypeError(...)]
    without the namespace here and for [Object]; the model takes it for
    [error::ValueTypeError]. *)
Definition get_array (this : Value) (h : Heap) : outcome Array :=
  if is_array this then
    p <- ptr_of this ;;
    w <- deref KArray p h ;;
    match value w with
    | PArray a => Ret a
    | _ => Undefined (MismatchedAccess p)
    end
  else type_error "This is not an array".

(** [get<R>()] for [R = Object] *)
Definition get_object (this : Value) (h : Heap) : outcome Object :=
  if is_object this then
    p <- ptr_of this ;;
    w <- deref KObject p h ;;
    match value w with
    | PObject o => Ret o
    | _ => Undefined (MismatchedAccess p)
    end
  else type_error "This is not an object".

(** * Vocabulary of further statements *)

(** A Value that holds no box. *)
Definition scalar (v : Value) : Prop := kind_of_type (type_ v) = None.

(** [n] copy constructions from one Value, one after the other:
    the copies and the heap after them. *)
Fixpoint copy_n (n : nat) (v : Value) (h : Heap) : outcome (list Value * Heap) :=
  match n with
  | O => Ret ([], h)
  | S n' =>
      '(b, h1) <- Value_copy v h ;;
      '(bs, h2) <- copy_n n' v h1 ;;
      Ret (b :: bs, h2)
  end.

(** The box at [p] with another use count. *)
Definition with_uses (p : addr) (w : Wrapper) (n : Z) (h : Heap) : Heap :=
  store p (mkWrapper (value w) n) h.

(** The map after [obj[key] = v]. *)
Definition upsert (key : string) (v : Value) (obj : Object) : Object :=
  set_slot key v (snd (subscript key obj)).

(** [for (x : xs) this.insert(x);] with Values held by other objects *)
Fixpoint insert_all (xs : list Value) (this : Value) (h : Heap) : outcome (Value * Heap) :=
  match xs with
  | [] => Ret (this, h)
  | x :: xs' => '(this', h') <- insert this x h ;; insert_all xs' this' h'
  end.

(** [for ((k, v) : kvs) this.insert(k, v);] with Values held by other objects *)
Fixpoint insert_key_all (fuel : nat) (kvs : list (string * Value)) (this : Value) (h : Heap)
  : outcome (Value * Heap) :=
  match kvs with
  | [] => Ret (this, h)
  | (k, v) :: kvs' =>
      '(this', h') <- insert_key fuel this k v h ;; insert_key_all fuel kvs' this' h'
  end.

(** The value the last pair with key [key] gives it. *)
Fixpoint last_binding (key : string) (kvs : list (string * Value)) : option Value :=
  match kvs with
  | [] => None
  | (k, v) :: kvs' =>
      match last_binding key kvs' with
      | Some v' => Some v'
      | None => if String.eqb k key then Some v else None
      end
  end.

(** What the read-only accessors give for an element or a member. *)
Definition element_or_out_of_range (o : option Value) : outcome Value :=
  match o with
  | Some v => Ret v
  | None => Throw IndexOutOfRange
  end.

Definition member_or_not_exists (key : string) (o : option Value) : outcome Value :=
  match o with
  | Some v => Ret v
  | None => Throw (KeyNotExists key)
  end.

(** The members of an object are scalars. *)
Definition members_scalar (obj : Object) : Prop :=
  forall k v, find k obj = Some v -> scalar v.

(** ** The parser in front of a known text *)

(** A reader whose calls to [rdch] return the characters of [pending] one
    by one, and the sentinel once nothing is pending. *)
Definition returns_pending {R : Type} `{Reader R}
    (pending : R -> list ascii) (inv : R -> Prop) : Prop :=
  forall r, inv r ->
    fst (rdch r) = hd zero (pending r)
    /\ pending (snd (rdch r)) = tl (pending r)
    /\ inv (snd (rdch r)).

(** The parser has the characters [l] in front of it: the first one is its
    lookahead, the others are pending in its reader; behind them comes the
    sentinel. *)
Definition looks_at {R : Type} (pending : R -> list ascii) (inv : R -> Prop)
    (p : Parser R) (l : list ascii) : Prop :=
  ch_ p = hd zero l /\ pending (r_ p) = tl l /\ inv (r_ p).

(** The characters of a string, and the string of some characters. *)
Definition chars (s : string) : list ascii := list_ascii_of_string s.

(** The number a sequence of decimal digits denotes, read from the left
    with [acc] as the number read so far. *)
Fixpoint digits_value (d : Decimal.uint) (acc : Z) : Z :=
  match d with
  | Decimal.Nil => acc
  | Decimal.D0 l => digits_value l (10 * acc)
  | Decimal.D1 l => digits_value l (10 * acc + 1)
  | Decimal.D2 l => digits_value l (10 * acc + 2)
  | Decimal.D3 l => digits_value l (10 * acc + 3)
  | Decimal.D4 l => digits_value l (10 * acc + 4)
  | Decimal.D5 l => digits_value l (10 * acc + 5)
  | Decimal.D6 l => digits_value l (10 * acc + 6)
  | Decimal.D7 l => digits_value l (10 * acc + 7)
  | Decimal.D8 l => digits_value l (10 * acc + 8)
  | Decimal.D9 l => digits_value l (10 * acc + 9)
  end.

(** ** Values as trees *)

(** The trees a Value without floating-point numbers stands for. *)
#[warnings="-register-all"]
Inductive Json : Type :=
| JNull
| JBool (b : bool)
| JInt (i : Int)
| JString (s : string)
| JArray (elements : list Json)
| JObject (members : list (string * Json)).

(** The strings of a list, one after the other. *)
Fixpoint cat (ls : list string) : string :=
  match ls with
  | [] => EmptyString
  | x :: xs => String.append x (cat xs)
  end.

(** The items of a container between its brackets, separated by commas. *)
Definition bracketed (opening : string) (items : list string) (closing : string) : string :=
  match items with
  | [] => String.append opening closing
  | x :: xs =>
      String.append opening
        (String.append x (String.append (cat (map (String.append ",") xs)) closing))
  end.

(** The minimal single-line text of a tree. *)
Fixpoint print (t : Json) : string :=
  match t with
  | JNull => serialize_null
  | JBool b => serialize_bool b
  | JInt i => serialize_int i
  | JString s => serialize_string s
  | JArray l => bracketed "[" (map print l) "]"
  | JObject m =>
      bracketed "{"
        (map (fun kv => let '(k, v) := kv in
                        String.append (serialize_string k) (String.append ":" (print v))) m)
        "}"
  end.

(** Reading the Value [v] in the heap [h] as a tree, to the depth [fuel].
    A floating-point number, a dangling pointer or too little fuel give
    [None]. *)
Fixpoint tree_of (fuel : nat) (h : Heap) (v : Value) {struct fuel} : option Json :=
  match fuel with
  | O => None
  | S fuel' =>
      match type_ v, data_ v with
      | JSON_NULL, _ => Some JNull
      | JSON_BOOL, Bval b => Some (JBool b)
      | JSON_INT, Ival i => Some (JInt i)
      | JSON_STRING, Ptr p =>
          match cells h !! p with
          | Some (mkWrapper (PString s) _) => Some (JString s)
          | _ => None
          end
      | JSON_ARRAY, Ptr p =>
          match cells h !! p with
          | Some (mkWrapper (PArray a) _) =>
              option_map JArray
                (fold_right (fun x acc =>
                               match tree_of fuel' h x, acc with
                               | Some t, Some ts => Some (t :: ts)
                               | _, _ => None
                               end) (Some []) a)
          | _ => None
          end
      | JSON_OBJECT, Ptr p =>
          match cells h !! p with
          | Some (mkWrapper (PObject o) _) =>
              option_map JObject
                (fold_right (fun kv acc =>
                               match tree_of fuel' h (snd kv), acc with
                               | Some t, Some ts => Some ((fst kv, t) :: ts)
                               | _, _ => None
                               end) (Some []) o)
          | _ => None
          end
      | _, _ => None
      end
  end.

(** The Values of a sequence of trees, built one after the other. *)
Fixpoint build_seq (build : Json -> Heap -> Value * Heap) (l : list Json) (h : Heap)
  : list Value * Heap :=
  match l with
  | [] => ([], h)
  | x :: l' =>
      let '(v, h1) := build x h in
      let '(vs, h2) := build_seq build l' h1 in
      (v :: vs, h2)
  end.

Fixpoint build_members (build : Json -> Heap -> Value * Heap) (m : list (string * Json))
    (h : Heap) : Object * Heap :=
  match m with
  | [] => ([], h)
  | (k, x) :: m' =>
      let '(v, h1) := build x h in
      let '(kvs, h2) := build_members build m' h1 in
      ((k, v) :: kvs, h2)
  end.

(** The Value of a tree in the heap, with the boxes it needs: those of the
    elements first, in order, then the box of the container. *)
Fixpoint build (t : Json) (h : Heap) : Value * Heap :=
  match t with
  | JNull => (Value_null, h)
  | JBool b => (Value_bool b, h)
  | JInt i => (Value_int i, h)
  | JString s => Value_string s h
  | JArray l => let '(vs, h') := build_seq build l h in Value_array vs h'
  | JObject m => let '(kvs, h') := build_members build m h in Value_object kvs h'
  end.

(** Keys that are pairwise different. *)
Fixpoint distinct (ks : list string) : bool :=
  match ks with
  | [] => true
  | k :: ks' => negb (existsb (String.eqb k) ks') && distinct ks'
  end.

(** The trees whose text the parser reads back: integers strictly between
    [-2^63] and [2^63], strings and keys without the byte 0, no empty
    container, pairwise different keys in an object. *)
Fixpoint readable (t : Json) : bool :=
  match t with
  | JNull | JBool _ => true
  | JInt i => (- 2^63 <? i) && (i <? 2^63)
  | JString s => String.eqb (c_str s) s
  | JArray l =>
      match l with [] => false | _ => forallb readable l end
  | JObject m =>
      match m with
      | [] => false
      | _ =>
          distinct (map fst m)
          && forallb (fun kv => let '(k, v) := kv in String.eqb (c_str k) k && readable v) m
      end
  end.

(** The trees in which no object has more than one member: their text
    does not depend on the order in which [std::unordered_map] iterates. *)
Fixpoint order_free (t : Json) : bool :=
  match t with
  | JArray l => forallb order_free l
  | JObject m =>
      Nat.leb (length m) 1 && forallb (fun kv => let '(_, x) := kv in order_free x) m
  | _ => true
  end.

(** The number of containers around the innermost part of a tree. *)
Fixpoint depth (t : Json) : nat :=
  match t with
  | JArray l => S (fold_right (fun x n => Nat.max (depth x) n) 0%nat l)
  | JObject m => S (fold_right (fun kv n => let '(_, x) := kv in Nat.max (depth x) n) 0%nat m)
  | _ => 0%nat
  end.

(** What the typed getters give for a Value that stands for the tree [x]:
    its scalar, its string, or a container of the same size. *)
Definition gets (h : Heap) (e : Value) (x : Json) : Prop :=
  match x with
  | JNull => is_null e = true
  | JBool b => get_bool e = Ret b
  | JInt i => get_int e = Ret i
  | JString s => get_string e h = Ret s
  | JArray l => exists a, get_array e h = Ret a /\ length a = length l
  | JObject m => exists o, get_object e h = Ret o /\ length o = length m
  end.

(** The trees of the elements of an array and of the members of an object,
    as [tree_of] collects them. *)
Definition trees_of (f : Value -> option Json) (a : Array) : option (list Json) :=
  fold_right (fun x acc =>
                match f x, acc with
                | Some t, Some ts => Some (t :: ts)
                | _, _ => None
                end) (Some []) a.

Definition member_trees_of (f : Value -> option Json) (o : Object)
  : option (list (string * Json)) :=
  fold_right (fun kv acc =>
                match f (snd kv), acc with
                | Some t, Some ts => Some ((fst kv, t) :: ts)
                | _, _ => None
                end) (Some []) o.

(** The text of a member of an object. *)
Definition print_member (kv : string * Json) : string :=
  String.append (serialize_string (fst kv)) (String.append ":" (print (snd kv))).

(** What follows the first item of a container: the other items, each
    behind a comma, and the closing bracket. *)
Definition items_tail (items : list string) (closing : string) : string :=
  String.append (cat (map (String.append ",") items)) closing.

(** The parser, in front of the text of [t], returns the Value of [t] and
    stops behind the text. *)
Definition reads_back {R : Type} `{Reader R} (pending : R -> list ascii) (inv : R -> Prop)
    (t : Json) : Prop :=
  forall (fuel : nat) (rest : list ascii) (p : Parser R) (h : Heap),
    looks_at pending inv p (chars (print t) ++ rest) ->
    continues_number (hd zero rest) = false ->
    (String.length (print t) + 2 <= fuel)%nat ->
    exists p', looks_at pending inv p' rest
               /\ parse fuel Value_null p h = Ret (fst (build t h), p', snd (build t h)).
(** * Properties *)

(** ** The outcome monad *)

Lemma bind_Ret {A B : Type} (m : outcome A) (k : A -> outcome B) (b : B) :
  bind m k = Ret b -> exists a, m = Ret a /\ k a = Ret b.
Proof. destruct m as [a| | |]; simpl; intros E; try discriminate. exists a. split; [reflexivity | exact E]. Qed.

Lemma Type_eqb_eq (a b : Type_) : Type_eqb a b = true <-> a = b.
Proof. destruct a, b; simpl; split; intros E; try reflexivity; discriminate. Qed.

Lemma Type_eqb_neq (a b : Type_) : Type_eqb a b = false <-> a <> b.
Proof. destruct a, b; simpl; split; intros E; try reflexivity; try discriminate; try congruence. Qed.

(** ** Boxes: sharing and release *)

Lemma store_same (p : addr) (w : Wrapper) (h : Heap) :
  cells h !! p = Some w -> store p w h = h.
Proof.
  intros E. destruct h as [c n]. unfold store. simpl in *.
  f_equal. apply insert_id. exact E.
Qed.

Lemma deref_live (k : Kind) (p : addr) (h : Heap) (w : Wrapper) :
  cells h !! p = Some w -> kind_of (value w) = k -> deref k p h = Ret w.
Proof.
  intros E K. unfold deref. rewrite E, K. destruct k; reflexivity.
Qed.

(** The copy constructor shares the box: the copy has the tag and the
    pointer of the original, and the use count of the box grew by one. *)
Lemma Value_copy_shares (v : Value) (p : addr) (w : Wrapper) (h : Heap) :
  holds v p w h ->
  Value_copy v h = Ret (v, store p (mkWrapper (value w) (uses_ w + 1)) h).
Proof.
  intros (D & L & K). destruct v as [t d]. simpl in *. subst d.
  unfold Value_copy, incref, ptr_of, Wrapper_incref. simpl.
  destruct t; simpl in K; try discriminate; injection K as K;
    rewrite (deref_live _ p h w L (eq_sym K)); reflexivity.
Qed.

(** Releasing one of several references only decrements the count. *)
Lemma decref_shared (fuel : nat) (v : Value) (p : addr) (w : Wrapper) (h : Heap) :
  holds v p w h -> uses_ w <> 1 ->
  decref (S fuel) v h = Ret (store p (mkWrapper (value w) (uses_ w - 1)) h).
Proof.
  intros (D & L & K) U. destruct v as [t d]. simpl in *. subst d.
  assert (Z.eqb (uses_ w - 1) 0 = false) as E by (apply Z.eqb_neq; lia).
  unfold ptr_of, Wrapper_decref. simpl.
  destruct t; simpl in K; try discriminate; injection K as K;
    rewrite (deref_live _ p h w L (eq_sym K)); simpl; rewrite E; reflexivity.
Qed.

(** The release that brings the count of an Object box to 0 destroys the
    members and deletes the box. *)
Lemma decref_last_object (fuel : nat) (v : Value) (p : addr) (w : Wrapper) (h : Heap) (obj : Object) :
  type_ v = JSON_OBJECT -> data_ v = Ptr p -> cells h !! p = Some w ->
  value w = PObject obj -> uses_ w = 1 ->
  decref (S fuel) v h =
    (h' <- destroy_all (decref fuel) (map snd obj) (store p (mkWrapper (PObject obj) 0) h) ;;
     Ret (release p h')).
Proof.
  intros T D L V U. destruct v as [t d]. simpl in *. subst t d.
  unfold ptr_of, Wrapper_decref. simpl.
  rewrite (deref_live KObject p h w L) by (rewrite V; reflexivity). simpl.
  rewrite U, V. simpl. unfold destory, ptr_of, delete_wrapper. simpl.
  rewrite lookup_insert_eq. simpl. reflexivity.
Qed.

(** The release that brings the count of a String or an Array box to 0
    reaches [destory<String>] or [destory<Array>], which delete the box
    through the pointer member of the other wrapper type. *)
Lemma decref_last_mismatched (fuel : nat) (v : Value) (p : addr) (w : Wrapper) (h : Heap) :
  holds v p w h -> type_ v <> JSON_OBJECT -> uses_ w = 1 ->
  decref (S fuel) v h = Undefined (MismatchedDelete p).
Proof.
  intros (D & L & K) T U. destruct v as [t d]. simpl in *. subst d.
  unfold ptr_of, Wrapper_decref. simpl.
  destruct t; simpl in K; try discriminate; try congruence; injection K as K;
    rewrite (deref_live _ p h w L (eq_sym K)); simpl; rewrite U; simpl;
    unfold destory, ptr_of, delete_wrapper; simpl;
    rewrite lookup_insert_eq; simpl; rewrite <- K; reflexivity.
Qed.

(** X1.  Copy assignment between two Values that share one box leaves
    the heap as it was: the release of the target and the acquisition for
    the operand cancel, and the target equals the operand. *)
Theorem assign_shared (fuel : nat) (a b : Value) (p : addr) (w : Wrapper) (h : Heap) :
  holds a p w h -> holds b p w h -> uses_ w <> 1 ->
  assign (S fuel) a b h = Ret (b, h).
Proof.
  intros Ha Hb U. unfold assign.
  rewrite (decref_shared fuel a p w h Ha U). simpl.
  destruct Hb as (D & L & K). destruct b as [t d]. simpl in *. subst d.
  unfold incref, ptr_of, Wrapper_incref, deref, store. simpl.
  rewrite lookup_insert_eq. simpl.
  destruct t; simpl in K; try discriminate; injection K as K; rewrite <- K; simpl;
    destruct h as [c n]; destruct w as [x u]; simpl in *;
    rewrite insert_insert_eq; replace (u - 1 + 1) with u by lia;
    rewrite (insert_id c p _ L); reflexivity.
Qed.

Lemma assign_shared_witness :
  holds (mkValue JSON_ARRAY (Ptr 1%positive)) 1%positive (mkWrapper (PArray []) 2)
    (mkHeap (<[1%positive := mkWrapper (PArray []) 2]> ∅) 2%positive)
  /\ uses_ (mkWrapper (PArray []) 2) <> 1
  /\ assign (S 1) (mkValue JSON_ARRAY (Ptr 1%positive)) (mkValue JSON_ARRAY (Ptr 1%positive))
       (mkHeap (<[1%positive := mkWrapper (PArray []) 2]> ∅) 2%positive)
     = Ret (mkValue JSON_ARRAY (Ptr 1%positive),
            mkHeap (<[1%positive := mkWrapper (PArray []) 2]> ∅) 2%positive).
Proof.
  assert (Ha : holds (mkValue JSON_ARRAY (Ptr 1%positive)) 1%positive (mkWrapper (PArray []) 2)
                 (mkHeap (<[1%positive := mkWrapper (PArray []) 2]> ∅) 2%positive))
    by (repeat split; reflexivity).
  assert (Hu : uses_ (mkWrapper (PArray []) 2) <> 1) by (simpl; lia).
  split; [exact Ha|]. split; [exact Hu|].
  exact (assign_shared 1 _ _ _ _ _ Ha Ha Hu).
Defined.

(** Self-assignment by the only owner of a box: the box is released before
    the operand, which is the target itself, is read. *)
Lemma self_assign_sole_owner_object (fuel : nat) (a : Value) (p : addr) (h : Heap) :
  type_ a = JSON_OBJECT -> data_ a = Ptr p ->
  cells h !! p = Some (mkWrapper (PObject []) 1) ->
  assign (S fuel) a a h = Undefined (DanglingPointer p).
Proof.
  intros T D L. unfold assign.
  rewrite (decref_last_object fuel a p _ h [] T D L eq_refl eq_refl). simpl.
  destruct a as [t d]. simpl in *. subst t d.
  unfold incref, ptr_of, Wrapper_incref, deref, release, store. simpl.
  rewrite lookup_delete_eq. reflexivity.
Qed.

Lemma self_assign_sole_owner_mismatched (fuel : nat) (a : Value) (p : addr) (w : Wrapper) (h : Heap) :
  holds a p w h -> type_ a <> JSON_OBJECT -> uses_ w = 1 ->
  assign (S fuel) a a h = Undefined (MismatchedDelete p).
Proof.
  intros Ha T U. unfold assign.
  rewrite (decref_last_mismatched fuel a p w h Ha T U). reflexivity.
Qed.

(** C5 (defect).  [Value a = "x"; { Value b = a; }] and then the
    destruction of [a]: the copy shares the box and raises its count to 2,
    the destruction of [b] lowers it to 1, and the destruction of [a], which
    brings the count to 0, does not free the String box: [destory<String>]
    runs [delete data_.aptr], a delete through a pointer to an Array
    wrapper. *)
Theorem string_box_last_release_mismatched :
  Value_copy (fst (Value_string "x" empty_heap)) (snd (Value_string "x" empty_heap))
    = Ret (fst (Value_string "x" empty_heap),
           store 1%positive (mkWrapper (PString "x") 2) (snd (Value_string "x" empty_heap)))
  /\ copy_then_destroy_both 2 (fst (Value_string "x" empty_heap)) (snd (Value_string "x" empty_heap))
     = Undefined (MismatchedDelete 1%positive).
Proof. split; vm_compute; reflexivity. Qed.

(** The same scenario on an Object box, whose [destory<Object>] deletes
    through the right member: the box is live after the first destruction
    and gone after the second. *)
Lemma object_box_released_once :
  (h1 <- bind (Value_copy (fst (Value_object [] empty_heap)) (snd (Value_object [] empty_heap)))
           (fun bh => Value_destroy 2 (fst bh) (snd bh)) ;;
   Ret (cells h1 !! 1%positive)) = Ret (Some (mkWrapper (PObject []) 1))
  /\ (h2 <- copy_then_destroy_both 2 (fst (Value_object [] empty_heap))
              (snd (Value_object [] empty_heap)) ;;
      Ret (cells h2 !! 1%positive)) = Ret None.
Proof. split; vm_compute; reflexivity. Qed.

(** X2.  Mutation through a copy is observable through the original:
    after [Value b = a; b.insert(x);], with a use count that stays an
    [int], the box has one use more and the array read through [a] ends in
    [x]. *)
Theorem insert_through_copy_visible (a x : Value) (p : addr) (arr : Array) (n : Z) (h : Heap) :
  type_ a = JSON_ARRAY -> data_ a = Ptr p -> cells h !! p = Some (mkWrapper (PArray arr) n) ->
  int_range n -> int_range (n + 1) ->
  type_ x = JSON_INT ->
  exists h',
    ('(b, h1) <- Value_copy a h ;; insert b x h1) = Ret (a, h')
    /\ cells h' !! p = Some (mkWrapper (PArray (arr ++ [x])) (n + 1))
    /\ at_index a (length arr) h' = Ret x.
Proof.
  intros T D L _ _ X.
  assert (holds a p (mkWrapper (PArray arr) n) h) as Ha.
  { unfold holds. rewrite T. auto. }
  rewrite (Value_copy_shares a p _ h Ha). simpl.
  destruct a as [t d]; simpl in *; subst t d. destruct x as [tx dx]; simpl in *; subst tx.
  eexists. split.
  - unfold insert, insert_from, emplace_back, Value_copy, incref, ptr_of, deref, store. simpl.
    rewrite !lookup_insert_eq. simpl. reflexivity.
  - simpl. rewrite !lookup_insert_eq. split; [reflexivity|].
    unfold at_index, ptr_of, deref. simpl. rewrite lookup_insert_eq. simpl.
    rewrite nth_error_app2 by lia. rewrite Nat.sub_diag. reflexivity.
Qed.

Lemma insert_through_copy_visible_witness :
  type_ (mkValue JSON_ARRAY (Ptr 1%positive)) = JSON_ARRAY
  /\ data_ (mkValue JSON_ARRAY (Ptr 1%positive)) = Ptr 1%positive
  /\ cells (snd (Value_array [Value_null] empty_heap)) !! 1%positive
     = Some (mkWrapper (PArray [Value_null]) 1)
  /\ int_range 1
  /\ int_range (1 + 1)
  /\ type_ (Value_int 5) = JSON_INT
  /\ exists h',
       ('(b, h1) <- Value_copy (mkValue JSON_ARRAY (Ptr 1%positive))
                      (snd (Value_array [Value_null] empty_heap)) ;;
        insert b (Value_int 5) h1)
       = Ret (mkValue JSON_ARRAY (Ptr 1%positive), h')
       /\ cells h' !! 1%positive
          = Some (mkWrapper (PArray ([Value_null] ++ [Value_int 5])) (1 + 1))
       /\ at_index (mkValue JSON_ARRAY (Ptr 1%positive)) (length [Value_null]) h'
          = Ret (Value_int 5).
Proof.
  assert (Ht : type_ (mkValue JSON_ARRAY (Ptr 1%positive)) = JSON_ARRAY) by reflexivity.
  assert (Hd : data_ (mkValue JSON_ARRAY (Ptr 1%positive)) = Ptr 1%positive) by reflexivity.
  assert (Hc : cells (snd (Value_array [Value_null] empty_heap)) !! 1%positive
               = Some (mkWrapper (PArray [Value_null]) 1)) by reflexivity.
  assert (Hx : type_ (Value_int 5) = JSON_INT) by reflexivity.
  assert (R0 : int_range 1) by (unfold int_range; lia).
  assert (R1 : int_range (1 + 1)) by (unfold int_range; lia).
  split; [exact Ht|]. split; [exact Hd|]. split; [exact Hc|]. split; [exact R0|].
  split; [exact R1|]. split; [exact Hx|].
  exact (insert_through_copy_visible _ _ _ _ _ _ Ht Hd Hc R0 R1 Hx).
Defined.

(** C6 (defect).  [Value a = Object{}; a = a;] with [a] the only owner of
    its box: [decref] brings the count to 0 and deletes the box, and the
    [incref] that follows goes through the dangling pointer. *)
Theorem self_assign_sole_owner_dangling :
  decref 2 (fst (Value_object [] empty_heap)) (snd (Value_object [] empty_heap))
    = Ret (release 1%positive
             (store 1%positive (mkWrapper (PObject []) 0) (snd (Value_object [] empty_heap))))
  /\ assign 2 (fst (Value_object [] empty_heap)) (fst (Value_object [] empty_heap))
       (snd (Value_object [] empty_heap))
     = Undefined (DanglingPointer 1%positive).
Proof. split; vm_compute; reflexivity. Qed.

(** ** Keyed access *)

(** C7 (as stated, refuted).  The mutable keyed accessor on a Null Value
    throws the type error; it does not promote the Value to an Object. *)
Lemma at_key_null_throws :
  at_key Value_null "k" empty_heap = Throw (ValueTypeError "This is not an object").
Proof. reflexivity. Qed.

(** C7 (amended).  On an Object the mutable accessor returns the slot of
    the key, adding a Null entry when the key is absent, where the
    read-only accessor throws [KeyNotExists]; on a Value of any other type,
    Null included, the mutable accessor throws the type error. *)
Theorem at_key_object_or_type_error
    (this that : Value) (key : string) (h : Heap) (p : addr) (w : Wrapper) (obj : Object) :
  type_ this = JSON_OBJECT -> data_ this = Ptr p ->
  cells h !! p = Some w -> value w = PObject obj ->
  type_ that <> JSON_OBJECT ->
  match find key obj with
  | Some v => at_key this key h = Ret (v, h) /\ at_key_const this key h = Ret v
  | None =>
      at_key this key h
        = Ret (Value_null, store p (mkWrapper (PObject (obj ++ [(key, Value_null)])) (uses_ w)) h)
      /\ at_key_const this key h = Throw (KeyNotExists key)
  end
  /\ at_key that key h = Throw (ValueTypeError "This is not an object").
Proof.
  intros T D L V N.
  destruct this as [t d]; simpl in *; subst t d.
  assert (deref KObject p h = Ret w) as E by (apply deref_live; [exact L | rewrite V; reflexivity]).
  split.
  - unfold at_key, at_key_const, subscript, ptr_of. simpl. rewrite E. simpl. rewrite V.
    destruct (find key obj) as [v|]; split; try reflexivity.
    f_equal. f_equal. apply store_same. rewrite L. destruct w as [x u]. simpl in *. subst x. reflexivity.
  - unfold at_key, is_object. apply Type_eqb_neq in N. rewrite N. reflexivity.
Qed.

Lemma at_key_object_or_type_error_witness :
  type_ (fst (Value_object [] empty_heap)) = JSON_OBJECT
  /\ data_ (fst (Value_object [] empty_heap)) = Ptr 1%positive
  /\ cells (snd (Value_object [] empty_heap)) !! 1%positive = Some (mkWrapper (PObject []) 1)
  /\ value (mkWrapper (PObject []) 1) = PObject []
  /\ type_ Value_null <> JSON_OBJECT
  /\ (at_key (fst (Value_object [] empty_heap)) "k" (snd (Value_object [] empty_heap))
        = Ret (Value_null,
               store 1%positive (mkWrapper (PObject [("k", Value_null)]) 1)
                 (snd (Value_object [] empty_heap)))
      /\ at_key_const (fst (Value_object [] empty_heap)) "k" (snd (Value_object [] empty_heap))
         = Throw (KeyNotExists "k"))
  /\ at_key Value_null "k" (snd (Value_object [] empty_heap))
     = Throw (ValueTypeError "This is not an object").
Proof.
  assert (type_ Value_null <> JSON_OBJECT) as N by discriminate.
  repeat (split; [first [reflexivity | exact N] |]).
  exact (at_key_object_or_type_error (fst (Value_object [] empty_heap)) Value_null "k"
           (snd (Value_object [] empty_heap)) 1%positive (mkWrapper (PObject []) 1) []
           eq_refl eq_refl eq_refl eq_refl N).
Defined.

(** ** String serialization *)

Lemma serialize_char_spec (c : ascii) : serialize_char c = spec_escape_char c.
Proof.
  destruct c as [[] [] [] [] [] [] [] []]; reflexivity.
Qed.

Lemma serialize_chars_c_str (str : string) : serialize_chars str = spec_escape (c_str str).
Proof.
  induction str as [|c str IH]; simpl; [reflexivity|].
  destruct (Ascii.eqb c zero); simpl; [reflexivity|].
  rewrite IH, serialize_char_spec. reflexivity.
Qed.

Lemma c_str_no_zero (str : string) :
  (forall c, In c (list_ascii_of_string str) -> c <> zero) -> c_str str = str.
Proof.
  induction str as [|c str IH]; simpl; intros Hz; [reflexivity|].
  destruct (Ascii.eqb_spec c zero) as [E|E].
  - exfalso. apply (Hz c); [left; reflexivity | exact E].
  - rewrite IH; [reflexivity|]. intros d Hd. apply Hz. right. exact Hd.
Qed.

(** C9 (as stated, refuted).  The three-byte String [a], byte 0, [b]: the
    serializer stops at the byte 0, so neither it nor the [b] after it is
    passed through. *)
Lemma serialize_string_stops_at_zero :
  serialize_string (String "a" (String zero (String "b" EmptyString))) = quoted "a"
  /\ serialize_string (String "a" (String zero (String "b" EmptyString)))
     <> quoted (spec_escape (String "a" (String zero (String "b" EmptyString)))).
Proof. split; [reflexivity | discriminate]. Qed.

(** C9 (amended).  Serializing a String emits, between double quotes, the
    bytes before its first byte 0 (all of them when it has none), each of
    the eight special characters replaced by its two-character escape and
    every other byte passed through; the five-character example of the
    specification is serialized as stated. *)
Theorem serialize_string_escapes_c_str :
  (forall str : string, serialize_string str = quoted (spec_escape (c_str str)))
  /\ serialize_string a_quote_b_backslash_c
     = quoted (String "a" (String backslash (String dquote
                (String "b" (String backslash (String backslash (String "c" EmptyString))))))).
Proof.
  split; [|reflexivity].
  intros str. unfold serialize_string, quoted. rewrite serialize_chars_c_str. reflexivity.
Qed.

(** ** Character sources *)

(** C2 (defect).  On the text of an empty array the stream-backed source
    returns both characters and then the sentinel, as the contract says;
    the string-backed source never returns the first character.
    Consequently the two [deserialize] disagree on the text 12. *)
Theorem string_reader_drops_first_char :
  outputs 3 (StreamReader_new (istream_of "[]")) = contract "[]" 3
  /\ outputs 3 ("[]" : StringReader) = ["]"%char; zero; zero]
  /\ outputs 3 ("[]" : StringReader) <> contract "[]" 3
  /\ parsed (deserialize_stream 5 (istream_of "12") empty_heap) = Ret (Value_int 12)
  /\ parsed (deserialize 5 "12" empty_heap) = Ret (Value_int 2).
Proof. repeat split; try (vm_compute; reflexivity). vm_compute. discriminate. Qed.

(** ** Parsing *)

(** C3 (defect).  Neither empty container is accepted: after the opening
    bracket the array loop parses an element before it looks for the
    closing bracket, and the object loop asks for a quoted key.  (For the
    string-backed source the texts carry a leading space, which that
    source drops.) *)
Theorem empty_containers_rejected :
  parsed (deserialize_stream 5 (istream_of "[]") empty_heap) = Throw UnexpectedToken
  /\ parsed (deserialize_stream 5 (istream_of "{}") empty_heap) = Throw UnexpectedToken
  /\ parsed (deserialize 5 " []" empty_heap) = Throw UnexpectedToken
  /\ parsed (deserialize 5 " {}" empty_heap) = Throw UnexpectedToken.
Proof. repeat split; vm_compute; reflexivity. Qed.

(** Whatever the reader, whatever the fuel: an array loop that starts on
    the closing bracket does not return. *)
Lemma parse_array_loop_closing_bracket {R : Type} `{Reader R}
    (fuel : nat) (out : Value) (p : Parser R) (h : Heap) :
  ch_ p = "]"%char ->
  parse_array_loop fuel out [] p h = OutOfFuel
  \/ parse_array_loop fuel out [] p h = Throw UnexpectedToken.
Proof.
  intros E. destruct fuel as [|[|fuel]]; simpl; try rewrite E; simpl; auto.
Qed.

Lemma parse_object_loop_closing_brace {R : Type} `{Reader R}
    (fuel : nat) (out : Value) (p : Parser R) (h : Heap) :
  ch_ p = "}"%char ->
  parse_object_loop fuel out [] p h = OutOfFuel
  \/ parse_object_loop fuel out [] p h = Throw UnexpectedToken.
Proof.
  intros E. destruct fuel as [|[|fuel]]; simpl; rewrite ?E; simpl; rewrite ?E; simpl; auto.
Qed.

(** One turn of the exponent loop multiplies the exponent read so far by
    eleven before it adds the digit. *)
Lemma exp_digits_eleven {R : Type} `{Reader R} (fuel : nat) (exp : Int) (p : Parser R) :
  exp_digits (S fuel) exp p
  = if isdigit (ch_ (skip p))
    then exp_digits fuel (wrap64 (11 * exp + (code (ch_ p) - 48))) (skip p)
    else Ret (wrap64 (11 * exp + (code (ch_ p) - 48)), skip p).
Proof.
  simpl. change (code "0") with 48.
  replace (exp + (exp * 10 + code (ch_ p) - 48)) with (11 * exp + (code (ch_ p) - 48)) by lia.
  reflexivity.
Qed.

(** C4 (defect).  The exponent loop adds [exp * 10 + digit] to [exp], so a
    second digit multiplies what was read by eleven: the exponent 15 is
    read as 16 and [1e15] is scaled by ten to the sixteenth.  A one-digit
    exponent is read as written ([1.234e5] is 123400), and a marker with no
    digit after it, or after its sign, is rejected. *)
Theorem two_digit_exponent_misread :
  (exists f : Float,
      parsed (deserialize_stream 9 (istream_of "1e15") empty_heap) = Ret (Value_float f)
      /\ Qeq f (pow10 16) /\ ~ Qeq f (pow10 15))
  /\ (exists f : Float,
         parsed (deserialize_stream 9 (istream_of "1.234e5") empty_heap) = Ret (Value_float f)
         /\ Qeq f (123400 # 1))
  /\ parsed (deserialize_stream 9 (istream_of "1e") empty_heap) = Throw UnexpectedToken
  /\ parsed (deserialize_stream 9 (istream_of "1e+") empty_heap) = Throw UnexpectedToken.
Proof.
  split; [|split; [|split]]; try (vm_compute; reflexivity).
  - eexists. split; [vm_compute; reflexivity|]. split.
    + apply Qeq_bool_iff. vm_compute. reflexivity.
    + intros E. apply Qeq_bool_iff in E. vm_compute in E. discriminate.
  - eexists. split; [vm_compute; reflexivity|]. apply Qeq_bool_iff. vm_compute. reflexivity.
Qed.

(** C8 (defect).  The escape of U+1234 must give the bytes E1 88 B4; the
    parser writes E1 C8 B4, because the middle byte is [0x80 | (hex >> 6)]
    without the mask.  The escape of U+0A00 must give E0 A8 80; the parser
    writes E0 80 80, because a letter digit adds [ch_ - 'a'], not that
    plus ten. *)
Theorem unicode_escape_wrong_bytes :
  payload_of_parse (quoted (unicode_escape "1" "2" "3" "4"))
    = Ret (Some (PString (String (to_char 225) (String (to_char 200) (String (to_char 180) EmptyString)))))
  /\ utf8_3 4660
     = String (to_char 225) (String (to_char 136) (String (to_char 180) EmptyString))
  /\ payload_of_parse (quoted (unicode_escape "0" "a" "0" "0"))
     = Ret (Some (PString (String (to_char 224) (String (to_char 128) (String (to_char 128) EmptyString)))))
  /\ utf8_3 2560
     = String (to_char 224) (String (to_char 168) (String (to_char 128) EmptyString)).
Proof. repeat split; vm_compute; reflexivity. Qed.

(** A character that is no hexadecimal digit is rejected. *)
Lemma add_hex_digit_rejects (hex : Z) (c : ascii) :
  ~ (48 <= code c <= 57) -> ~ (97 <= code c <= 102) -> ~ (65 <= code c <= 70) ->
  add_hex_digit hex c = Throw UnexpectedToken.
Proof.
  intros H1 H2 H3. unfold add_hex_digit.
  change (code "0") with 48. change (code "9") with 57.
  change (code "a") with 97. change (code "f") with 102.
  change (code "A") with 65. change (code "F") with 70.
  destruct (Z.leb_spec 48 (code c)), (Z.leb_spec (code c) 57); simpl; try lia;
  destruct (Z.leb_spec 97 (code c)), (Z.leb_spec (code c) 102); simpl; try lia;
  destruct (Z.leb_spec 65 (code c)), (Z.leb_spec (code c) 70); simpl; try lia; reflexivity.
Qed.

(** ** Round trip *)

(** C1 (defect).  The round trip fails on the simplest Values: [null] is
    serialized as the text null, of which [deserialize] sees only ull; the
    integer 12 comes back as 2; the empty array, serialized as two
    brackets, is rejected. *)
Theorem round_trip_fails (show_Float : Float -> string) :
  serialize show_Float 1 empty_heap Value_null = Ret "null"
  /\ parsed (deserialize 5 "null" empty_heap) = Throw UnexpectedToken
  /\ serialize show_Float 1 empty_heap (Value_int 12) = Ret "12"
  /\ parsed (deserialize 5 "12" empty_heap) = Ret (Value_int 2)
  /\ serialize show_Float 2 (snd (Value_array [] empty_heap)) (fst (Value_array [] empty_heap))
     = Ret "[]"
  /\ parsed (deserialize 5 "[]" empty_heap) = Throw UnexpectedToken.
Proof. repeat split; vm_compute; reflexivity. Qed.

(** ** The parser at the sentinel *)

Ltac inv_bind H :=
  let x := fresh "x" in
  let E := fresh "E" in
  apply bind_Ret in H as (x & E & H).

(** Evaluating the tests the parser makes on the sentinel. *)
Ltac tests_at_zero E :=
  repeat first
    [ progress change (isdigit zero) with false in E
    | progress change (isspace zero) with false in E
    | match type of E with
      | context [is_ch zero ?c] =>
          let v := eval vm_compute in (is_ch zero c) in
          change (is_ch zero c) with v in E
      end ];
  cbv beta iota delta [negb orb andb unexpected_token] in E.

Ltac at_zero Z E :=
  exfalso; repeat (progress (rewrite ?Z in E; tests_at_zero E)); discriminate.

Ltac case_if :=
  match goal with
  | |- context [if ?c then _ else _] => destruct c eqn:?
  end.

#[local] Arguments wrap64 : simpl never.
#[local] Arguments code : simpl never.
#[local] Arguments isdigit : simpl never.
#[local] Arguments isspace : simpl never.
#[local] Arguments is_ch : simpl never.
#[local] Arguments Qeq_bool : simpl never.
#[local] Arguments pow10 : simpl never.
#[local] Arguments skip : simpl never.
#[local] Arguments String.append : simpl never.

Lemma continues_number_false (c : ascii) :
  continues_number c = false ->
  isdigit c = false /\ is_ch c "." = false /\ is_ch c "e" = false /\ is_ch c "E" = false.
Proof.
  unfold continues_number. intros E.
  apply orb_false_elim in E as [E E4]. apply orb_false_elim in E as [E E3].
  apply orb_false_elim in E as [E1 E2]. auto.
Qed.

Lemma add_hex_digit_zero (hex : Z) : add_hex_digit hex zero = Throw UnexpectedToken.
Proof. reflexivity. Qed.

Section AtSentinel.

Context {R : Type} `{Reader R}.

Lemma skip_spaces_zero (fuel : nat) (p p' : Parser R) :
  ch_ p = zero -> skip_spaces fuel p = Ret p' -> p' = p.
Proof.
  intros Z E. destruct fuel; simpl in E; [discriminate|].
  rewrite Z in E. change (isspace zero) with false in E. congruence.
Qed.

Lemma string_chars_zero (fuel : nat) (ss : string) (p : Parser R) (x : string * Parser R) :
  ch_ p = zero -> string_chars fuel ss p = Ret x -> False.
Proof.
  intros Z E. destruct fuel; simpl in E; [discriminate|].
  rewrite Z in E. change (is_ch zero zero) with true in E. discriminate.
Qed.

Lemma parse_escape_zero (p : Parser R) (x : string * Parser R) :
  ch_ p = zero -> parse_escape p = Ret x -> False.
Proof.
  intros Z E. unfold parse_escape in E. at_zero Z E.
Qed.

Lemma parse_zero (fuel : nat) (value : Value) (p : Parser R) (h : Heap)
    (x : Value * Parser R * Heap) :
  ch_ p = zero -> parse fuel value p h = Ret x -> False.
Proof.
  intros Z E. destruct fuel; simpl in E; [discriminate|].
  at_zero Z E.
Qed.

Lemma parse_array_loop_zero (fuel : nat) (out : Value) (arr : Array) (p : Parser R) (h : Heap)
    (x : Value * Parser R * Heap) :
  ch_ p = zero -> parse_array_loop fuel out arr p h = Ret x -> False.
Proof.
  intros Z E. destruct fuel; simpl in E; [discriminate|].
  rewrite Z in E. change (is_ch zero zero) with true in E. discriminate.
Qed.

Lemma parse_object_loop_zero (fuel : nat) (out : Value) (obj : Object) (p : Parser R) (h : Heap)
    (x : Value * Parser R * Heap) :
  ch_ p = zero -> parse_object_loop fuel out obj p h = Ret x -> False.
Proof.
  intros Z E. destruct fuel; simpl in E; [discriminate|].
  rewrite Z in E. change (is_ch zero zero) with true in E. discriminate.
Qed.

End AtSentinel.

(** ** Two parsers in lockstep

    The first parser reads a text, the second one the same text followed
    by more characters, of which [c] is the first.  As long as the first
    one returns, the second one returns the same result, with one
    exception: the only place where the parser looks at the character
    behind a value is the end of a numeric literal, and there the second
    parser reads on when [c] continues the number. *)

Section Simulation.

Context {RA RB : Type} {HA : Reader RA} {HB : Reader RB}.
Variable c : ascii.
Variable Rel : RA -> RB -> Prop.
Hypothesis Rel_step : steps_together c Rel.

Lemma skip_sim (a : Parser RA) (b : Parser RB) : same Rel a b -> sim c Rel (skip a) (skip b).
Proof.
  intros [_ Hr]. unfold skip.
  destruct (Rel_step _ _ Hr) as [[E1 E2] | [E1 E2]];
    destruct (rdch (r_ a)) as [ca ra], (rdch (r_ b)) as [cb rb]; simpl in *.
  - left. split; assumption.
  - right. split; assumption.
Qed.

Lemma skip_spaces_sim (fuel : nat) (a a' : Parser RA) (b : Parser RB) :
  same Rel a b -> skip_spaces fuel a = Ret a' ->
  (exists b', skip_spaces fuel b = Ret b' /\ same Rel a' b') \/ ch_ a' = zero.
Proof.
  revert a b. induction fuel as [|fuel IH]; intros a b S E; simpl in *; [discriminate|].
  pose proof S as [Hc Hr]. revert E. rewrite <- Hc. case_if; intros E.
  - destruct (skip_sim a b S) as [S' | [Z _]].
    + exact (IH _ _ S' E).
    + right. rewrite (skip_spaces_zero _ _ _ Z E). exact Z.
  - injection E as <-. left. exists b. split; [reflexivity | exact S].
Qed.

Lemma expect_sim (name : list ascii) (a a' : Parser RA) (b : Parser RB) :
  Forall (fun x => x <> zero) name ->
  same Rel a b -> expect name a = Ret a' ->
  exists b', expect name b = Ret b' /\ sim c Rel a' b'.
Proof.
  intros N. revert a b. induction N as [|x name Hc0 N IH]; intros a b S E; simpl in *.
  - injection E as <-. exists b. split; [reflexivity | left; exact S].
  - pose proof S as [Hc Hr]. revert E. rewrite <- Hc. case_if; intros E; [|discriminate].
    destruct (skip_sim a b S) as [S' | [Z Hn]].
    + exact (IH _ _ S' E).
    + destruct N as [|d name Hd N].
      * simpl in *. injection E as <-. eexists. split; [reflexivity|]. right. split; assumption.
      * simpl in E. rewrite Z in E.
        assert (is_ch zero d = false) as F.
        { unfold is_ch. apply Ascii.eqb_neq. congruence. }
        rewrite F in E. discriminate.
Qed.

(** The loops over digits stop at the first character that is not a
    digit: at the sentinel, the second parser stops as well unless [c]
    continues the number. *)
Lemma skip_digits_sim (fuel : nat) (a a' : Parser RA) (b : Parser RB) :
  same Rel a b -> skip_digits fuel a = Ret a' ->
  (exists b', skip_digits fuel b = Ret b' /\ sim c Rel a' b') \/ cut_short c a'.
Proof.
  revert a b. induction fuel as [|fuel IH]; intros a b S E; simpl in *; [discriminate|].
  destruct (skip_sim a b S) as [S' | [Z Hn]].
  - pose proof S' as [Hc Hr]. revert E. rewrite <- Hc. case_if; intros E.
    + exact (IH _ _ S' E).
    + injection E as <-. left. eexists. split; [reflexivity | left; exact S'].
  - rewrite Z in E. change (isdigit zero) with false in E. injection E as <-.
    destruct (continues_number c) eqn:Cc; [right; split; assumption|].
    left. rewrite Hn. destruct (continues_number_false _ Cc) as (D & _). rewrite D.
    eexists. split; [reflexivity|]. right. split; assumption.
Qed.

Lemma exp_digits_sim (fuel : nat) (exp x : Int) (a a' : Parser RA) (b : Parser RB) :
  same Rel a b -> exp_digits fuel exp a = Ret (x, a') ->
  (exists b', exp_digits fuel exp b = Ret (x, b') /\ sim c Rel a' b') \/ cut_short c a'.
Proof.
  revert exp a b. induction fuel as [|fuel IH]; intros exp a b S E; simpl in *; [discriminate|].
  pose proof S as [Hc0 _]. rewrite <- Hc0.
  destruct (skip_sim a b S) as [S' | [Z Hn]].
  - pose proof S' as [Hc Hr]. revert E. rewrite <- Hc. case_if; intros E.
    + exact (IH _ _ _ S' E).
    + injection E as <- <-. left. eexists. split; [reflexivity | left; exact S'].
  - rewrite Z in E. change (isdigit zero) with false in E. injection E as <- <-.
    destruct (continues_number c) eqn:Cc; [right; split; assumption|].
    left. rewrite Hn. destruct (continues_number_false _ Cc) as (D & _). rewrite D.
    eexists. split; [reflexivity|]. right. split; assumption.
Qed.

Lemma int_digits_sim (fuel : nat) (ival x : Int) (a a' : Parser RA) (b : Parser RB) :
  same Rel a b -> int_digits fuel ival a = Ret (x, a') ->
  (exists b', int_digits fuel ival b = Ret (x, b') /\ sim c Rel a' b') \/ cut_short c a'.
Proof.
  revert ival a b. induction fuel as [|fuel IH]; intros ival a b S E; simpl in *; [discriminate|].
  pose proof S as [Hc0 _]. rewrite <- Hc0.
  destruct (skip_sim a b S) as [S' | [Z Hn]].
  - pose proof S' as [Hc Hr]. revert E. rewrite <- Hc. case_if; intros E.
    + exact (IH _ _ _ S' E).
    + injection E as <- <-. left. eexists. split; [reflexivity | left; exact S'].
  - rewrite Z in E. change (isdigit zero) with false in E. injection E as <- <-.
    destruct (continues_number c) eqn:Cc; [right; split; assumption|].
    left. rewrite Hn. destruct (continues_number_false _ Cc) as (D & _). rewrite D.
    eexists. split; [reflexivity|]. right. split; assumption.
Qed.

Lemma dot_digits_sim (fuel : nat) (e : Z) (fval x : Float) (a a' : Parser RA) (b : Parser RB) :
  same Rel a b -> dot_digits fuel e fval a = Ret (x, a') ->
  (exists b', dot_digits fuel e fval b = Ret (x, b') /\ sim c Rel a' b') \/ cut_short c a'.
Proof.
  revert e fval a b.
  induction fuel as [|fuel IH]; intros e fval a b S E; simpl in *; [discriminate|].
  pose proof S as [Hc0 _]. rewrite <- Hc0.
  destruct (skip_sim a b S) as [S' | [Z Hn]].
  - pose proof S' as [Hc Hr]. revert E. rewrite <- Hc. case_if; intros E.
    + injection E as <- <-. left. eexists. split; [reflexivity | left; exact S'].
    + exact (IH _ _ _ _ S' E).
  - rewrite Z in E. change (isdigit zero) with false in E. simpl in E. injection E as <- <-.
    destruct (continues_number c) eqn:Cc; [right; split; assumption|].
    left. rewrite Hn. destruct (continues_number_false _ Cc) as (D & _). rewrite D. simpl.
    eexists. split; [reflexivity|]. right. split; assumption.
Qed.

(** The part of [parse_exp] behind the sign. *)
Lemma parse_exp_digits_sim (fuel : nat) (is_positive : bool) (fval x : Float)
    (a a' : Parser RA) (b : Parser RB) :
  same Rel a b ->
  (if negb (isdigit (ch_ a)) then unexpected_token
   else if Qeq_bool fval 0 then p <- skip_digits fuel a ;; Ret (fval, p)
   else '(exp, p) <- exp_digits fuel 0 a ;;
        Ret (Qmult fval (pow10 (if is_positive then exp else wrap64 (- exp))), p))
  = Ret (x, a') ->
  (exists b',
     (if negb (isdigit (ch_ b)) then unexpected_token
      else if Qeq_bool fval 0 then p <- skip_digits fuel b ;; Ret (fval, p)
      else '(exp, p) <- exp_digits fuel 0 b ;;
           Ret (Qmult fval (pow10 (if is_positive then exp else wrap64 (- exp))), p))
     = Ret (x, b') /\ sim c Rel a' b')
  \/ cut_short c a'.
Proof.
  intros S. pose proof S as [Hc _]. rewrite <- Hc.
  destruct (isdigit (ch_ a)); simpl; [|discriminate].
  destruct (Qeq_bool fval 0); intros E; inv_bind E.
  - injection E as <- <-.
    destruct (skip_digits_sim _ _ _ _ S E0) as [(b' & Eb & S') | Cut]; [|right; exact Cut].
    left. exists b'. rewrite Eb. split; [reflexivity | exact S'].
  - destruct x0 as [exp a1]. injection E as <- <-.
    destruct (exp_digits_sim _ _ _ _ _ _ S E0) as [(b' & Eb & S') | Cut]; [|right; exact Cut].
    left. exists b'. rewrite Eb. split; [reflexivity | exact S'].
Qed.

Lemma parse_exp_sim (fuel : nat) (fval x : Float) (a a' : Parser RA) (b : Parser RB) :
  same Rel a b -> parse_exp fuel fval a = Ret (x, a') ->
  (exists b', parse_exp fuel fval b = Ret (x, b') /\ sim c Rel a' b') \/ cut_short c a'.
Proof.
  intros S. unfold parse_exp.
  destruct (skip_sim a b S) as [S1 | [Z _]].
  2: { intros E. at_zero Z E. }
  pose proof S1 as [Hc1 _]. rewrite <- Hc1.
  destruct (is_ch (ch_ (skip a)) "-").
  { destruct (skip_sim _ _ S1) as [S2 | [Z _]].
    - apply (parse_exp_digits_sim fuel false). exact S2.
    - intros E. at_zero Z E. }
  destruct (is_ch (ch_ (skip a)) "+").
  { destruct (skip_sim _ _ S1) as [S2 | [Z _]].
    - apply (parse_exp_digits_sim fuel true). exact S2.
    - intros E. at_zero Z E. }
  apply (parse_exp_digits_sim fuel true). exact S1.
Qed.

Lemma parse_dot_sim (fuel : nat) (fval x : Float) (a a' : Parser RA) (b : Parser RB) :
  same Rel a b -> parse_dot fuel fval a = Ret (x, a') ->
  (exists b', parse_dot fuel fval b = Ret (x, b') /\ sim c Rel a' b') \/ cut_short c a'.
Proof.
  intros S. unfold parse_dot.
  destruct (skip_sim a b S) as [S1 | [Z _]].
  2: { intros E. at_zero Z E. }
  pose proof S1 as [Hc1 _]. rewrite <- Hc1.
  destruct (isdigit (ch_ (skip a))); simpl; [|discriminate].
  intros E. inv_bind E. destruct x0 as [f1 a1].
  destruct (dot_digits_sim _ _ _ _ _ _ _ S1 E0) as [(b1 & Eb & S2) | [Z Cc]].
  2: { rewrite Z in E. change (is_ch zero "e" || is_ch zero "E") with false in E.
       injection E as <- <-. right. split; assumption. }
  rewrite Eb. simpl. destruct S2 as [S2 | [Z Hn]].
  - pose proof S2 as [Hc2 _]. rewrite <- Hc2.
    destruct (is_ch (ch_ a1) "e" || is_ch (ch_ a1) "E").
    + exact (parse_exp_sim _ _ _ _ _ _ S2 E).
    + injection E as <- <-. left. exists b1. split; [reflexivity | left; exact S2].
  - rewrite Z in E. change (is_ch zero "e" || is_ch zero "E") with false in E.
    injection E as <- <-.
    destruct (continues_number c) eqn:Cc; [right; split; assumption|].
    left. rewrite Hn. destruct (continues_number_false _ Cc) as (_ & _ & -> & ->). simpl.
    exists b1. split; [reflexivity | right; split; assumption].
Qed.

(** The Value a number is assigned to holds a number. *)
Lemma assign_int_number (fuel : nat) (this v : Value) (i : Int) (h h' : Heap) :
  assign_int fuel this i h = Ret (v, h') -> is_number v = true.
Proof.
  unfold assign_int. destruct (is_int this); intros E; [|inv_bind E];
    injection E as <- <-; reflexivity.
Qed.

Lemma assign_float_number (fuel : nat) (this v : Value) (f : Float) (h h' : Heap) :
  assign_float fuel this f h = Ret (v, h') -> is_number v = true.
Proof.
  unfold assign_float. destruct (is_float this); intros E; [|inv_bind E];
    injection E as <- <-; reflexivity.
Qed.

Lemma parse_digit_number (fuel : nat) (value v : Value) (h h' : Heap) (a a' : Parser RA) :
  parse_digit fuel value a h = Ret (v, a', h') -> is_number v = true.
Proof.
  unfold parse_digit. intros E. inv_bind E. destruct x as [is_positive a0].
  inv_bind E. destruct x as [ival a1]. revert E.
  case_if.
  { intros E. inv_bind E. destruct x as [fval a2]. inv_bind E. destruct x as [v1 h1].
    injection E as <- <- <-. eapply assign_float_number; eassumption. }
  case_if.
  { intros E. inv_bind E. destruct x as [fval a2]. inv_bind E. destruct x as [v1 h1].
    injection E as <- <- <-. eapply assign_float_number; eassumption. }
  intros E. inv_bind E. destruct x as [v1 h1].
  injection E as <- <- <-. eapply assign_int_number; eassumption.
Qed.

Lemma parse_digit_sim (fuel : nat) (value v : Value) (h h' : Heap)
    (a a' : Parser RA) (b : Parser RB) :
  same Rel a b -> parse_digit fuel value a h = Ret (v, a', h') ->
  (exists b', parse_digit fuel value b h = Ret (v, b', h') /\ sim c Rel a' b')
  \/ cut_short c a'.
Proof.
  intros S. unfold parse_digit. intros E. inv_bind E. destruct x as [is_positive a0].
  assert (exists b0,
    (if is_ch (ch_ b) "-"
     then if negb (isdigit (ch_ (skip b))) then unexpected_token else Ret (false, skip b)
     else Ret (true, b)) = Ret (is_positive, b0) /\ same Rel a0 b0) as (b0 & Eb0 & S0).
  { pose proof S as [Hc _]. rewrite <- Hc. revert E0. destruct (is_ch (ch_ a) "-").
    - destruct (skip_sim a b S) as [S1 | [Z _]].
      + pose proof S1 as [Hc1 _]. rewrite <- Hc1.
        destruct (isdigit (ch_ (skip a))); simpl; [|discriminate].
        intros E0. injection E0 as <- <-. eexists. split; [reflexivity | exact S1].
      + intros E0. at_zero Z E0.
    - intros E0. injection E0 as <- <-. exists b. split; [reflexivity | exact S]. }
  rewrite Eb0. simpl. clear Eb0 E0.
  inv_bind E. destruct x as [ival a1].
  destruct (int_digits_sim _ _ _ _ _ _ S0 E0) as [(b1 & Eb1 & S1) | [Z Cc]].
  2: { rewrite Z in E. change (is_ch zero ".") with false in E.
       change (is_ch zero "e" || is_ch zero "E") with false in E.
       inv_bind E. destruct x as [v1 h1]. injection E as <- <- <-.
       right. split; assumption. }
  rewrite Eb1. simpl. clear Eb1 E0.
  destruct S1 as [S1 | [Z Hn]].
  - pose proof S1 as [Hc1 _]. rewrite <- Hc1.
    destruct (is_ch (ch_ a1) ".").
    { inv_bind E. destruct x as [fval a2].
      destruct (parse_dot_sim _ _ _ _ _ _ S1 E0) as [(b2 & Eb2 & S2) | Cut].
      2: { inv_bind E. destruct x as [v1 h1]. injection E as <- <- <-. right. exact Cut. }
      rewrite Eb2. simpl. inv_bind E. destruct x as [v1 h1]. rewrite E1. simpl.
      injection E as <- <- <-. left. exists b2. split; [reflexivity | exact S2]. }
    destruct (is_ch (ch_ a1) "e" || is_ch (ch_ a1) "E").
    { inv_bind E. destruct x as [fval a2].
      destruct (parse_exp_sim _ _ _ _ _ _ S1 E0) as [(b2 & Eb2 & S2) | Cut].
      2: { inv_bind E. destruct x as [v1 h1]. injection E as <- <- <-. right. exact Cut. }
      rewrite Eb2. simpl. inv_bind E. destruct x as [v1 h1]. rewrite E1. simpl.
      injection E as <- <- <-. left. exists b2. split; [reflexivity | exact S2]. }
    inv_bind E. destruct x as [v1 h1]. rewrite E0. simpl.
    injection E as <- <- <-. left. exists b1. split; [reflexivity | left; exact S1].
  - rewrite Z in E. change (is_ch zero ".") with false in E.
    change (is_ch zero "e" || is_ch zero "E") with false in E.
    inv_bind E. destruct x as [v1 h1]. injection E as <- <- <-.
    destruct (continues_number c) eqn:Cc; [right; split; assumption|].
    left. rewrite Hn. destruct (continues_number_false _ Cc) as (_ & -> & -> & ->). simpl.
    rewrite E0. simpl.
    exists b1. split; [reflexivity | right; split; assumption].
Qed.

Lemma hex_digits_sim (n : nat) (hex x : Z) (a a' : Parser RA) (b : Parser RB) :
  same Rel a b -> hex_digits n hex a = Ret (x, a') ->
  exists b', hex_digits n hex b = Ret (x, b') /\ same Rel a' b'.
Proof.
  revert hex a b. induction n as [|n IH]; intros hex a b S E; simpl in *.
  - injection E as <- <-. exists b. split; [reflexivity | exact S].
  - destruct (skip_sim a b S) as [S1 | [Z _]].
    + pose proof S1 as [Hc1 _]. rewrite <- Hc1.
      inv_bind E. rewrite E0. simpl. exact (IH _ _ _ S1 E).
    + rewrite Z in E. rewrite add_hex_digit_zero in E. discriminate.
Qed.

Lemma parse_escape_sim (bytes : string) (a a' : Parser RA) (b : Parser RB) :
  same Rel a b -> parse_escape a = Ret (bytes, a') ->
  exists b', parse_escape b = Ret (bytes, b') /\ same Rel a' b'.
Proof.
  intros S. pose proof S as [Hc _]. unfold parse_escape. rewrite <- Hc.
  repeat (case_if; [intros E; injection E as <- <-; exists b; split; [reflexivity | exact S] |]).
  case_if; [|discriminate].
  intros E. inv_bind E. destruct x as [hex a1].
  destruct (hex_digits_sim _ _ _ _ _ _ S E0) as (b1 & Eb & S1).
  rewrite Eb. simpl. injection E as <- <-. exists b1. split; [reflexivity | exact S1].
Qed.

Lemma string_chars_sim (fuel : nat) (ss str : string) (a a' : Parser RA) (b : Parser RB) :
  same Rel a b -> string_chars fuel ss a = Ret (str, a') ->
  exists b', string_chars fuel ss b = Ret (str, b') /\ sim c Rel a' b'.
Proof.
  revert ss a b. induction fuel as [|fuel IH]; intros ss a b S; simpl; [discriminate|].
  pose proof S as [Hc _]. rewrite <- Hc.
  case_if; [discriminate|].
  case_if.
  { intros E. injection E as <- <-. eexists. split; [reflexivity | exact (skip_sim _ _ S)]. }
  case_if.
  { intros E. inv_bind E. destruct x as [bytes a1].
    destruct (skip_sim _ _ S) as [S1 | [Z _]].
    2: { exfalso. exact (parse_escape_zero _ _ Z E0). }
    destruct (parse_escape_sim _ _ _ _ S1 E0) as (b1 & Eb & S2).
    rewrite Eb. simpl.
    destruct (skip_sim _ _ S2) as [S3 | [Z _]].
    - exact (IH _ _ _ S3 E).
    - exfalso. exact (string_chars_zero _ _ _ _ Z E). }
  intros E. destruct (skip_sim _ _ S) as [S1 | [Z _]].
  - exact (IH _ _ _ S1 E).
  - exfalso. exact (string_chars_zero _ _ _ _ Z E).
Qed.

Lemma parse_string_sim (fuel : nat) (str : string) (a a' : Parser RA) (b : Parser RB) :
  same Rel a b -> parse_string fuel a = Ret (str, a') ->
  exists b', parse_string fuel b = Ret (str, b') /\ sim c Rel a' b'.
Proof.
  intros S E. unfold parse_string in *.
  destruct (skip_sim _ _ S) as [S1 | [Z _]].
  - exact (string_chars_sim _ _ _ _ _ _ S1 E).
  - exfalso. exact (string_chars_zero _ _ _ _ Z E).
Qed.

Lemma parse_string_value_sim (fuel : nat) (out v : Value) (h h' : Heap)
    (a a' : Parser RA) (b : Parser RB) :
  same Rel a b -> parse_string_value fuel out a h = Ret (v, a', h') ->
  exists b', parse_string_value fuel out b h = Ret (v, b', h') /\ sim c Rel a' b'.
Proof.
  intros S E. unfold parse_string_value in *.
  inv_bind E. destruct x as [str a1].
  destruct (parse_string_sim _ _ _ _ _ S E0) as (b1 & Eb & S1).
  rewrite Eb. simpl. inv_bind E. destruct x as [v1 h1]. rewrite E1. simpl.
  injection E as <- <- <-. exists b1. split; [reflexivity | exact S1].
Qed.

(** The literals: [skip()], the remaining letters, the assignment. *)
Lemma literal_sim (name : list ascii) (assignment : Heap -> outcome (Value * Heap))
    (v : Value) (h h' : Heap) (a a' : Parser RA) (b : Parser RB) :
  Forall (fun x => x <> zero) name -> name <> [] ->
  same Rel a b ->
  (p <- expect name (skip a) ;; '(out, h1) <- assignment h ;; Ret (out, p, h1)) = Ret (v, a', h') ->
  exists b',
    (p <- expect name (skip b) ;; '(out, h1) <- assignment h ;; Ret (out, p, h1)) = Ret (v, b', h')
    /\ sim c Rel a' b'.
Proof.
  intros N Ne S E. inv_bind E.
  destruct (skip_sim _ _ S) as [S1 | [Z _]].
  - destruct (expect_sim _ _ _ _ N S1 E0) as (b1 & Eb & S2).
    rewrite Eb. simpl. inv_bind E. destruct x0 as [v1 h1]. rewrite E1. simpl.
    injection E as <- <- <-. exists b1. split; [reflexivity | exact S2].
  - exfalso. destruct N as [|d name Hc N]; [congruence|].
    simpl in E0. rewrite Z in E0.
    assert (is_ch zero d = false) as F by (unfold is_ch; apply Ascii.eqb_neq; congruence).
    rewrite F in E0. discriminate.
Qed.

Lemma letters_nonzero (name : string) :
  forallb (fun x => negb (Ascii.eqb x zero)) (list_ascii_of_string name) = true ->
  Forall (fun x => x <> zero) (list_ascii_of_string name).
Proof.
  intros E. apply Forall_forall. intros x Hc. apply list_elem_of_In in Hc.
  rewrite forallb_forall in E. specialize (E x Hc).
  apply negb_true_iff in E. apply Ascii.eqb_neq. exact E.
Qed.

(** [parse] and the two container loops, together, by induction on the
    fuel.  A container that returns has met its closing bracket, so only
    [parse] itself can return a number that was cut short. *)
Lemma parse_sim_all (fuel : nat) :
  (forall (value v : Value) (h h' : Heap) (a a' : Parser RA) (b : Parser RB),
      same Rel a b -> parse fuel value a h = Ret (v, a', h') ->
      (exists b', parse fuel value b h = Ret (v, b', h') /\ sim c Rel a' b')
      \/ (cut_short c a' /\ is_number v = true))
  /\ (forall (out v : Value) (arr : Array) (h h' : Heap) (a a' : Parser RA) (b : Parser RB),
         same Rel a b -> parse_array_loop fuel out arr a h = Ret (v, a', h') ->
         exists b', parse_array_loop fuel out arr b h = Ret (v, b', h') /\ sim c Rel a' b')
  /\ (forall (out v : Value) (obj : Object) (h h' : Heap) (a a' : Parser RA) (b : Parser RB),
         same Rel a b -> parse_object_loop fuel out obj a h = Ret (v, a', h') ->
         exists b', parse_object_loop fuel out obj b h = Ret (v, b', h') /\ sim c Rel a' b').
Proof.
  induction fuel as [|fuel (IHp & IHa & IHo)].
  { repeat split; intros; simpl in *; discriminate. }
  split; [|split].
  - (* parse *)
    intros value v h h' a a' b S. pose proof S as [Hc _]. simpl. rewrite <- Hc.
    case_if.
    { intros E. destruct (skip_sim _ _ S) as [S1 | [Z _]].
      - exact (IHp _ _ _ _ _ _ _ S1 E).
      - exfalso. exact (parse_zero _ _ _ _ _ Z E). }
    case_if.
    { intros E. destruct (parse_digit_sim _ _ _ _ _ _ _ _ S E) as [L | Cut].
      - left. exact L.
      - right. split; [exact Cut | exact (parse_digit_number _ _ _ _ _ _ _ E)]. }
    case_if.
    { intros E. left. revert E.
      apply (literal_sim (list_ascii_of_string "ull") (assign_null fuel value));
        [apply letters_nonzero; reflexivity | discriminate | exact S]. }
    case_if.
    { intros E. left. revert E.
      apply (literal_sim (list_ascii_of_string "rue") (assign_bool fuel value true));
        [apply letters_nonzero; reflexivity | discriminate | exact S]. }
    case_if.
    { intros E. left. revert E.
      apply (literal_sim (list_ascii_of_string "alse") (assign_bool fuel value false));
        [apply letters_nonzero; reflexivity | discriminate | exact S]. }
    case_if. { intros E. left. revert E. apply parse_string_value_sim. exact S. }
    case_if.
    { intros E. left. destruct (skip_sim _ _ S) as [S1 | [Z _]].
      - exact (IHa _ _ _ _ _ _ _ _ S1 E).
      - exfalso. exact (parse_array_loop_zero _ _ _ _ _ _ Z E). }
    case_if; [|discriminate].
    intros E. left. destruct (skip_sim _ _ S) as [S1 | [Z _]].
    + exact (IHo _ _ _ _ _ _ _ _ S1 E).
    + exfalso. exact (parse_object_loop_zero _ _ _ _ _ _ Z E).
  - (* parse_array_loop *)
    intros out v arr h h' a a' b S. pose proof S as [Hc _]. simpl. rewrite <- Hc.
    case_if; [discriminate|].
    intros E. inv_bind E. destruct x as [[elt a1] h1].
    inv_bind E. rename x into a2.
    destruct (IHp _ _ _ _ _ _ _ S E0) as [(b1 & Eb1 & S1) | [[Z _] _]].
    2: { rewrite (skip_spaces_zero _ _ _ Z E1) in E. at_zero Z E. }
    rewrite Eb1. simpl. clear Eb1 E0.
    destruct S1 as [S1 | [Z _]].
    2: { rewrite (skip_spaces_zero _ _ _ Z E1) in E. at_zero Z E. }
    destruct (skip_spaces_sim _ _ _ _ S1 E1) as [(b2 & Eb2 & S2) | Z].
    2: { at_zero Z E. }
    rewrite Eb2. simpl. clear Eb2 E1.
    pose proof S2 as [Hc2 _]. rewrite <- Hc2. revert E.
    case_if.
    { intros E. inv_bind E. destruct x as [v1 h2]. rewrite E0. simpl.
      injection E as <- <- <-. eexists. split; [reflexivity | exact (skip_sim _ _ S2)]. }
    case_if; [discriminate|].
    intros E. destruct (skip_sim _ _ S2) as [S3 | [Z _]].
    + exact (IHa _ _ _ _ _ _ _ _ S3 E).
    + exfalso. exact (parse_array_loop_zero _ _ _ _ _ _ Z E).
  - (* parse_object_loop *)
    intros out v obj h h' a a' b S. pose proof S as [Hc _]. simpl. rewrite <- Hc.
    case_if; [discriminate|].
    intros E. inv_bind E. rename x into a1.
    destruct (skip_spaces_sim _ _ _ _ S E0) as [(b1 & Eb1 & S1) | Z].
    2: { at_zero Z E. }
    rewrite Eb1. simpl. clear Eb1 E0.
    pose proof S1 as [Hc1 _]. rewrite <- Hc1. revert E.
    case_if; [discriminate|].
    intros E. inv_bind E. destruct x as [key a2].
    destruct (parse_string_sim _ _ _ _ _ S1 E0) as (b2 & Eb2 & S2).
    rewrite Eb2. simpl. clear Eb2 E0.
    inv_bind E. rename x into a3.
    destruct S2 as [S2 | [Z _]].
    2: { rewrite (skip_spaces_zero _ _ _ Z E0) in E. at_zero Z E. }
    destruct (skip_spaces_sim _ _ _ _ S2 E0) as [(b3 & Eb3 & S3) | Z].
    2: { at_zero Z E. }
    rewrite Eb3. simpl. clear Eb3 E0.
    pose proof S3 as [Hc3 _]. rewrite <- Hc3. revert E.
    case_if; [discriminate|].
    destruct (subscript key obj) as [slot obj1].
    intros E. inv_bind E. destruct x as [[slot1 a4] h1].
    destruct (skip_sim _ _ S3) as [S4 | [Z _]].
    2: { exfalso. exact (parse_zero _ _ _ _ _ Z E0). }
    inv_bind E. rename x into a5.
    destruct (IHp _ _ _ _ _ _ _ S4 E0) as [(b4 & Eb4 & S5) | [[Z _] _]].
    2: { rewrite (skip_spaces_zero _ _ _ Z E1) in E. at_zero Z E. }
    rewrite Eb4. simpl. clear Eb4 E0.
    destruct S5 as [S5 | [Z _]].
    2: { rewrite (skip_spaces_zero _ _ _ Z E1) in E. at_zero Z E. }
    destruct (skip_spaces_sim _ _ _ _ S5 E1) as [(b5 & Eb5 & S6) | Z].
    2: { at_zero Z E. }
    rewrite Eb5. simpl. clear Eb5 E1.
    pose proof S6 as [Hc6 _]. rewrite <- Hc6. revert E.
    case_if.
    { intros E. inv_bind E. destruct x as [v1 h2]. rewrite E0. simpl.
      injection E as <- <- <-. eexists. split; [reflexivity | exact (skip_sim _ _ S6)]. }
    case_if; [discriminate|].
    intros E. destruct (skip_sim _ _ S6) as [S7 | [Z _]].
    + exact (IHo _ _ _ _ _ _ _ _ S7 E).
    + exfalso. exact (parse_object_loop_zero _ _ _ _ _ _ Z E).
Qed.

(** Related readers give [deserialize] the same result, unless the value
    is a number that ends the text of the first one and [c] continues it. *)
Lemma deserialize_with_sim (fuel : nat) (ra : RA) (rb : RB) (h h' : Heap) (v : Value) :
  Rel ra rb ->
  deserialize_with fuel ra h = Ret (v, h') ->
  deserialize_with fuel rb h = Ret (v, h')
  \/ (continues_number c = true /\ is_number v = true
      /\ lookahead_after fuel ra h = Ret zero).
Proof.
  intros Hr E. unfold deserialize_with, lookahead_after, Parser_new in *.
  inv_bind E. destruct x as [[v1 a1] h1]. injection E as <- <-.
  assert (same Rel (mkParser ra zero) (mkParser rb zero)) as S0 by (split; [reflexivity | exact Hr]).
  destruct (skip_sim _ _ S0) as [S1 | [Z _]].
  - destruct (proj1 (parse_sim_all fuel) _ _ _ _ _ _ _ S1 E0) as [(b1 & Eb & _) | [[Z Cc] N]].
    + left. rewrite Eb. reflexivity.
    + right. split; [exact Cc|]. split.
      * destruct v1 as [ty d]. exact N.
      * rewrite E0. simpl. rewrite Z. reflexivity.
  - exfalso. exact (parse_zero _ _ _ _ _ Z E0).
Qed.

(** With a character that does not continue a number, always the same
    result. *)
Lemma deserialize_with_same (fuel : nat) (ra : RA) (rb : RB) (h h' : Heap) (v : Value) :
  continues_number c = false ->
  Rel ra rb ->
  deserialize_with fuel ra h = Ret (v, h') ->
  deserialize_with fuel rb h = Ret (v, h').
Proof.
  intros Cc Hr E. destruct (deserialize_with_sim _ _ _ _ _ _ Hr E) as [L | (Cc' & _)];
    [exact L | congruence].
Qed.

End Simulation.

(** ** What the readers return *)

Lemma skipn_cons_nth {A : Type} (d : A) (l : list A) (i : nat) :
  (i < length l)%nat -> skipn i l = nth i l d :: skipn (S i) l.
Proof.
  revert i. induction l as [|x l IH]; intros i Hi; simpl in Hi; [lia|].
  destruct i as [|i]; [reflexivity|]. simpl. apply IH. lia.
Qed.

Lemma firstn_exact {A : Type} (l k : list A) : firstn (length l) (l ++ k) = l.
Proof. induction l as [|x l IH]; simpl; [destruct k; reflexivity | rewrite IH; reflexivity]. Qed.

(** One call of [StreamReader::rdch]: it returns the first pending
    character, or the sentinel when none is pending, and the rest stays
    pending. *)
Lemma StreamReader_rdch_pending (r : StreamReader) :
  StreamReader_wf r ->
  fst (rdch r) = hd zero (StreamReader_pending r)
  /\ StreamReader_pending (snd (rdch r)) = tl (StreamReader_pending r)
  /\ StreamReader_wf (snd (rdch r)).
Proof.
  intros (Hb & Hl & Hg). destruct r as [[u g c] idx len buf].
  unfold rdch, StreamReader_Reader, StreamReader_rdch, StreamReader_pending, StreamReader_wf.
  cbn [in_ idx_ len_ buf_ unread good gcount] in *.
  destruct (Nat.ltb_spec (S idx) len) as [Lt|Ge].
  - cbn [fst snd in_ idx_ len_ buf_ unread good gcount].
    rewrite (skipn_cons_nth zero buf (S idx)) by lia.
    replace (len - S idx)%nat with (S (len - S (S idx))) by lia.
    repeat split; auto.
  - replace (len - S idx)%nat with 0%nat by lia. rewrite firstn_O, app_nil_l.
    destruct g.
    + unfold istream_read. cbn [unread good gcount].
      destruct (Nat.leb_spec 256 (length u)) as [Le|Lt];
        cbn [fst snd in_ idx_ len_ buf_ unread good gcount].
      * assert (length (firstn 256 u) = 256%nat) as L1 by (rewrite length_firstn; lia).
        rewrite L1. rewrite (skipn_all2 buf) by lia. rewrite app_nil_r.
        change (Nat.eqb 256 0) with false. cbv iota.
        destruct u as [|x u]; [simpl in Le; lia|].
        simpl in Le. rewrite firstn_cons. unfold buf_at.
        change (nth 0 (x :: firstn 255 u) zero) with x.
        change (skipn 1 (x :: firstn 255 u)) with (firstn 255 u).
        change (skipn 256 (x :: u)) with (skipn 255 u).
        change (256 - 1)%nat with 255%nat.
        rewrite (firstn_all2 (firstn 255 u)) by (rewrite length_firstn; lia).
        rewrite (firstn_skipn 255 u).
        repeat split; auto; try discriminate;
          try (rewrite length_cons, length_firstn; lia).
      * destruct u as [|x u].
        -- change (Nat.eqb (length (@nil ascii)) 0) with true. cbv iota.
           repeat split; auto; simpl; lia.
        -- change (Nat.eqb (length (x :: u)) 0) with false. cbv iota.
           simpl in Lt. unfold buf_at.
           change (nth 0 ((x :: u) ++ skipn (length (x :: u)) buf) zero) with x.
           change (skipn 1 ((x :: u) ++ skipn (length (x :: u)) buf))
             with (u ++ skipn (length (x :: u)) buf).
           change (length (x :: u) - 1)%nat with (length u - 0)%nat.
           rewrite Nat.sub_0_r, firstn_exact, app_nil_r.
           repeat split; auto; try (simpl; lia).
           rewrite length_app, length_skipn. simpl length. lia.
    + cbn [fst snd in_ idx_ len_ buf_ unread good gcount].
      rewrite (Hg eq_refl). repeat split; auto. lia.
Qed.

(** One call of [StringReader::rdch], in the same terms. *)
Lemma StringReader_rdch_pending (s : StringReader) :
  fst (rdch s) = hd zero (StringReader_pending s)
  /\ StringReader_pending (snd (rdch s)) = tl (StringReader_pending s).
Proof.
  unfold rdch, StringReader_Reader, StringReader_rdch, StringReader_pending.
  destruct (Ascii.eqb (peek s) zero) eqn:E0; simpl.
  - rewrite E0. split; reflexivity.
  - destruct s as [|c s]; [discriminate|]. simpl in *.
    destruct s as [|d s]; simpl; [split; reflexivity|].
    destruct (Ascii.eqb_spec d zero) as [->|Hd]; simpl; split; reflexivity.
Qed.

Lemma firstn_app_repeat {A : Type} (z : A) (l : list A) (n m : nat) :
  (n <= m)%nat -> firstn n (l ++ repeat z m) = firstn n (l ++ repeat z n).
Proof.
  revert l m. induction n as [|n IH]; intros l m Le; [reflexivity|].
  destruct l as [|x l]; simpl.
  - destruct m as [|m]; [lia|]. simpl. f_equal.
    exact (IH [] m ltac:(lia)).
  - f_equal. transitivity (firstn n (l ++ repeat z n)).
    + apply IH. lia.
    + symmetry. apply (IH l (S n)). lia.
Qed.

(** A reader that returns its pending characters one by one returns them
    all, in order, and then the sentinel indefinitely. *)
Lemma outputs_pending {R : Type} `{Reader R} (pending : R -> list ascii) (inv : R -> Prop) :
  (forall r, inv r ->
     fst (rdch r) = hd zero (pending r) /\ pending (snd (rdch r)) = tl (pending r)
     /\ inv (snd (rdch r))) ->
  forall n r, inv r -> outputs n r = firstn n (pending r ++ repeat zero n).
Proof.
  intros Step. induction n as [|n IH]; intros r Hr; [reflexivity|].
  destruct (Step r Hr) as (E1 & E2 & Hr'). simpl.
  destruct (rdch r) as [c r']. simpl in *. rewrite (IH r' Hr'), E2, E1.
  destruct (pending r) as [|x l]; simpl.
  - reflexivity.
  - f_equal. symmetry. apply (firstn_app_repeat zero l n (S n)). lia.
Qed.

Lemma StreamReader_new_wf (text : string) : StreamReader_wf (StreamReader_new (istream_of text)).
Proof.
  unfold StreamReader_wf, StreamReader_new, istream_of. cbn [in_ idx_ len_ buf_ unread good].
  split; [apply repeat_length|]. split; [lia | discriminate].
Qed.

Lemma StreamReader_new_pending (text : string) :
  StreamReader_pending (StreamReader_new (istream_of text)) = list_ascii_of_string text.
Proof. reflexivity. Qed.

(** X3.  The stream-backed source returns, for every text and every
    number of calls, the characters of the text in order and then the
    sentinel, also across the refills of its buffer of 256 bytes. *)
Theorem StreamReader_meets_contract (text : string) (n : nat) :
  outputs n (StreamReader_new (istream_of text)) = contract text n.
Proof.
  unfold contract. rewrite <- StreamReader_new_pending.
  apply (outputs_pending StreamReader_pending StreamReader_wf).
  - exact StreamReader_rdch_pending.
  - apply StreamReader_new_wf.
Qed.

(** The string-backed source over a text [c :: text] meets the contract of
    [text]: the first character is never returned. *)
Lemma StringReader_skips_first (c : ascii) (text : string) (n : nat) :
  c <> zero -> c_str text = text ->
  outputs n (String c text : StringReader) = contract text n.
Proof.
  intros Hc Ht. unfold contract.
  rewrite (outputs_pending StringReader_pending (fun _ => True)).
  - unfold StringReader_pending. simpl.
    apply Ascii.eqb_neq in Hc. rewrite Hc, Ht. reflexivity.
  - intros r _. destruct (StringReader_rdch_pending r) as [E1 E2]. auto.
  - exact I.
Qed.

(** ** Readers in lockstep *)


Lemma stream_followed_by_steps (t : list ascii) :
  steps_together (hd zero t) (stream_followed_by t).
Proof.
  intros a b (Wa & Wb & E).
  destruct (StreamReader_rdch_pending a Wa) as (A1 & A2 & A3).
  destruct (StreamReader_rdch_pending b Wb) as (B1 & B2 & B3).
  rewrite A1, B1, E. destruct (StreamReader_pending a) as [|x l] eqn:P; simpl.
  - right. split; reflexivity.
  - left. split; [reflexivity|]. split; [exact A3|]. split; [exact B3|].
    rewrite A2, B2, E. reflexivity.
Qed.

Lemma string_like_stream_steps (c : ascii) : steps_together c string_like_stream.
Proof.
  intros a b (Wb & E).
  destruct (StringReader_rdch_pending a) as (A1 & A2).
  destruct (StreamReader_rdch_pending b Wb) as (B1 & B2 & B3).
  left. rewrite A1, B1, E. split; [reflexivity|]. split; [exact B3|].
  rewrite A2, B2, E. reflexivity.
Qed.

Lemma stream_like_string_steps (c : ascii) :
  steps_together c (fun b a => string_like_stream a b).
Proof.
  intros b a (Wb & E).
  destruct (StringReader_rdch_pending a) as (A1 & A2).
  destruct (StreamReader_rdch_pending b Wb) as (B1 & B2 & B3).
  left. rewrite A1, B1, E. split; [reflexivity|]. split; [exact B3|].
  rewrite A2, B2, E. reflexivity.
Qed.

(** ** Trailing input *)




(** X4.  [deserialize(std::istream&)] ignores what follows the
    text it has read, whenever the first character that follows does not
    continue a number. *)
Theorem deserialize_stream_ignores_what_follows
    (fuel : nat) (s t : string) (h h' : Heap) (v : Value) :
  continues_number (peek t) = false ->
  deserialize_stream fuel (istream_of s) h = Ret (v, h') ->
  deserialize_stream fuel (istream_of (String.append s t)) h = Ret (v, h').
Proof.
  intros Ht E. unfold deserialize_stream in *.
  assert (continues_number (hd zero (list_ascii_of_string t)) = false) as Ht'.
  { destruct t; exact Ht. }
  apply (deserialize_with_same _ _ (stream_followed_by_steps (list_ascii_of_string t))
           fuel (StreamReader_new (istream_of s)) _ _ _ _ Ht'); [|exact E].
  split; [apply StreamReader_new_wf|]. split; [apply StreamReader_new_wf|].
  rewrite !StreamReader_new_pending.
  clear. induction s as [|c s IH]; simpl; [reflexivity | rewrite IH; reflexivity].
Qed.

Lemma deserialize_stream_ignores_what_follows_witness :
  continues_number (peek "]") = false
  /\ deserialize_stream 5 (istream_of "12") empty_heap = Ret (Value_int 12, empty_heap)
  /\ deserialize_stream 5 (istream_of (String.append "12" "]")) empty_heap
     = Ret (Value_int 12, empty_heap).
Proof.
  assert (Ht : continues_number (peek "]") = false) by reflexivity.
  assert (E : deserialize_stream 5 (istream_of "12") empty_heap
              = Ret (Value_int 12, empty_heap)) by (vm_compute; reflexivity).
  split; [exact Ht|]. split; [exact E|].
  exact (deserialize_stream_ignores_what_follows 5 "12" "]" empty_heap empty_heap
           (Value_int 12) Ht E).
Defined.

(** What is left of the contract of the two sources: on a text without the
    byte 0, [deserialize] of a string returns what [deserialize] of a stream
    returns for the text without its first character. *)
Lemma deserialize_string_as_stream_of_tail
    (fuel : nat) (c : ascii) (s : string) (h h' : Heap) (v : Value) :
  c <> zero -> c_str s = s ->
  deserialize fuel (String c s) h = Ret (v, h')
  <-> deserialize_stream fuel (istream_of s) h = Ret (v, h').
Proof.
  intros Hc Hs. unfold deserialize, deserialize_stream.
  assert (string_like_stream (String c s) (StreamReader_new (istream_of s))) as Hr.
  { split; [apply StreamReader_new_wf|]. rewrite StreamReader_new_pending.
    unfold StringReader_pending. simpl. apply Ascii.eqb_neq in Hc. rewrite Hc, Hs. reflexivity. }
  split; intros E.
  - exact (deserialize_with_same _ _ (string_like_stream_steps space) _ _ _ _ _ _
             eq_refl Hr E).
  - exact (deserialize_with_same _ _ (stream_like_string_steps space) _ _ _ _ _ _
             eq_refl Hr E).
Qed.

(** * Further properties *)

(** ** Reference counts *)

Lemma store_store (p : addr) (w1 w2 : Wrapper) (h : Heap) :
  store p w2 (store p w1 h) = store p w2 h.
Proof. unfold store. simpl. rewrite insert_insert_eq. reflexivity. Qed.

Lemma holds_with_uses (v : Value) (p : addr) (w : Wrapper) (n : Z) (h : Heap) :
  holds v p w h -> holds v p (mkWrapper (value w) n) (with_uses p w n h).
Proof.
  intros (D & L & K). unfold holds, with_uses, store. simpl.
  rewrite lookup_insert_eq. auto.
Qed.

Lemma with_uses_same (p : addr) (w : Wrapper) (h : Heap) :
  cells h !! p = Some w -> with_uses p w (uses_ w) h = h.
Proof.
  intros L. unfold with_uses. apply store_same. rewrite L. destruct w; reflexivity.
Qed.

Lemma with_uses_twice (p : addr) (w : Wrapper) (n m : Z) (h : Heap) :
  with_uses p (mkWrapper (value w) n) m (with_uses p w n h) = with_uses p w m h.
Proof. unfold with_uses. simpl. apply store_store. Qed.

(** [n] copies of a Value that holds a box are that Value [n] times,
    and the use count of the box has grown by [n]. *)
Lemma copy_n_counts (n : nat) (v : Value) (p : addr) (w : Wrapper) (h : Heap) :
  holds v p w h ->
  copy_n n v h = Ret (repeat v n, with_uses p w (uses_ w + Z.of_nat n) h).
Proof.
  revert w h. induction n as [|n IH]; intros w h Hv.
  - simpl. rewrite Z.add_0_r, with_uses_same; [reflexivity | apply Hv].
  - cbn [copy_n]. rewrite (Value_copy_shares v p w h Hv). cbn [bind].
    pose proof (holds_with_uses v p w (uses_ w + 1) h Hv) as Hv'.
    unfold with_uses in Hv'. rewrite (IH _ _ Hv'). cbn [bind repeat uses_ value].
    f_equal. f_equal. fold (with_uses p w (uses_ w + 1) h).
    rewrite with_uses_twice. f_equal. lia.
Qed.

(** Destroying [n] Values that share a box whose count is above [n]. *)
Lemma destroy_all_shared (fuel : nat) (n : nat) (v : Value) (p : addr) (w : Wrapper) (h : Heap) :
  holds v p w h -> Z.of_nat n < uses_ w ->
  destroy_all (decref (S fuel)) (repeat v n) h = Ret (with_uses p w (uses_ w - Z.of_nat n) h).
Proof.
  revert w h. induction n as [|n IH]; intros w h Hv U.
  - simpl. rewrite Z.sub_0_r, with_uses_same; [reflexivity | apply Hv].
  - cbn [repeat destroy_all].
    rewrite (decref_shared fuel v p w h Hv) by lia. cbn [bind].
    pose proof (holds_with_uses v p w (uses_ w - 1) h Hv) as Hv'.
    unfold with_uses in Hv'. rewrite (IH _ _ Hv') by (simpl; lia).
    cbn [uses_ value]. fold (with_uses p w (uses_ w - 1) h).
    rewrite with_uses_twice. f_equal. f_equal. lia.
Qed.

(** X5.  The use count follows the number of copies: after [n] copies of a
    Value that holds a live box with a positive count, [n] being small
    enough for the count to stay an [int], the count has grown by [n], and
    destroying the [n] copies gives back the heap there was before the
    first copy: the original and its box are as they were. *)
Theorem copies_counted_and_released
    (fuel n : nat) (v : Value) (p : addr) (w : Wrapper) (h : Heap) :
  holds v p w h -> 0 < uses_ w -> int_range (uses_ w + Z.of_nat n) ->
  exists h',
    copy_n n v h = Ret (repeat v n, h')
    /\ cells h' !! p = Some (mkWrapper (value w) (uses_ w + Z.of_nat n))
    /\ destroy_all (decref (S fuel)) (repeat v n) h' = Ret h.
Proof.
  intros Hv U _. exists (with_uses p w (uses_ w + Z.of_nat n) h).
  split; [apply copy_n_counts; exact Hv|]. split.
  - unfold with_uses, store. simpl. apply lookup_insert_eq.
  - pose proof (holds_with_uses v p w (uses_ w + Z.of_nat n) h Hv) as Hv'.
    unfold with_uses in *. rewrite (destroy_all_shared fuel n v p _ _ Hv') by (simpl; lia).
    cbn [uses_ value]. unfold with_uses. rewrite store_store.
    replace (uses_ w + Z.of_nat n - Z.of_nat n) with (uses_ w) by lia.
    f_equal. cbn [value]. apply store_same.
    destruct Hv as (_ & L & _). rewrite L. destruct w; reflexivity.
Qed.

Lemma copies_counted_and_released_witness :
  holds (mkValue JSON_ARRAY (Ptr 1%positive)) 1%positive (mkWrapper (PArray []) 1)
    (snd (Value_array [] empty_heap))
  /\ 0 < uses_ (mkWrapper (PArray []) 1)
  /\ int_range (uses_ (mkWrapper (PArray []) 1) + Z.of_nat 2)
  /\ exists h',
       copy_n 2 (mkValue JSON_ARRAY (Ptr 1%positive)) (snd (Value_array [] empty_heap))
       = Ret (repeat (mkValue JSON_ARRAY (Ptr 1%positive)) 2, h')
       /\ cells h' !! 1%positive
          = Some (mkWrapper (value (mkWrapper (PArray []) 1))
                    (uses_ (mkWrapper (PArray []) 1) + Z.of_nat 2))
       /\ destroy_all (decref (S 1)) (repeat (mkValue JSON_ARRAY (Ptr 1%positive)) 2) h'
          = Ret (snd (Value_array [] empty_heap)).
Proof.
  assert (Hh : holds (mkValue JSON_ARRAY (Ptr 1%positive)) 1%positive (mkWrapper (PArray []) 1)
                 (snd (Value_array [] empty_heap)))
    by (repeat split; reflexivity).
  assert (Hu : 0 < uses_ (mkWrapper (PArray []) 1)) by (simpl; lia).
  assert (Hr : int_range (uses_ (mkWrapper (PArray []) 1) + Z.of_nat 2))
    by (unfold int_range; simpl; lia).
  split; [exact Hh|]. split; [exact Hu|]. split; [exact Hr|].
  exact (copies_counted_and_released 1 2 _ _ _ _ Hh Hu Hr).
Defined.

Lemma decref_scalar (fuel : nat) (v : Value) (h : Heap) :
  scalar v -> decref (S fuel) v h = Ret h.
Proof. unfold scalar. destruct v as [[] d]; simpl; intros E; try discriminate; reflexivity. Qed.

Lemma incref_scalar (v : Value) (h : Heap) : scalar v -> incref v h = Ret h.
Proof. unfold scalar, incref. destruct v as [[] d]; simpl; intros E; try discriminate; reflexivity. Qed.

Lemma incref_holds (v : Value) (p : addr) (w : Wrapper) (h : Heap) :
  holds v p w h -> incref v h = Ret (with_uses p w (uses_ w + 1) h).
Proof.
  intros Hv. pose proof (Value_copy_shares v p w h Hv) as E.
  unfold Value_copy in E. destruct v as [t d]. simpl in E.
  destruct (incref {| type_ := t; data_ := d |} h); simpl in E; try discriminate.
  injection E as ->. reflexivity.
Qed.

Lemma Value_copy_scalar (v : Value) (h : Heap) : scalar v -> Value_copy v h = Ret (v, h).
Proof.
  intros S. unfold Value_copy. destruct v as [t d]. simpl.
  rewrite (incref_scalar _ h S). reflexivity.
Qed.

(** X6.  Copy assignment between two boxes moves one reference: when [a]
    holds a box it shares with others and [b] holds another box, and both
    counts stay within [int], [a = b] leaves [a] equal to [b], the old box
    with one use less and the new box with one use more; nothing is
    freed. *)
Theorem assign_moves_one_reference
    (fuel : nat) (a b : Value) (p q : addr) (wp wq : Wrapper) (h : Heap) :
  holds a p wp h -> holds b q wq h -> p <> q -> uses_ wp <> 1 ->
  int_range (uses_ wp) -> int_range (uses_ wp - 1) ->
  int_range (uses_ wq) -> int_range (uses_ wq + 1) ->
  assign (S fuel) a b h
  = Ret (b, with_uses q wq (uses_ wq + 1) (with_uses p wp (uses_ wp - 1) h)).
Proof.
  intros Ha Hb Ne U _ _ _ _. unfold assign.
  rewrite (decref_shared fuel a p wp h Ha U). cbn [bind].
  assert (holds b q wq (store p (mkWrapper (value wp) (uses_ wp - 1)) h)) as Hb'.
  { destruct Hb as (D & L & K). unfold holds, store. simpl.
    rewrite lookup_insert_ne by exact Ne. auto. }
  destruct b as [t d]. cbn [type_ data_]. rewrite (incref_holds _ q wq _ Hb'). reflexivity.
Qed.

Lemma assign_moves_one_reference_witness :
  holds (mkValue JSON_ARRAY (Ptr 1%positive)) 1%positive (mkWrapper (PArray []) 2)
    (mkHeap (<[1%positive := mkWrapper (PArray []) 2]>
               (<[2%positive := mkWrapper (PObject []) 1]> ∅)) 3%positive)
  /\ holds (mkValue JSON_OBJECT (Ptr 2%positive)) 2%positive (mkWrapper (PObject []) 1)
       (mkHeap (<[1%positive := mkWrapper (PArray []) 2]>
                  (<[2%positive := mkWrapper (PObject []) 1]> ∅)) 3%positive)
  /\ 1%positive <> 2%positive
  /\ uses_ (mkWrapper (PArray []) 2) <> 1
  /\ int_range (uses_ (mkWrapper (PArray []) 2))
  /\ int_range (uses_ (mkWrapper (PArray []) 2) - 1)
  /\ int_range (uses_ (mkWrapper (PObject []) 1))
  /\ int_range (uses_ (mkWrapper (PObject []) 1) + 1)
  /\ assign (S 1) (mkValue JSON_ARRAY (Ptr 1%positive)) (mkValue JSON_OBJECT (Ptr 2%positive))
       (mkHeap (<[1%positive := mkWrapper (PArray []) 2]>
                  (<[2%positive := mkWrapper (PObject []) 1]> ∅)) 3%positive)
     = Ret (mkValue JSON_OBJECT (Ptr 2%positive),
            with_uses 2%positive (mkWrapper (PObject []) 1)
              (uses_ (mkWrapper (PObject []) 1) + 1)
              (with_uses 1%positive (mkWrapper (PArray []) 2)
                 (uses_ (mkWrapper (PArray []) 2) - 1)
                 (mkHeap (<[1%positive := mkWrapper (PArray []) 2]>
                            (<[2%positive := mkWrapper (PObject []) 1]> ∅)) 3%positive))).
Proof.
  assert (Ha : holds (mkValue JSON_ARRAY (Ptr 1%positive)) 1%positive (mkWrapper (PArray []) 2)
                 (mkHeap (<[1%positive := mkWrapper (PArray []) 2]>
                            (<[2%positive := mkWrapper (PObject []) 1]> ∅)) 3%positive))
    by (repeat split; reflexivity).
  assert (Hb : holds (mkValue JSON_OBJECT (Ptr 2%positive)) 2%positive
                 (mkWrapper (PObject []) 1)
                 (mkHeap (<[1%positive := mkWrapper (PArray []) 2]>
                            (<[2%positive := mkWrapper (PObject []) 1]> ∅)) 3%positive))
    by (repeat split; reflexivity).
  assert (Ne : 1%positive <> 2%positive) by discriminate.
  assert (Hu : uses_ (mkWrapper (PArray []) 2) <> 1) by (simpl; lia).
  assert (R1 : int_range (uses_ (mkWrapper (PArray []) 2))) by (unfold int_range; simpl; lia).
  assert (R2 : int_range (uses_ (mkWrapper (PArray []) 2) - 1))
    by (unfold int_range; simpl; lia).
  assert (R3 : int_range (uses_ (mkWrapper (PObject []) 1))) by (unfold int_range; simpl; lia).
  assert (R4 : int_range (uses_ (mkWrapper (PObject []) 1) + 1))
    by (unfold int_range; simpl; lia).
  split; [exact Ha|]. split; [exact Hb|]. split; [exact Ne|]. split; [exact Hu|].
  split; [exact R1|]. split; [exact R2|]. split; [exact R3|]. split; [exact R4|].
  exact (assign_moves_one_reference 1 _ _ _ _ _ _ _ Ha Hb Ne Hu R1 R2 R3 R4).
Defined.

(** X7.  Move assignment to a Value that holds no box.  From another
    object it transfers the operand without touching any use count, and
    the moved-from operand, now Null, is destroyed without effect.  From
    the Value itself, [v = std::move(v)], it leaves the Value Null. *)
Theorem move_assign_transfers (fuel : nat) (this value : Value) (h : Heap) :
  scalar this ->
  (exists src,
     move_assign (S fuel) this (Other value) h = Ret (value, src, h)
     /\ type_ src = JSON_NULL
     /\ Value_destroy (S fuel) src h = Ret h)
  /\ (exists null,
        move_assign (S fuel) this This h = Ret (null, null, h)
        /\ type_ null = JSON_NULL).
Proof.
  intros Sc. split.
  - exists (mkValue JSON_NULL (data_ value)).
    unfold move_assign. rewrite (decref_scalar _ _ h Sc). cbn [bind read].
    destruct value as [ty d]. repeat split.
  - exists (mkValue JSON_NULL (data_ this)).
    unfold move_assign. rewrite (decref_scalar _ _ h Sc). cbn [bind read].
    split; reflexivity.
Qed.

Lemma move_assign_transfers_witness :
  scalar (Value_int 3)
  /\ (exists src,
        move_assign (S 0) (Value_int 3) (Other (fst (Value_string "s" empty_heap)))
          (snd (Value_string "s" empty_heap))
        = Ret (fst (Value_string "s" empty_heap), src, snd (Value_string "s" empty_heap))
        /\ type_ src = JSON_NULL
        /\ Value_destroy (S 0) src (snd (Value_string "s" empty_heap))
           = Ret (snd (Value_string "s" empty_heap)))
  /\ (exists null,
        move_assign (S 0) (Value_int 3) This (snd (Value_string "s" empty_heap))
        = Ret (null, null, snd (Value_string "s" empty_heap))
        /\ type_ null = JSON_NULL).
Proof.
  assert (Sc : scalar (Value_int 3)) by reflexivity.
  split; [exact Sc|].
  exact (move_assign_transfers 0 (Value_int 3) (fst (Value_string "s" empty_heap))
           (snd (Value_string "s" empty_heap)) Sc).
Defined.

(** ** Arrays: [insert] and the indexed accessors *)

Lemma insert_array_scalar (a x : Value) (p : addr) (arr : Array) (n : Z) (h : Heap) :
  type_ a = JSON_ARRAY -> data_ a = Ptr p ->
  cells h !! p = Some (mkWrapper (PArray arr) n) -> scalar x ->
  insert a x h = Ret (a, store p (mkWrapper (PArray (arr ++ [x])) n) h).
Proof.
  intros T D L Sx. destruct a as [t d]. simpl in *. subst t d.
  unfold insert, insert_from, emplace_back, ptr_of. simpl.
  rewrite (deref_live KArray p h _ L eq_refl). cbn [bind].
  rewrite (Value_copy_scalar x h Sx). cbn [bind].
  rewrite (deref_live KArray p h _ L eq_refl). reflexivity.
Qed.


Lemma insert_all_array (xs : list Value) (a : Value) (p : addr) (arr : Array) (n : Z) (h : Heap) :
  type_ a = JSON_ARRAY -> data_ a = Ptr p ->
  cells h !! p = Some (mkWrapper (PArray arr) n) -> Forall scalar xs ->
  insert_all xs a h = Ret (a, store p (mkWrapper (PArray (arr ++ xs)) n) h).
Proof.
  intros T D. revert arr h. induction xs as [|x xs IH]; intros arr h L Sx.
  - simpl. rewrite app_nil_r, (store_same p _ h L). reflexivity.
  - inversion Sx as [|? ? Hx Hxs]; subst. cbn [insert_all].
    rewrite (insert_array_scalar a x p arr n h T D L Hx). cbn [bind].
    rewrite (IH (arr ++ [x]) _); [|unfold store; simpl; apply lookup_insert_eq | exact Hxs].
    rewrite store_store, <- app_assoc. reflexivity.
Qed.

(** X8.  Inserting the scalars held by other objects one after the other
    into a Null Value promotes it to an Array in a fresh box with use count
    1 whose elements are the inserted Values in order: [at] returns the
    element at every position below the length and throws
    [IndexOutOfRange] from the length on, and [has] tells the two cases
    apart.  (For the Value inserted into itself see X18.) *)
Theorem insert_all_then_at (x : Value) (xs : list Value) (this : Value) (h : Heap) :
  type_ this = JSON_NULL -> Forall scalar (x :: xs) ->
  exists a h',
    insert_all (x :: xs) this h = Ret (a, h')
    /\ holds a (next h) (mkWrapper (PArray (x :: xs)) 1) h'
    /\ get_array a h' = Ret (x :: xs)
    /\ (forall i, at_index a i h' = element_or_out_of_range (nth_error (x :: xs) i))
    /\ (forall i, has_index a i h' = Ret (Nat.ltb i (length (x :: xs)))).
Proof.
  intros T Sx. inversion Sx as [|? ? Hx Hxs]; subst.
  destruct this as [t d]. simpl in T. subst t.
  set (p := next h).
  set (h0 := mkHeap (<[p := mkWrapper (PArray []) 1]> (cells h)) (Pos.succ p)).
  assert (cells h0 !! p = Some (mkWrapper (PArray []) 1)) as L0 by apply lookup_insert_eq.
  exists (mkValue JSON_ARRAY (Ptr p)), (store p (mkWrapper (PArray (x :: xs)) 1) h0).
  assert (cells (store p (mkWrapper (PArray (x :: xs)) 1) h0) !! p
          = Some (mkWrapper (PArray (x :: xs)) 1)) as L1 by apply lookup_insert_eq.
  split; [|split; [|split; [|split]]].
  - cbn [insert_all]. unfold insert, insert_from. simpl. fold p. fold h0.
    unfold emplace_back. rewrite (deref_live KArray p h0 _ L0 eq_refl). cbn [bind].
    rewrite (Value_copy_scalar x h0 Hx). cbn [bind].
    rewrite (deref_live KArray p h0 _ L0 eq_refl). cbn [value uses_ app bind].
    rewrite (insert_all_array xs (mkValue JSON_ARRAY (Ptr p)) p [x] 1 _ eq_refl eq_refl);
      [|apply lookup_insert_eq | exact Hxs].
    rewrite store_store. reflexivity.
  - unfold holds. simpl. rewrite lookup_insert_eq. auto.
  - unfold get_array, ptr_of. simpl. rewrite (deref_live KArray p _ _ L1 eq_refl). reflexivity.
  - intros i. unfold at_index, ptr_of. simpl.
    rewrite (deref_live KArray p _ _ L1 eq_refl). cbn [bind value].
    destruct (nth_error (x :: xs) i); reflexivity.
  - intros i. unfold has_index, ptr_of. simpl.
    rewrite (deref_live KArray p _ _ L1 eq_refl). reflexivity.
Qed.

Lemma insert_all_then_at_witness :
  type_ Value_null = JSON_NULL
  /\ Forall scalar [Value_int 1; Value_bool true]
  /\ exists a h',
       insert_all [Value_int 1; Value_bool true] Value_null empty_heap = Ret (a, h')
       /\ holds a (next empty_heap) (mkWrapper (PArray [Value_int 1; Value_bool true]) 1) h'
       /\ get_array a h' = Ret [Value_int 1; Value_bool true]
       /\ (forall i, at_index a i h'
                     = element_or_out_of_range
                         (nth_error [Value_int 1; Value_bool true] i))
       /\ (forall i, has_index a i h'
                     = Ret (Nat.ltb i (length [Value_int 1; Value_bool true]))).
Proof.
  assert (Ht : type_ Value_null = JSON_NULL) by reflexivity.
  assert (Hs : Forall scalar [Value_int 1; Value_bool true])
    by (repeat constructor).
  split; [exact Ht|]. split; [exact Hs|].
  exact (insert_all_then_at (Value_int 1) [Value_bool true] Value_null empty_heap Ht Hs).
Defined.

(** X9.  A Value inserted into its own array makes a cycle: the element
    is a copy that shares the box, so the count is 2 with one owner outside,
    and destroying that owner leaves the box live with count 1. *)
Theorem self_insertion_keeps_box_alive
    (fuel : nat) (a : Value) (p : addr) (arr : Array) (h : Heap) :
  type_ a = JSON_ARRAY -> data_ a = Ptr p ->
  cells h !! p = Some (mkWrapper (PArray arr) 1) ->
  exists h1 h2,
    insert a a h = Ret (a, h1)
    /\ cells h1 !! p = Some (mkWrapper (PArray (arr ++ [a])) 2)
    /\ Value_destroy (S fuel) a h1 = Ret h2
    /\ cells h2 !! p = Some (mkWrapper (PArray (arr ++ [a])) 1).
Proof.
  intros T D L. destruct a as [t d]. simpl in *. subst t d.
  set (a := mkValue JSON_ARRAY (Ptr p)).
  assert (holds a p (mkWrapper (PArray arr) 1) h) as Ha by (unfold holds; simpl; auto).
  set (h1 := store p (mkWrapper (PArray (arr ++ [a])) 2) h).
  assert (holds a p (mkWrapper (PArray (arr ++ [a])) 2) h1) as Ha1.
  { unfold holds, h1, store. simpl. rewrite lookup_insert_eq. auto. }
  exists h1, (store p (mkWrapper (PArray (arr ++ [a])) 1) h1).
  split; [|split; [|split]].
  - unfold insert, insert_from, emplace_back, ptr_of. simpl.
    rewrite (deref_live KArray p h _ L eq_refl). cbn [bind].
    rewrite (Value_copy_shares a p _ h Ha). cbn [bind value uses_].
    unfold deref, store. simpl. rewrite lookup_insert_eq. simpl.
    unfold h1, store. simpl. rewrite insert_insert_eq. reflexivity.
  - apply Ha1.
  - assert (uses_ (mkWrapper (PArray (arr ++ [a])) 2) <> 1) as U by (simpl; lia).
    exact (decref_shared fuel a p _ h1 Ha1 U).
  - unfold store. simpl. apply lookup_insert_eq.
Qed.

Lemma self_insertion_keeps_box_alive_witness :
  type_ (mkValue JSON_ARRAY (Ptr 1%positive)) = JSON_ARRAY
  /\ data_ (mkValue JSON_ARRAY (Ptr 1%positive)) = Ptr 1%positive
  /\ cells (snd (Value_array [] empty_heap)) !! 1%positive = Some (mkWrapper (PArray []) 1)
  /\ exists h1 h2,
       insert (mkValue JSON_ARRAY (Ptr 1%positive)) (mkValue JSON_ARRAY (Ptr 1%positive))
         (snd (Value_array [] empty_heap))
       = Ret (mkValue JSON_ARRAY (Ptr 1%positive), h1)
       /\ cells h1 !! 1%positive
          = Some (mkWrapper (PArray ([] ++ [mkValue JSON_ARRAY (Ptr 1%positive)])) 2)
       /\ Value_destroy (S 1) (mkValue JSON_ARRAY (Ptr 1%positive)) h1 = Ret h2
       /\ cells h2 !! 1%positive
          = Some (mkWrapper (PArray ([] ++ [mkValue JSON_ARRAY (Ptr 1%positive)])) 1).
Proof.
  assert (Ht : type_ (mkValue JSON_ARRAY (Ptr 1%positive)) = JSON_ARRAY) by reflexivity.
  assert (Hd : data_ (mkValue JSON_ARRAY (Ptr 1%positive)) = Ptr 1%positive) by reflexivity.
  assert (Hc : cells (snd (Value_array [] empty_heap)) !! 1%positive
               = Some (mkWrapper (PArray []) 1)) by reflexivity.
  split; [exact Ht|]. split; [exact Hd|]. split; [exact Hc|].
  exact (self_insertion_keeps_box_alive 1 _ _ _ _ Ht Hd Hc).
Defined.

(** On a target that is an Array already, [a.insert(a)] reads the Value
    that another object with the same content would give. *)
Lemma insert_from_this_array (this : Value) (h : Heap) :
  is_array this = true -> insert_from this This h = insert this this h.
Proof. intros A. unfold insert, insert_from. rewrite A. reflexivity. Qed.

(** X18.  A Null Value inserted into itself, [v.insert(v)]: the Value is
    made an Array before the operand is read, so the element is a copy of
    the new Array itself.  The box has use count 2 with a single owner
    outside, and destroying that owner leaves the box allocated with
    count 1. *)
Theorem self_insertion_into_null_makes_cycle (fuel : nat) (this : Value) (h : Heap) :
  type_ this = JSON_NULL ->
  exists a h1 h2,
    insert_from this This h = Ret (a, h1)
    /\ holds a (next h) (mkWrapper (PArray [a]) 2) h1
    /\ Value_destroy (S fuel) a h1 = Ret h2
    /\ cells h2 !! next h = Some (mkWrapper (PArray [a]) 1).
Proof.
  intros T. destruct this as [t d]. simpl in T. subst t.
  exists (mkValue JSON_ARRAY (Ptr (next h))).
  unfold insert_from, emplace_back, Value_copy, incref, Wrapper_incref, ptr_of, deref,
    new_wrapper, store. simpl. rewrite !lookup_insert_eq. simpl.
  rewrite !lookup_insert_eq. simpl.
  eexists. eexists. split; [reflexivity|]. split.
  - unfold holds. simpl. rewrite lookup_insert_eq. auto.
  - unfold Value_destroy. simpl. unfold Wrapper_decref, ptr_of, deref, store. simpl.
    rewrite !lookup_insert_eq. simpl. split; [reflexivity|].
    simpl. rewrite lookup_insert_eq. reflexivity.
Qed.

Lemma self_insertion_into_null_makes_cycle_witness :
  type_ Value_null = JSON_NULL
  /\ exists a h1 h2,
       insert_from Value_null This empty_heap = Ret (a, h1)
       /\ holds a (next empty_heap) (mkWrapper (PArray [a]) 2) h1
       /\ Value_destroy (S 0) a h1 = Ret h2
       /\ cells h2 !! next empty_heap = Some (mkWrapper (PArray [a]) 1).
Proof.
  assert (T : type_ Value_null = JSON_NULL) by reflexivity.
  split; [exact T|].
  exact (self_insertion_into_null_makes_cycle 0 Value_null empty_heap T).
Defined.

(** ** Objects: [insert] and the keyed accessors *)

Lemma find_app (key : string) (o o' : Object) :
  find key (o ++ o') = match find key o with Some v => Some v | None => find key o' end.
Proof.
  induction o as [|[k v] o IH]; simpl; [reflexivity|].
  destruct (String.eqb k key); [reflexivity | exact IH].
Qed.

Lemma find_set_slot_eq (key : string) (v : Value) (o : Object) :
  find key o <> None -> find key (set_slot key v o) = Some v.
Proof.
  induction o as [|[k v0] o IH]; simpl; [congruence|].
  destruct (String.eqb k key) eqn:E; simpl; rewrite E; [reflexivity | exact IH].
Qed.

Lemma find_set_slot_ne (key key' : string) (v : Value) (o : Object) :
  key' <> key -> find key' (set_slot key v o) = find key' o.
Proof.
  intros Ne. induction o as [|[k v0] o IH]; simpl; [reflexivity|].
  destruct (String.eqb k key) eqn:E; simpl.
  - apply String.eqb_eq in E. subst k.
    destruct (String.eqb key key') eqn:E'; [apply String.eqb_eq in E'; congruence | reflexivity].
  - destruct (String.eqb k key'); [reflexivity | exact IH].
Qed.

Lemma find_upsert_eq (key : string) (v : Value) (o : Object) :
  find key (upsert key v o) = Some v.
Proof.
  unfold upsert, subscript. destruct (find key o) eqn:F; simpl.
  - apply find_set_slot_eq. congruence.
  - apply find_set_slot_eq. rewrite find_app, F. simpl. rewrite String.eqb_refl. discriminate.
Qed.

Lemma find_upsert_ne (key key' : string) (v : Value) (o : Object) :
  key' <> key -> find key' (upsert key v o) = find key' o.
Proof.
  intros Ne. unfold upsert, subscript. rewrite (find_set_slot_ne key key' v _ Ne).
  destruct (find key o) eqn:F; simpl; [reflexivity|].
  rewrite find_app. destruct (find key' o); [reflexivity|]. simpl.
  destruct (String.eqb key key') eqn:E; [apply String.eqb_eq in E; congruence | reflexivity].
Qed.

Lemma upsert_members_scalar (key : string) (v : Value) (obj : Object) :
  scalar v -> members_scalar obj -> members_scalar (upsert key v obj).
Proof.
  intros Sv So k v0. destruct (String.eqb_spec k key) as [->|Ne].
  - rewrite find_upsert_eq. intros E. injection E as <-. exact Sv.
  - rewrite (find_upsert_ne key k v obj Ne). apply So.
Qed.

Lemma put_scalar (fuel : nat) (p : addr) (key : string) (val : Value) (obj : Object) (n : Z)
    (h : Heap) :
  cells h !! p = Some (mkWrapper (PObject obj) n) -> scalar val -> members_scalar obj ->
  put (S fuel) p key val h = Ret (store p (mkWrapper (PObject (upsert key val obj)) n) h).
Proof.
  intros L Sv So. unfold put, upsert.
  rewrite (deref_live KObject p h _ L eq_refl). cbn [bind value uses_].
  assert (scalar (fst (subscript key obj))) as Ss.
  { unfold subscript. destruct (find key obj) eqn:F; simpl; [exact (So _ _ F) | reflexivity]. }
  destruct (subscript key obj) as [slot obj']. cbn [fst snd] in *.
  unfold assign. rewrite (decref_scalar fuel slot _ Ss). cbn [bind].
  destruct val as [t d]. cbn [type_ data_]. rewrite (incref_scalar _ _ Sv). cbn [bind].
  unfold deref, store. simpl. rewrite lookup_insert_eq. simpl.
  rewrite insert_insert_eq. reflexivity.
Qed.

Lemma insert_key_all_object (fuel : nat) (kvs : list (string * Value)) (o : Value) (p : addr)
    (obj : Object) (n : Z) (h : Heap) :
  type_ o = JSON_OBJECT -> data_ o = Ptr p ->
  cells h !! p = Some (mkWrapper (PObject obj) n) ->
  Forall (fun kv => scalar (snd kv)) kvs -> members_scalar obj ->
  exists obj',
    insert_key_all (S fuel) kvs o h = Ret (o, store p (mkWrapper (PObject obj') n) h)
    /\ forall key, find key obj'
                   = match last_binding key kvs with Some v => Some v | None => find key obj end.
Proof.
  intros T D. revert obj h. induction kvs as [|[k v] kvs IH]; intros obj h L Sk So.
  - exists obj. split; [|reflexivity]. simpl. rewrite (store_same p _ h L). reflexivity.
  - inversion Sk as [|? ? Hv Hkvs]; subst. simpl in Hv.
    destruct (IH (upsert k v obj) (store p (mkWrapper (PObject (upsert k v obj)) n) h))
      as (obj' & E & F);
      [unfold store; simpl; apply lookup_insert_eq | exact Hkvs
      | apply upsert_members_scalar; assumption |].
    exists obj'. split.
    + cbn [insert_key_all]. unfold insert_key, insert_key_from.
      destruct o as [t d]. simpl in T, D. subst t d. simpl.
      rewrite (put_scalar fuel p k v obj n h L Hv So). cbn [bind].
      rewrite E, store_store. reflexivity.
    + intros key. rewrite F. simpl. destruct (last_binding key kvs); [reflexivity|].
      destruct (String.eqb_spec k key) as [->|Ne].
      * apply find_upsert_eq.
      * apply find_upsert_ne. congruence.
Qed.

(** X10.  Inserting pairs of a key and a scalar held by another object
    one after the other into a Null Value promotes it to an Object in
    which the last pair of a key wins: the read-only [at] returns, for
    every key, the value of the last pair with that key and throws
    [KeyNotExists] for a key that was never inserted, and [has] tells the
    two cases apart.  (For the Value inserted into itself see X19.) *)
Theorem insert_key_all_then_at
    (fuel : nat) (k : string) (v : Value) (kvs : list (string * Value)) (this : Value) (h : Heap) :
  type_ this = JSON_NULL -> Forall (fun kv => scalar (snd kv)) ((k, v) :: kvs) ->
  exists o h',
    insert_key_all (S fuel) ((k, v) :: kvs) this h = Ret (o, h')
    /\ type_ o = JSON_OBJECT
    /\ (forall key,
          at_key_const o key h' = member_or_not_exists key (last_binding key ((k, v) :: kvs)))
    /\ (forall key,
          has_key o key h'
          = Ret (match last_binding key ((k, v) :: kvs) with Some _ => true | None => false end)).
Proof.
  intros T Sk. destruct this as [t d]. simpl in T. subst t.
  set (p := next h).
  set (h0 := mkHeap (<[p := mkWrapper (PObject []) 1]> (cells h)) (Pos.succ p)).
  assert (cells h0 !! p = Some (mkWrapper (PObject []) 1)) as L0 by apply lookup_insert_eq.
  destruct (insert_key_all_object fuel ((k, v) :: kvs) (mkValue JSON_OBJECT (Ptr p)) p [] 1 h0
              eq_refl eq_refl L0 Sk) as (obj' & E & F); [discriminate|].
  exists (mkValue JSON_OBJECT (Ptr p)), (store p (mkWrapper (PObject obj') 1) h0).
  assert (deref KObject p (store p (mkWrapper (PObject obj') 1) h0)
          = Ret (mkWrapper (PObject obj') 1)) as Dp.
  { apply deref_live; [apply lookup_insert_eq | reflexivity]. }
  split; [|split; [reflexivity | split]].
  - rewrite <- E. cbn [insert_key_all]. unfold insert_key, insert_key_from. simpl. reflexivity.
  - intros key. specialize (F key).
    destruct (last_binding key ((k, v) :: kvs)) as [v1|];
      unfold at_key_const, ptr_of, is_object; cbn [type_ data_ Type_eqb bind];
      rewrite Dp; cbn [bind value]; rewrite F; reflexivity.
  - intros key. specialize (F key).
    destruct (last_binding key ((k, v) :: kvs)) as [v1|];
      unfold has_key, ptr_of, is_object; cbn [type_ data_ Type_eqb bind];
      rewrite Dp; cbn [bind value]; rewrite F; reflexivity.
Qed.

Lemma insert_key_all_then_at_witness :
  type_ Value_null = JSON_NULL
  /\ Forall (fun kv : string * Value => scalar (snd kv))
       [("a", Value_int 1); ("b", Value_null); ("a", Value_int 2)]
  /\ exists o h',
       insert_key_all (S 1) [("a", Value_int 1); ("b", Value_null); ("a", Value_int 2)]
         Value_null empty_heap = Ret (o, h')
       /\ type_ o = JSON_OBJECT
       /\ (forall key,
             at_key_const o key h'
             = member_or_not_exists key
                 (last_binding key [("a", Value_int 1); ("b", Value_null); ("a", Value_int 2)]))
       /\ (forall key,
             has_key o key h'
             = Ret (match last_binding key
                            [("a", Value_int 1); ("b", Value_null); ("a", Value_int 2)] with
                    | Some _ => true
                    | None => false
                    end)).
Proof.
  assert (Ht : type_ Value_null = JSON_NULL) by reflexivity.
  assert (Hs : Forall (fun kv : string * Value => scalar (snd kv))
                 [("a", Value_int 1); ("b", Value_null); ("a", Value_int 2)])
    by (repeat constructor).
  split; [exact Ht|]. split; [exact Hs|].
  exact (insert_key_all_then_at 1 "a" (Value_int 1) [("b", Value_null); ("a", Value_int 2)]
           Value_null empty_heap Ht Hs).
Defined.

(** X19.  A Null Value inserted into itself under a key,
    [v.insert(key, v)]: the Value is made an Object before the operand is
    read, so the member is a copy of the new Object itself, and the box
    has use count 2 with a single owner outside. *)
Theorem self_insertion_under_key_into_null_makes_cycle
    (fuel : nat) (this : Value) (key : string) (h : Heap) :
  type_ this = JSON_NULL ->
  exists o h1,
    insert_key_from (S fuel) this key This h = Ret (o, h1)
    /\ holds o (next h) (mkWrapper (PObject [(key, o)]) 2) h1
    /\ at_key_const o key h1 = Ret o.
Proof.
  intros T. destruct this as [t d]. simpl in T. subst t.
  exists (mkValue JSON_OBJECT (Ptr (next h))).
  unfold insert_key_from, put, assign, incref, Wrapper_incref, ptr_of, deref,
    new_wrapper, store, subscript. simpl. rewrite !lookup_insert_eq. simpl.
  rewrite !lookup_insert_eq. simpl. rewrite !lookup_insert_eq. simpl.
  rewrite String.eqb_refl.
  eexists. split; [reflexivity|]. split.
  - unfold holds. simpl. rewrite lookup_insert_eq. auto.
  - unfold at_key_const, ptr_of, deref. simpl. rewrite lookup_insert_eq. simpl.
    rewrite String.eqb_refl. reflexivity.
Qed.

Lemma self_insertion_under_key_into_null_makes_cycle_witness :
  type_ Value_null = JSON_NULL
  /\ exists o h1,
       insert_key_from (S 0) Value_null "k" This empty_heap = Ret (o, h1)
       /\ holds o (next empty_heap) (mkWrapper (PObject [("k", o)]) 2) h1
       /\ at_key_const o "k" h1 = Ret o.
Proof.
  assert (T : type_ Value_null = JSON_NULL) by reflexivity.
  split; [exact T|].
  exact (self_insertion_under_key_into_null_makes_cycle 0 Value_null "k" empty_heap T).
Defined.

(** ** The parser in front of a known text *)

Lemma chars_append (s t : string) : chars (String.append s t) = chars s ++ chars t.
Proof.
  unfold chars. induction s as [|c s IH]; [reflexivity|].
  change (String.append (String c s) t) with (String c (String.append s t)).
  simpl. rewrite IH. reflexivity.
Qed.

Lemma append_assoc (s t u : string) :
  String.append (String.append s t) u = String.append s (String.append t u).
Proof.
  induction s as [|c s IH]; [reflexivity|].
  change (String.append (String c s) t) with (String c (String.append s t)).
  change (String.append (String c (String.append s t)) u)
    with (String c (String.append (String.append s t) u)).
  rewrite IH. reflexivity.
Qed.

Lemma append_empty_r (s : string) : String.append s EmptyString = s.
Proof.
  induction s as [|c s IH]; [reflexivity|].
  change (String.append (String c s) EmptyString) with (String c (String.append s EmptyString)).
  rewrite IH. reflexivity.
Qed.

Lemma parse_space_test (c : ascii) :
  (is_ch c space || is_ch c char_t || is_ch c char_r || is_ch c char_v || is_ch c char_f
   || is_ch c char_n) = isspace c.
Proof. destruct c as [[] [] [] [] [] [] [] []]; reflexivity. Qed.

(** ** Decimal digits *)

Lemma wrap64_small (z : Z) : - 2^63 <= z < 2^63 -> wrap64 z = z.
Proof. intros B. unfold wrap64. rewrite Z.mod_small; lia. Qed.

Lemma of_uint_acc_value (d : Decimal.uint) (acc : positive) :
  Z.pos (Pos.of_uint_acc d acc) = digits_value d (Z.pos acc).
Proof.
  revert acc. induction d; intros acc; simpl; rewrite ?IHd; try reflexivity; f_equal; lia.
Qed.

Lemma of_uint_value (d : Decimal.uint) : Z.of_N (Pos.of_uint d) = digits_value d 0.
Proof.
  induction d; simpl; try reflexivity; try exact IHd; apply of_uint_acc_value.
Qed.

Lemma digits_value_to_uint (q : positive) : digits_value (Pos.to_uint q) 0 = Z.pos q.
Proof. rewrite <- of_uint_value, DecimalPos.Unsigned.of_to. reflexivity. Qed.

Lemma digits_value_grows (d : Decimal.uint) (acc : Z) : 0 <= acc -> acc <= digits_value d acc.
Proof.
  revert acc. induction d; intros acc A; simpl; try lia;
    match goal with
    | |- _ <= digits_value _ ?e => specialize (IHd e ltac:(lia)); lia
    end.
Qed.

Lemma first_digit (d : Decimal.uint) (rest : list ascii) :
  d <> Decimal.Nil ->
  isdigit (hd zero (chars (NilEmpty.string_of_uint d) ++ rest)) = true
  /\ is_ch (hd zero (chars (NilEmpty.string_of_uint d) ++ rest)) "-" = false
  /\ isspace (hd zero (chars (NilEmpty.string_of_uint d) ++ rest)) = false.
Proof. destruct d; intros N; try congruence; repeat split; reflexivity. Qed.

(** What [out << val] writes for an [Int]: decimal digits, behind a minus
    sign for a negative number. *)
Lemma serialize_int_digits (i : Int) :
  exists d, d <> Decimal.Nil
            /\ digits_value d 0 = Z.abs i
            /\ serialize_int i
               = if i <? 0 then String "-" (NilEmpty.string_of_uint d)
                 else NilEmpty.string_of_uint d.
Proof.
  destruct i as [|q|q].
  - exists (Decimal.D0 Decimal.Nil). repeat split. discriminate.
  - exists (Pos.to_uint q). split; [apply Unsigned.to_uint_nonnil|].
    split; [apply digits_value_to_uint|].
    unfold serialize_int. simpl. unfold NilZero.string_of_uint.
    pose proof (Unsigned.to_uint_nonnil q) as N.
    destruct (Pos.to_uint q); [congruence | reflexivity ..].
  - exists (Pos.to_uint q). split; [apply Unsigned.to_uint_nonnil|].
    split; [apply digits_value_to_uint|].
    unfold serialize_int. simpl. unfold NilZero.string_of_uint.
    pose proof (Unsigned.to_uint_nonnil q) as N.
    destruct (Pos.to_uint q); [congruence | reflexivity ..].
Qed.

(** Evaluating the tests the parser makes on a known character. *)
Ltac eval_tests :=
  repeat match goal with
    | |- context [is_ch ?a ?b] =>
        let v := eval vm_compute in (is_ch a b) in
        match v with true => idtac | false => idtac end;
        change (is_ch a b) with v
    | |- context [isdigit ?a] =>
        let v := eval vm_compute in (isdigit a) in
        match v with true => idtac | false => idtac end;
        change (isdigit a) with v
    | |- context [isspace ?a] =>
        let v := eval vm_compute in (isspace a) in
        match v with true => idtac | false => idtac end;
        change (isspace a) with v
    end;
  cbv beta iota delta [negb orb andb].

Ltac eval_codes :=
  repeat match goal with
    | |- context [code ?a] =>
        let v := eval vm_compute in (code a) in
        match v with Z0 => idtac | Zpos _ => idtac end;
        change (code a) with v
    end.

Section KnownText.

Context {R : Type} `{Reader R}.
Variable pending : R -> list ascii.
Variable inv : R -> Prop.
Hypothesis Hpending : returns_pending pending inv.

Lemma skip_looks_at (p : Parser R) (l : list ascii) :
  looks_at pending inv p l -> looks_at pending inv (skip p) (tl l).
Proof.
  intros (_ & E & I). destruct (Hpending _ I) as (E1 & E2 & I').
  unfold skip, looks_at. destruct (rdch (r_ p)) as [c r]. simpl in *.
  rewrite E1, E2, E. auto.
Qed.

Lemma Parser_new_looks_at (r : R) : inv r -> looks_at pending inv (Parser_new r) (pending r).
Proof.
  intros I. destruct (Hpending _ I) as (E1 & E2 & I').
  unfold Parser_new, skip, looks_at. simpl. destruct (rdch r) as [c r']. simpl in *. auto.
Qed.

(** [parse] steps over leading white space, one unit of fuel for each
    character. *)
Lemma parse_skips_spaces (ws l : list ascii) (p : Parser R) :
  Forall (fun c => isspace c = true) ws ->
  looks_at pending inv p (ws ++ l) ->
  exists p', looks_at pending inv p' l
             /\ forall fuel value h,
                  parse (length ws + fuel) value p h = parse fuel value p' h.
Proof.
  intros W. revert p. induction W as [|c ws Hc W IH]; intros p L.
  - exists p. split; [exact L | reflexivity].
  - destruct (IH (skip p) (skip_looks_at _ _ L)) as (p' & L' & E).
    exists p'. split; [exact L'|]. intros fuel value h.
    change (length (c :: ws) + fuel)%nat with (S (length ws + fuel)).
    cbn [parse]. destruct L as (C & _). simpl in C. rewrite C.
    rewrite parse_space_test, Hc. apply E.
Qed.

(** The parser reads back what the serializer writes for one character. *)
Lemma string_chars_one (c : ascii) (tail : list ascii) (p : Parser R) :
  c <> zero ->
  looks_at pending inv p (chars (serialize_char c) ++ tail) ->
  exists p', looks_at pending inv p' tail
             /\ forall fuel ss,
                  string_chars (S fuel) ss p = string_chars fuel (String.append ss (str1 c)) p'.
Proof.
  intros Hz L.
  assert (forall x : ascii,
             looks_at pending inv p (backslash :: x :: tail) ->
             parse_escape (mkParser (r_ (skip p)) x) = Ret (str1 c, mkParser (r_ (skip p)) x) ->
             exists p', looks_at pending inv p' tail
                        /\ forall fuel ss,
                             string_chars (S fuel) ss p
                             = string_chars fuel (String.append ss (str1 c)) p') as Escaped.
  { intros x Lx Ex. pose proof (skip_looks_at _ _ Lx) as L1.
    pose proof (skip_looks_at _ _ L1) as L2. simpl in L1, L2.
    exists (skip (skip p)). split; [exact L2|]. intros fuel ss.
    destruct Lx as (C & _). destruct L1 as (C1 & _). simpl in C, C1.
    cbn [string_chars]. rewrite C. eval_tests.
    replace (skip p) with (mkParser (r_ (skip p)) x)
      by (destruct (skip p) as [r0 c0]; simpl in *; congruence).
    rewrite Ex. reflexivity. }
  unfold serialize_char in L.
  destruct (Ascii.eqb_spec c dquote) as [->|N1].
  { apply (Escaped dquote); [exact L | reflexivity]. }
  destruct (Ascii.eqb_spec c slash) as [->|N2].
  { apply (Escaped slash); [exact L | reflexivity]. }
  destruct (Ascii.eqb_spec c backslash) as [->|N3].
  { apply (Escaped backslash); [exact L | reflexivity]. }
  destruct (Ascii.eqb_spec c char_b) as [->|N4].
  { apply (Escaped "b"%char); [exact L | reflexivity]. }
  destruct (Ascii.eqb_spec c char_f) as [->|N5].
  { apply (Escaped "f"%char); [exact L | reflexivity]. }
  destruct (Ascii.eqb_spec c char_n) as [->|N6].
  { apply (Escaped "n"%char); [exact L | reflexivity]. }
  destruct (Ascii.eqb_spec c char_r) as [->|N7].
  { apply (Escaped "r"%char); [exact L | reflexivity]. }
  destruct (Ascii.eqb_spec c char_t) as [->|N8].
  { apply (Escaped "t"%char); [exact L | reflexivity]. }
  exists (skip p). split; [exact (skip_looks_at _ _ L)|]. intros fuel ss.
  destruct L as (C & _). simpl in C. cbn [string_chars]. rewrite C. unfold is_ch.
  apply Ascii.eqb_neq in Hz, N1, N3. rewrite Hz, N1, N3. reflexivity.
Qed.

(** The parser reads back the body of a serialized string, one unit of
    fuel for each byte of the string. *)
Lemma string_chars_serialized (s : string) :
  c_str s = s ->
  forall (tail : list ascii) (p : Parser R),
    looks_at pending inv p (chars (serialize_chars s) ++ tail) ->
    exists p', looks_at pending inv p' tail
               /\ forall fuel ss,
                    string_chars (String.length s + fuel) ss p
                    = string_chars fuel (String.append ss s) p'.
Proof.
  induction s as [|c s IH]; intros Hs tail p L.
  - exists p. split; [exact L|]. intros fuel ss. rewrite append_empty_r. reflexivity.
  - simpl in Hs. destruct (Ascii.eqb_spec c zero) as [|Hz]; [discriminate|].
    injection Hs as Hs. simpl in L. apply Ascii.eqb_neq in Hz as Hz'. rewrite Hz' in L.
    rewrite chars_append, <- app_assoc in L.
    destruct (string_chars_one c _ p Hz L) as (p1 & L1 & E1).
    destruct (IH Hs tail p1 L1) as (p' & L' & E').
    exists p'. split; [exact L'|]. intros fuel ss.
    change (String.length (String c s) + fuel)%nat with (S (String.length s + fuel)).
    rewrite E1, E', append_assoc. reflexivity.
Qed.

Lemma parse_string_serialized (s : string) (rest : list ascii) (p : Parser R) :
  c_str s = s ->
  looks_at pending inv p (chars (serialize_string s) ++ rest) ->
  exists p', looks_at pending inv p' rest
             /\ forall fuel, parse_string (String.length s + S fuel) p = Ret (s, p').
Proof.
  intros Hs L. unfold serialize_string in L.
  change (chars (String dquote (String.append (serialize_chars s) (str1 dquote))))
    with (dquote :: chars (String.append (serialize_chars s) (str1 dquote))) in L.
  rewrite chars_append in L. simpl in L. rewrite <- app_assoc in L. simpl in L.
  pose proof (skip_looks_at _ _ L) as L0. simpl in L0.
  destruct (string_chars_serialized s Hs _ _ L0) as (p1 & L1 & E1).
  exists (skip p1). split; [exact (skip_looks_at _ _ L1)|]. intros fuel.
  unfold parse_string. rewrite E1. change (String.append EmptyString s) with s.
  destruct L1 as (C & _). simpl in C. cbn [string_chars]. rewrite C. eval_tests. reflexivity.
Qed.

(** A string literal that ends with the input is an unexpected token. *)
Lemma parse_string_unterminated (s : string) (p : Parser R) :
  c_str s = s ->
  looks_at pending inv p (dquote :: chars (serialize_chars s)) ->
  forall fuel, parse_string (String.length s + S fuel) p = Throw UnexpectedToken.
Proof.
  intros Hs L fuel. pose proof (skip_looks_at _ _ L) as L0. simpl in L0.
  rewrite <- (app_nil_r (chars (serialize_chars s))) in L0.
  destruct (string_chars_serialized s Hs _ _ L0) as (p1 & L1 & E1).
  unfold parse_string. rewrite E1.
  destruct L1 as (C & _). simpl in C. cbn [string_chars]. rewrite C. eval_tests. reflexivity.
Qed.

(** The digit loop reads a decimal number as long as the number stays
    below 2^63. *)
Lemma int_digits_decimal (d : Decimal.uint) :
  d <> Decimal.Nil ->
  forall (ival : Int) (rest : list ascii) (p : Parser R) (fuel : nat),
    looks_at pending inv p (chars (NilEmpty.string_of_uint d) ++ rest) ->
    isdigit (hd zero rest) = false ->
    0 <= ival -> digits_value d ival < 2^63 ->
    (String.length (NilEmpty.string_of_uint d) <= fuel)%nat ->
    exists p', looks_at pending inv p' rest
               /\ int_digits fuel ival p = Ret (digits_value d ival, p').
Proof.
  induction d; intros N ival rest p fuel L Hrest A B F; [congruence | ..];
    (destruct fuel as [|fuel]; [simpl in F; lia|]);
    pose proof (skip_looks_at _ _ L) as L1; simpl in L1;
    destruct L as (C & _); simpl in C;
    cbn [int_digits]; rewrite C; eval_codes;
    cbn [digits_value] in *;
    match type of B with
    | digits_value _ ?e < _ =>
        pose proof (digits_value_grows d e ltac:(lia)) as G;
        replace (wrap64 (ival * 10 + _ - 48)) with e by (rewrite wrap64_small; lia)
    end;
    (destruct (Decimal.uint_eq_dec d Decimal.Nil) as [->|Nd];
     [ destruct L1 as (C1 & L1'); simpl in C1; rewrite C1, Hrest;
       eexists; split; [split; [exact C1 | exact L1'] | reflexivity]
     | destruct (first_digit d rest Nd) as (D1 & _);
       destruct L1 as (C1 & L1'); rewrite C1, D1;
       apply IHd; [exact Nd | split; [exact C1 | exact L1'] | exact Hrest | lia | exact B
                  | simpl in F; lia] ]).
Qed.

(** [parse_digit] reads back what the serializer writes for an [Int]
    other than the least one, and assigns it. *)
Lemma parse_digit_serialized (i : Int) (rest : list ascii) (p : Parser R) (fuel : nat)
    (value : Value) (h : Heap) :
  - 2^63 < i < 2^63 ->
  looks_at pending inv p (chars (serialize_int i) ++ rest) ->
  continues_number (hd zero rest) = false ->
  (String.length (serialize_int i) <= fuel)%nat ->
  exists p', looks_at pending inv p' rest
             /\ parse_digit fuel value p h
                = ('(v, h') <- assign_int fuel value i h ;; Ret (v, p', h')).
Proof.
  intros B L Hrest F.
  destruct (continues_number_false _ Hrest) as (Hd & H1 & H2 & H3).
  destruct (serialize_int_digits i) as (d & Nd & V & E). rewrite E in L, F. clear E.
  destruct (Z.ltb_spec i 0) as [Neg|Pos].
  - change (chars (String "-" (NilEmpty.string_of_uint d)))
      with ("-"%char :: chars (NilEmpty.string_of_uint d)) in L.
    pose proof (skip_looks_at _ _ L) as L1. simpl in L1.
    destruct (first_digit d rest Nd) as (D1 & _).
    destruct (int_digits_decimal d Nd 0 rest (skip p) fuel L1 Hd) as (p' & L' & E');
      [lia | lia | simpl in F; lia |].
    exists p'. split; [exact L'|].
    destruct L as (C & _). simpl in C. destruct L1 as (C1 & _). destruct L' as (C' & _).
    unfold parse_digit. rewrite C. eval_tests. rewrite C1, D1. cbn [negb bind].
    rewrite E'. cbn [bind]. rewrite C', H1, H2, H3. cbn [orb].
    replace (wrap64 (- digits_value d 0)) with i by (rewrite wrap64_small; lia).
    reflexivity.
  - destruct (first_digit d rest Nd) as (_ & M & _).
    destruct (int_digits_decimal d Nd 0 rest p fuel L Hd) as (p' & L' & E');
      [lia | lia | exact F |].
    exists p'. split; [exact L'|].
    destruct L as (C & _). destruct L' as (C' & _).
    unfold parse_digit. rewrite C, M. cbn [bind].
    rewrite E'. cbn [bind]. rewrite C', H1, H2, H3. cbn [orb].
    replace (digits_value d 0) with i by lia.
    reflexivity.
Qed.

End KnownText.

(** ** Values as trees *)

(** Induction on a tree with the hypothesis for every element and member. *)
Lemma Json_induction (P : Json -> Prop) :
  P JNull -> (forall b, P (JBool b)) -> (forall i, P (JInt i)) -> (forall s, P (JString s)) ->
  (forall l, Forall P l -> P (JArray l)) ->
  (forall m, Forall (fun kv => P (snd kv)) m -> P (JObject m)) ->
  forall t, P t.
Proof.
  intros Hn Hb Hi Hs Ha Ho. fix IH 1. intros [| b | i | s | l | m].
  - exact Hn.
  - apply Hb.
  - apply Hi.
  - apply Hs.
  - apply Ha. induction l as [|x l IHl]; constructor; [apply IH | exact IHl].
  - apply Ho. induction m as [|[k x] m IHm]; constructor; [apply IH | exact IHm].
Qed.

Section SerializeTree.

Variable show_Float : Float -> string.

Lemma serialize_elements_trees (f : Value -> option Json) (ser : Value -> outcome string)
    (a : Array) (ts : list Json) :
  (forall x t, f x = Some t -> ser x = Ret (print t)) ->
  trees_of f a = Some ts ->
  serialize_elements ser false a
  = Ret (cat (map (String.append ",") (map print ts))).
Proof.
  intros Hf. revert ts. induction a as [|x a IH]; intros ts E; simpl in E.
  - injection E as <-. reflexivity.
  - destruct (f x) as [t|] eqn:Fx; [|discriminate].
    fold (trees_of f a) in E. destruct (trees_of f a) as [ts'|]; [|discriminate].
    injection E as <-. cbn [serialize_elements]. rewrite (Hf _ _ Fx). cbn [bind].
    rewrite (IH ts' eq_refl). cbn [bind map cat]. rewrite !append_assoc. reflexivity.
Qed.

Lemma serialize_array_trees (f : Value -> option Json) (ser : Value -> outcome string)
    (a : Array) (ts : list Json) :
  (forall x t, f x = Some t -> ser x = Ret (print t)) ->
  trees_of f a = Some ts ->
  serialize_array ser a = Ret (print (JArray ts)).
Proof.
  intros Hf E. destruct a as [|x a]; simpl in E.
  - injection E as <-. reflexivity.
  - destruct (f x) as [t|] eqn:Fx; [|discriminate].
    fold (trees_of f a) in E. destruct (trees_of f a) as [ts'|] eqn:Fa; [|discriminate].
    injection E as <-. unfold serialize_array. cbn [serialize_elements].
    rewrite (Hf _ _ Fx). cbn [bind].
    rewrite (serialize_elements_trees f ser a ts' Hf Fa). cbn [bind print map bracketed].
    rewrite !append_assoc. reflexivity.
Qed.

Lemma serialize_members_trees (f : Value -> option Json) (ser : Value -> outcome string)
    (o : Object) (ts : list (string * Json)) :
  (forall x t, f x = Some t -> ser x = Ret (print t)) ->
  member_trees_of f o = Some ts ->
  serialize_members ser false o
  = Ret (cat (map (String.append ",") (map print_member ts))).
Proof.
  intros Hf. revert ts. induction o as [|[k x] o IH]; intros ts E; simpl in E.
  - injection E as <-. reflexivity.
  - destruct (f x) as [t|] eqn:Fx; [|discriminate].
    fold (member_trees_of f o) in E. destruct (member_trees_of f o) as [ts'|]; [|discriminate].
    injection E as <-. cbn [serialize_members]. rewrite (Hf _ _ Fx). cbn [bind].
    rewrite (IH ts' eq_refl). cbn [bind map cat]. unfold print_member. cbn [fst snd].
    rewrite !append_assoc. reflexivity.
Qed.

Lemma print_object (m : list (string * Json)) :
  print (JObject m) = bracketed "{" (map print_member m) "}".
Proof.
  cbn [print]. f_equal. apply map_ext. intros [k v]. reflexivity.
Qed.

Lemma serialize_object_trees (f : Value -> option Json) (ser : Value -> outcome string)
    (o : Object) (ts : list (string * Json)) :
  (forall x t, f x = Some t -> ser x = Ret (print t)) ->
  member_trees_of f o = Some ts ->
  serialize_object ser o = Ret (print (JObject ts)).
Proof.
  intros Hf E. destruct o as [|[k x] o]; simpl in E.
  - injection E as <-. reflexivity.
  - destruct (f x) as [t|] eqn:Fx; [|discriminate].
    fold (member_trees_of f o) in E.
    destruct (member_trees_of f o) as [ts'|] eqn:Fo; [|discriminate].
    injection E as <-. unfold serialize_object. cbn [serialize_members].
    rewrite (Hf _ _ Fx). cbn [bind].
    rewrite (serialize_members_trees f ser o ts' Hf Fo). rewrite print_object.
    cbn [bind map bracketed]. unfold print_member. cbn [fst snd].
    rewrite !append_assoc. reflexivity.
Qed.

(** The serializer writes the text of the tree a Value stands for,
    whatever boxes are shared between its parts (the members of an object
    in the order of the association list). *)
Lemma serialize_prints_tree (fuel : nat) (h : Heap) (v : Value) (t : Json) :
  tree_of fuel h v = Some t -> serialize show_Float fuel h v = Ret (print t).
Proof.
  revert v t. induction fuel as [|fuel IH]; intros v t E; [discriminate|].
  destruct v as [ty d]. cbn [tree_of type_ data_] in E. cbn [serialize type_ data_].
  destruct ty; destruct d; try discriminate; try (injection E as <-; reflexivity).
  - (* string *)
    unfold ptr_of, deref. cbn [data_ bind].
    destruct (cells h !! p) as [[[s|a|o] u]|]; try discriminate.
    injection E as <-. reflexivity.
  - (* array *)
    unfold ptr_of, deref. cbn [data_ bind].
    destruct (cells h !! p) as [[[s|a|o] u]|]; try discriminate.
    cbn [value kind_of Kind_eqb bind].
    fold (trees_of (tree_of fuel h) a) in E.
    destruct (trees_of (tree_of fuel h) a) as [ts|] eqn:Ea; [|discriminate].
    injection E as <-. exact (serialize_array_trees _ _ a ts IH Ea).
  - (* object *)
    unfold ptr_of, deref. cbn [data_ bind].
    destruct (cells h !! p) as [[[s|a|o] u]|]; try discriminate.
    cbn [value kind_of Kind_eqb bind].
    fold (member_trees_of (tree_of fuel h) o) in E.
    destruct (member_trees_of (tree_of fuel h) o) as [ts|] eqn:Eo; [|discriminate].
    injection E as <-. exact (serialize_object_trees _ _ o ts IH Eo).
Qed.

End SerializeTree.

(** ** The parser reads back the text of a tree *)

Lemma length_chars (s : string) : length (chars s) = String.length s.
Proof. unfold chars. induction s as [|c s IH]; simpl; [reflexivity | rewrite IH; reflexivity]. Qed.

Lemma length_append (s t : string) :
  String.length (String.append s t) = (String.length s + String.length t)%nat.
Proof. rewrite <- !length_chars, chars_append, length_app. reflexivity. Qed.

Lemma length_serialize_chars (s : string) :
  (String.length (c_str s) <= String.length (serialize_chars s))%nat.
Proof.
  induction s as [|c s IH]; simpl; [lia|].
  destruct (Ascii.eqb c zero); simpl; [lia|].
  rewrite length_append.
  assert (1 <= String.length (serialize_char c))%nat; [|lia].
  unfold serialize_char. repeat (case_if; [simpl; lia|]). simpl. lia.
Qed.

Lemma length_serialize_string (s : string) :
  c_str s = s -> (String.length s + 2 <= String.length (serialize_string s))%nat.
Proof.
  intros E. unfold serialize_string. simpl. rewrite length_append. simpl.
  pose proof (length_serialize_chars s) as L. rewrite E in L. lia.
Qed.

(** The first character of the text of a number. *)
Lemma serialize_int_first (i : Int) (rest : list ascii) :
  isspace (hd zero (chars (serialize_int i) ++ rest)) = false
  /\ (is_ch (hd zero (chars (serialize_int i) ++ rest)) "-"
      || isdigit (hd zero (chars (serialize_int i) ++ rest))) = true
  /\ is_ch (hd zero (chars (serialize_int i) ++ rest)) zero = false.
Proof.
  destruct (serialize_int_digits i) as (d & Nd & _ & E). rewrite E.
  destruct (i <? 0).
  - repeat split; reflexivity.
  - destruct d; try congruence; repeat split; reflexivity.
Qed.

(** The first character of the text of a tree is neither the sentinel nor
    white space. *)
Lemma print_first (t : Json) (rest : list ascii) :
  is_ch (hd zero (chars (print t) ++ rest)) zero = false
  /\ isspace (hd zero (chars (print t) ++ rest)) = false.
Proof.
  destruct t as [| [] | i | s | [|x l] | [|[k x] m]]; try (split; reflexivity).
  destruct (serialize_int_first i rest) as (A & _ & B). split; assumption.
Qed.

Lemma set_slot_last (key : string) (v x : Value) (obj : Object) :
  find key obj = None -> set_slot key v (obj ++ [(key, x)]) = obj ++ [(key, v)].
Proof.
  induction obj as [|[k v0] obj IH]; simpl; intros F.
  - rewrite String.eqb_refl. reflexivity.
  - destruct (String.eqb k key); [discriminate|]. rewrite (IH F). reflexivity.
Qed.

Lemma find_none_app (key k : string) (v : Value) (obj : Object) :
  find key obj = None -> String.eqb k key = false -> find key (obj ++ [(k, v)]) = None.
Proof. intros F E. rewrite find_app, F. simpl. rewrite E. reflexivity. Qed.

(** The equations of [parse] and of the two loops. *)
Lemma parse_array_loop_eq {R : Type} `{Reader R}
    (fuel : nat) (out : Value) (arr : Array) (p : Parser R) (h : Heap) :
  parse_array_loop (S fuel) out arr p h
  = if is_ch (ch_ p) zero then unexpected_token
    else
      '(elt, p, h) <- parse fuel Value_null p h ;;
      let arr := arr ++ [elt] in
      p <- skip_spaces fuel p ;;
      if is_ch (ch_ p) "]" then
        let p := skip p in
        '(out, h) <- assign_array fuel out arr h ;;
        Ret (out, p, h)
      else if negb (is_ch (ch_ p) ",") then unexpected_token
      else parse_array_loop fuel out arr (skip p) h.
Proof. reflexivity. Qed.

Lemma parse_object_loop_eq {R : Type} `{Reader R}
    (fuel : nat) (out : Value) (obj : Object) (p : Parser R) (h : Heap) :
  parse_object_loop (S fuel) out obj p h
  = if is_ch (ch_ p) zero then unexpected_token
    else
      p <- skip_spaces fuel p ;;
      if negb (is_ch (ch_ p) dquote) then unexpected_token
      else
        '(key, p) <- parse_string fuel p ;;
        p <- skip_spaces fuel p ;;
        if negb (is_ch (ch_ p) ":") then unexpected_token
        else
          let p := skip p in
          let '(slot, obj) := subscript key obj in
          '(slot, p, h) <- parse fuel slot p h ;;
          let obj := set_slot key slot obj in
          p <- skip_spaces fuel p ;;
          if is_ch (ch_ p) "}" then
            let p := skip p in
            '(out, h) <- assign_object fuel out obj h ;;
            Ret (out, p, h)
          else if negb (is_ch (ch_ p) ",") then unexpected_token
          else parse_object_loop fuel out obj (skip p) h.
Proof. reflexivity. Qed.

Lemma parse_eq {R : Type} `{Reader R} (fuel : nat) (value : Value) (p : Parser R) (h : Heap) :
  parse (S fuel) value p h
  = if isspace (ch_ p) then parse fuel value (skip p) h
    else if is_ch (ch_ p) "-" || isdigit (ch_ p) then parse_digit fuel value p h
    else if is_ch (ch_ p) "n" then parse_null fuel value p h
    else if is_ch (ch_ p) "t" then parse_true fuel value p h
    else if is_ch (ch_ p) "f" then parse_false fuel value p h
    else if is_ch (ch_ p) dquote then parse_string_value fuel value p h
    else if is_ch (ch_ p) "[" then parse_array fuel value p h
    else if is_ch (ch_ p) "{" then parse_object fuel value p h
    else unexpected_token.
Proof. cbn [parse]. rewrite parse_space_test. reflexivity. Qed.

Section ReadBack.

Context {R : Type} `{Reader R}.
Variable pending : R -> list ascii.
Variable inv : R -> Prop.
Hypothesis Hpending : returns_pending pending inv.

Lemma expect_matches (name rest : list ascii) (p : Parser R) :
  looks_at pending inv p (name ++ rest) ->
  exists p', looks_at pending inv p' rest /\ expect name p = Ret p'.
Proof.
  revert p. induction name as [|c name IH]; intros p L.
  - exists p. split; [exact L | reflexivity].
  - destruct (IH _ (skip_looks_at pending inv Hpending _ _ L)) as (p' & L' & E).
    exists p'. split; [exact L'|]. destruct L as (C & _). simpl in C.
    cbn [expect]. rewrite C. unfold is_ch. rewrite Ascii.eqb_refl. exact E.
Qed.

Lemma skip_spaces_none (fuel : nat) (p : Parser R) :
  isspace (ch_ p) = false -> skip_spaces (S fuel) p = Ret p.
Proof. intros E. cbn [skip_spaces]. rewrite E. reflexivity. Qed.

(** The scalars. *)
Lemma parse_null_text (fuel : nat) (rest : list ascii) (p : Parser R) (h : Heap) :
  looks_at pending inv p (chars serialize_null ++ rest) ->
  exists p', looks_at pending inv p' rest
             /\ parse (S (S fuel)) Value_null p h = Ret (Value_null, p', h).
Proof.
  intros L. pose proof (skip_looks_at pending inv Hpending _ _ L) as L1. simpl in L1.
  destruct (expect_matches (chars "ull") rest _ L1) as (p' & L' & E).
  exists p'. split; [exact L'|]. destruct L as (C & _). simpl in C.
  cbn [parse]. rewrite C. eval_tests. unfold parse_null.
  change (list_ascii_of_string "ull") with (chars "ull"). rewrite E. reflexivity.
Qed.

Lemma parse_bool_text (fuel : nat) (b : bool) (rest : list ascii) (p : Parser R) (h : Heap) :
  looks_at pending inv p (chars (serialize_bool b) ++ rest) ->
  exists p', looks_at pending inv p' rest
             /\ parse (S (S fuel)) Value_null p h = Ret (Value_bool b, p', h).
Proof.
  intros L. pose proof (skip_looks_at pending inv Hpending _ _ L) as L1.
  destruct b; simpl in L1.
  - destruct (expect_matches (chars "rue") rest _ L1) as (p' & L' & E).
    exists p'. split; [exact L'|]. destruct L as (C & _). simpl in C.
    cbn [parse]. rewrite C. eval_tests. unfold parse_true.
    change (list_ascii_of_string "rue") with (chars "rue"). rewrite E. reflexivity.
  - destruct (expect_matches (chars "alse") rest _ L1) as (p' & L' & E).
    exists p'. split; [exact L'|]. destruct L as (C & _). simpl in C.
    cbn [parse]. rewrite C. eval_tests. unfold parse_false.
    change (list_ascii_of_string "alse") with (chars "alse"). rewrite E. reflexivity.
Qed.

Lemma parse_int_text (fuel : nat) (i : Int) (rest : list ascii) (p : Parser R) (h : Heap) :
  - 2^63 < i < 2^63 ->
  looks_at pending inv p (chars (serialize_int i) ++ rest) ->
  continues_number (hd zero rest) = false ->
  (String.length (serialize_int i) <= fuel)%nat ->
  exists p', looks_at pending inv p' rest
             /\ parse (S fuel) Value_null p h = Ret (Value_int i, p', h).
Proof.
  intros B L Hrest F.
  destruct (parse_digit_serialized pending inv Hpending i rest p fuel Value_null h B L Hrest F)
    as (p' & L' & E).
  exists p'. split; [exact L'|].
  destruct (serialize_int_first i rest) as (W & D & _).
  destruct L as (C & _). cbn [parse]. rewrite C, parse_space_test, W, D, E.
  destruct fuel as [|fuel]; [|reflexivity].
  destruct (serialize_int_digits i) as (d & Nd & _ & Ed). rewrite Ed in F.
  destruct (i <? 0); [simpl in F; lia|]. destruct d; try congruence; simpl in F; lia.
Qed.

Lemma parse_string_text (fuel : nat) (s : string) (rest : list ascii) (p : Parser R) (h : Heap) :
  c_str s = s ->
  looks_at pending inv p (chars (serialize_string s) ++ rest) ->
  (String.length s + 2 <= fuel)%nat ->
  exists p', looks_at pending inv p' rest
             /\ parse (S fuel) Value_null p h
                = Ret (fst (Value_string s h), p', snd (Value_string s h)).
Proof.
  intros Hs L F.
  destruct (parse_string_serialized pending inv Hpending s rest p Hs L) as (p' & L' & E).
  exists p'. split; [exact L'|]. destruct L as (C & _). simpl in C.
  cbn [parse]. rewrite C. eval_tests. unfold parse_string_value.
  replace fuel with (String.length s + S (fuel - String.length s - 1))%nat at 1 by lia.
  rewrite E. cbn [bind].
  destruct fuel as [|fuel]; [lia|]. reflexivity.
Qed.

Lemma items_tail_nil (closing : string) : items_tail [] closing = closing.
Proof. reflexivity. Qed.

Lemma chars_items_tail_cons (x : string) (xs : list string) (closing : string) :
  chars (items_tail (x :: xs) closing) = ","%char :: chars x ++ chars (items_tail xs closing).
Proof.
  unfold items_tail. cbn [map cat]. rewrite !chars_append. simpl.
  rewrite <- app_assoc. reflexivity.
Qed.

Lemma length_items_tail_cons (x : string) (xs : list string) (closing : string) :
  String.length (items_tail (x :: xs) closing)
  = (1 + String.length x + String.length (items_tail xs closing))%nat.
Proof.
  rewrite <- !length_chars, chars_items_tail_cons. simpl. rewrite length_app. lia.
Qed.

Lemma chars_bracketed (opening x closing : string) (xs : list string) :
  chars (bracketed opening (x :: xs) closing)
  = chars opening ++ chars x ++ chars (items_tail xs closing).
Proof. unfold bracketed, items_tail. rewrite !chars_append. reflexivity. Qed.

Lemma length_bracketed (opening x closing : string) (xs : list string) :
  String.length (bracketed opening (x :: xs) closing)
  = (String.length opening + String.length x + String.length (items_tail xs closing))%nat.
Proof. rewrite <- !length_chars, chars_bracketed, !length_app. lia. Qed.

(** The loop of [parse_array] in front of the elements [x :: l]. *)
Lemma parse_array_loop_text (l : list Json) :
  forall (x : Json) (acc : Array) (fuel : nat) (rest : list ascii) (p : Parser R) (h : Heap),
    reads_back pending inv x -> Forall (reads_back pending inv) l ->
    looks_at pending inv p
      (chars (print x) ++ chars (items_tail (map print l) "]") ++ rest) ->
    (String.length (print x) + String.length (items_tail (map print l) "]") + 2 <= fuel)%nat ->
    exists p', looks_at pending inv p' rest
               /\ parse_array_loop fuel Value_null acc p h
                  = Ret (fst (Value_array (acc ++ fst (build_seq build (x :: l) h))
                                (snd (build_seq build (x :: l) h))),
                         p',
                         snd (Value_array (acc ++ fst (build_seq build (x :: l) h))
                                (snd (build_seq build (x :: l) h)))).
Proof.
  induction l as [|y l IH]; intros x acc fuel rest p h Hx Hl L F.
  - (* the last element *)
    rewrite items_tail_nil in L, F. simpl in F.
    destruct fuel as [|[|fuel]]; [lia | lia |].
    destruct (Hx (S fuel) _ p h L eq_refl ltac:(lia)) as (p1 & L1 & E1).
    pose proof (skip_looks_at pending inv Hpending _ _ L1) as L2. simpl in L2.
    exists (skip p1). split; [exact L2|].
    destruct (print_first x (chars "]" ++ rest)) as (Z & _).
    destruct L as (C & _). destruct L1 as (C1 & _). simpl in C1.
    rewrite parse_array_loop_eq, C, Z, E1. cbn [bind].
    rewrite skip_spaces_none by (rewrite C1; reflexivity). cbn [bind].
    rewrite C1. eval_tests. cbn [build_seq].
    destruct (build x h) as [v h1]. reflexivity.
  - (* an element followed by others *)
    inversion Hl as [|? ? Hy Hl']; subst.
    cbn [map] in L, F. rewrite chars_items_tail_cons in L. rewrite length_items_tail_cons in F.
    destruct fuel as [|[|fuel]]; [lia | lia |].
    destruct (Hx (S fuel) _ p h L eq_refl ltac:(lia)) as (p1 & L1 & E1).
    pose proof (skip_looks_at pending inv Hpending _ _ L1) as L2. simpl in L2.
    rewrite <- app_assoc in L2.
    destruct (IH y (acc ++ [fst (build x h)]) (S fuel) rest (skip p1) (snd (build x h))
                Hy Hl' L2 ltac:(lia)) as (p' & L' & E').
    exists p'. split; [exact L'|].
    destruct (print_first x ((","%char :: chars (print y)
                                           ++ chars (items_tail (map print l) "]"))
                             ++ rest)) as (Z & _).
    destruct L as (C & _). destruct L1 as (C1 & _). simpl in C1.
    rewrite parse_array_loop_eq, C, Z, E1. cbn [bind].
    rewrite skip_spaces_none by (rewrite C1; reflexivity). cbn [bind].
    rewrite C1. eval_tests. rewrite E'.
    change (build_seq build (x :: y :: l) h)
      with (let '(v, h1) := build x h in
            let '(vs, h2) := build_seq build (y :: l) h1 in (v :: vs, h2)).
    destruct (build x h) as [v h1]. cbn [fst snd].
    destruct (build_seq build (y :: l) h1) as [vs h2]. cbn [fst snd].
    rewrite <- app_assoc. reflexivity.
Qed.

Lemma distinct_cons (k : string) (ks : list string) :
  distinct (k :: ks) = true ->
  distinct ks = true /\ forall key, In key ks -> String.eqb k key = false.
Proof.
  cbn [distinct]. intros D. apply andb_prop in D. destruct D as (N & D).
  split; [exact D|]. intros key I.
  destruct (String.eqb k key) eqn:E; [|reflexivity].
  apply negb_true_iff in N.
  assert (X : existsb (String.eqb k) ks = true)
    by (apply existsb_exists; exists key; split; assumption).
  congruence.
Qed.

(** One round of the loop of [parse_object], in front of the member
    [k : x] with a key that is not yet in the map: what is left to do is
    the test of the character behind the member. *)
Lemma parse_object_loop_member (k : string) (x : Json) (acc : Object) (fuel : nat)
    (tail : list ascii) (p : Parser R) (h : Heap) :
  c_str k = k -> reads_back pending inv x ->
  find k acc = None ->
  isspace (hd zero tail) = false ->
  continues_number (hd zero tail) = false ->
  looks_at pending inv p (chars (print_member (k, x)) ++ tail) ->
  (String.length (print_member (k, x)) <= fuel)%nat ->
  exists p1, looks_at pending inv p1 tail
             /\ forall out,
                 parse_object_loop (S fuel) out acc p h
                 = if is_ch (ch_ p1) "}" then
                     '(out, h) <- assign_object fuel out (acc ++ [(k, fst (build x h))])
                                    (snd (build x h)) ;;
                     Ret (out, skip p1, h)
                   else if negb (is_ch (ch_ p1) ",") then unexpected_token
                   else parse_object_loop fuel out (acc ++ [(k, fst (build x h))]) (skip p1)
                          (snd (build x h)).
Proof.
  intros Hk Hx Fk Sp Cn L F.
  unfold print_member in L, F. cbn [fst snd] in L, F.
  rewrite !length_append in F. pose proof (length_serialize_string k Hk) as Lk.
  change (String.length ":") with 1%nat in F.
  rewrite !chars_append, <- !app_assoc in L.
  destruct (parse_string_serialized pending inv Hpending k _ p Hk L) as (p2 & L2 & E2).
  pose proof (skip_looks_at pending inv Hpending _ _ L2) as L3. simpl in L3.
  destruct fuel as [|fuel]; [lia|].
  destruct (Hx (S fuel) tail (skip p2) h L3 Cn ltac:(lia)) as (p1 & L1 & E1).
  exists p1. split; [exact L1|]. intros out.
  destruct L as (C & _). simpl in C. destruct L2 as (C2 & _). simpl in C2.
  destruct L1 as (C1 & _).
  rewrite parse_object_loop_eq, C. eval_tests.
  rewrite skip_spaces_none by (rewrite C; reflexivity). cbn [bind].
  rewrite C. eval_tests.
  replace (S fuel) with (String.length k + S (S fuel - String.length k - 1))%nat at 1 by lia.
  rewrite E2. cbn [bind].
  rewrite skip_spaces_none by (rewrite C2; reflexivity). cbn [bind].
  rewrite C2. eval_tests.
  unfold subscript. rewrite Fk, E1. cbn [bind].
  rewrite set_slot_last by exact Fk.
  rewrite skip_spaces_none by (rewrite C1; exact Sp). cbn [bind].
  reflexivity.
Qed.

(** The loop of [parse_object] in front of the members [(k, x) :: m], with
    keys that differ from each other and from those already in the map. *)
Lemma parse_object_loop_text (m : list (string * Json)) :
  forall (k : string) (x : Json) (acc : Object) (fuel : nat) (rest : list ascii)
         (p : Parser R) (h : Heap),
    c_str k = k -> reads_back pending inv x ->
    Forall (fun kv => c_str (fst kv) = fst kv /\ reads_back pending inv (snd kv)) m ->
    distinct (k :: map fst m) = true ->
    (forall key, In key (k :: map fst m) -> find key acc = None) ->
    looks_at pending inv p
      (chars (print_member (k, x)) ++ chars (items_tail (map print_member m) "}") ++ rest) ->
    (String.length (print_member (k, x))
     + String.length (items_tail (map print_member m) "}") + 2 <= fuel)%nat ->
    exists p', looks_at pending inv p' rest
               /\ parse_object_loop fuel Value_null acc p h
                  = Ret (fst (Value_object (acc ++ fst (build_members build ((k, x) :: m) h))
                                (snd (build_members build ((k, x) :: m) h))),
                         p',
                         snd (Value_object (acc ++ fst (build_members build ((k, x) :: m) h))
                                (snd (build_members build ((k, x) :: m) h)))).
Proof.
  induction m as [|[k' y] m IH]; intros k x acc fuel rest p h Hk Hx Hm D A L F.
  - (* the last member *)
    rewrite items_tail_nil in L, F. change (String.length "}") with 1%nat in F.
    destruct fuel as [|[|fuel]]; [lia | lia |].
    destruct (parse_object_loop_member k x acc (S fuel) (chars "}" ++ rest) p h Hk Hx
                (A k (or_introl eq_refl)) eq_refl eq_refl L ltac:(lia)) as (p1 & L1 & E1).
    pose proof (skip_looks_at pending inv Hpending _ _ L1) as L2. simpl in L2.
    exists (skip p1). split; [exact L2|].
    destruct L1 as (C1 & _). simpl in C1.
    rewrite E1, C1. eval_tests. cbn [build_members].
    destruct (build x h) as [v h1]. reflexivity.
  - (* a member followed by others *)
    inversion Hm as [|? ? Hy Hm']; subst. destruct Hy as (Hk' & Hy). cbn [fst snd] in Hk', Hy.
    cbn [map] in L, F. rewrite chars_items_tail_cons in L. rewrite length_items_tail_cons in F.
    destruct (distinct_cons _ _ D) as (D' & N).
    destruct fuel as [|[|fuel]]; [lia | lia |].
    destruct (parse_object_loop_member k x acc (S fuel)
                ((","%char :: chars (print_member (k', y))
                              ++ chars (items_tail (map print_member m) "}")) ++ rest)
                p h Hk Hx
                (A k (or_introl eq_refl)) eq_refl eq_refl L ltac:(lia)) as (p1 & L1 & E1).
    pose proof (skip_looks_at pending inv Hpending _ _ L1) as L2. simpl in L2.
    rewrite <- app_assoc in L2.
    assert (A' : forall key, In key (k' :: map fst m) ->
                             find key (acc ++ [(k, fst (build x h))]) = None).
    { intros key I. apply find_none_app; [apply A; right; exact I | apply N; exact I]. }
    destruct (IH k' y (acc ++ [(k, fst (build x h))]) (S fuel) rest (skip p1) (snd (build x h))
                Hk' Hy Hm' D' A' L2 ltac:(lia)) as (p' & L' & E').
    exists p'. split; [exact L'|].
    destruct L1 as (C1 & _). simpl in C1.
    rewrite E1, C1. eval_tests. rewrite E'.
    change (build_members build ((k, x) :: (k', y) :: m) h)
      with (let '(v, h1) := build x h in
            let '(kvs, h2) := build_members build ((k', y) :: m) h1 in ((k, v) :: kvs, h2)).
    destruct (build x h) as [v h1]. cbn [fst snd].
    destruct (build_members build ((k', y) :: m) h1) as [kvs h2]. cbn [fst snd].
    rewrite <- app_assoc. reflexivity.
Qed.

Lemma build_array (l : list Json) (h : Heap) :
  build (JArray l) h
  = Value_array (fst (build_seq build l h)) (snd (build_seq build l h)).
Proof. cbn [build]. destruct (build_seq build l h). reflexivity. Qed.

Lemma build_object (m : list (string * Json)) (h : Heap) :
  build (JObject m) h
  = Value_object (fst (build_members build m h)) (snd (build_members build m h)).
Proof. cbn [build]. destruct (build_members build m h). reflexivity. Qed.

(** The parser reads back the text of every readable tree: in front of the
    text it returns the Value that [build] makes of the tree, in the heap
    that [build] leaves, and it stops at the first character behind the
    text. *)
Theorem parse_reads_back (t : Json) : readable t = true -> reads_back pending inv t.
Proof.
  induction t as [| b | i | s | l IH | m IH] using Json_induction;
    intros Rd fuel rest p h L Cn F.
  - destruct fuel as [|[|fuel]]; [simpl in F; lia | simpl in F; lia |].
    apply parse_null_text. exact L.
  - destruct fuel as [|[|fuel]]; [simpl in F; lia | simpl in F; lia |].
    apply parse_bool_text. exact L.
  - cbn [readable] in Rd. apply andb_prop in Rd. destruct Rd as (Lo & Hi).
    apply Z.ltb_lt in Lo, Hi.
    destruct fuel as [|fuel]; [lia|].
    apply parse_int_text; [lia | exact L | exact Cn | cbn [print] in F; lia].
  - cbn [readable] in Rd. apply String.eqb_eq in Rd.
    destruct fuel as [|fuel]; [lia|].
    apply parse_string_text; [exact Rd | exact L |].
    cbn [print] in F. pose proof (length_serialize_string s Rd). lia.
  - destruct l as [|x l]; [discriminate|].
    cbn [readable forallb] in Rd. apply andb_prop in Rd. destruct Rd as (Rx & Rl).
    inversion IH as [|? ? Hx Hl]; subst.
    assert (Hl' : Forall (reads_back pending inv) l).
    { clear - Hl Rl. induction Hl as [|y l Hy Hl IHl]; constructor.
      - apply Hy. cbn [forallb] in Rl. apply andb_prop in Rl. tauto.
      - apply IHl. cbn [forallb] in Rl. apply andb_prop in Rl. tauto. }
    cbn [print map] in L, F. rewrite chars_bracketed, <- !app_assoc in L.
    rewrite length_bracketed in F. change (String.length "[") with 1%nat in F.
    pose proof (skip_looks_at pending inv Hpending _ _ L) as L1. simpl in L1.
    destruct fuel as [|fuel]; [lia|].
    destruct (parse_array_loop_text l x [] fuel rest (skip p) h (Hx Rx) Hl' L1 ltac:(lia))
      as (p' & L' & E').
    exists p'. split; [exact L'|]. destruct L as (C & _). simpl in C.
    rewrite parse_eq, C. eval_tests. unfold parse_array. rewrite E', build_array.
    reflexivity.
  - destruct m as [|[k x] m]; [discriminate|].
    cbn [readable forallb map fst] in Rd. apply andb_prop in Rd. destruct Rd as (D & Rd).
    apply andb_prop in Rd. destruct Rd as (Rx & Rm).
    apply andb_prop in Rx. destruct Rx as (Rk & Rx). apply String.eqb_eq in Rk.
    inversion IH as [|? ? Hx Hm]; subst. cbn [snd] in Hx.
    assert (Hm' : Forall (fun kv => c_str (fst kv) = fst kv /\ reads_back pending inv (snd kv))
                    m).
    { clear - Hm Rm. induction Hm as [|[k' y] m Hy Hm IHm]; constructor.
      - cbn [forallb] in Rm. apply andb_prop in Rm. destruct Rm as (Ry & _).
        apply andb_prop in Ry. destruct Ry as (Rk' & Ry). apply String.eqb_eq in Rk'.
        split; [exact Rk' | apply Hy; exact Ry].
      - apply IHm. cbn [forallb] in Rm. apply andb_prop in Rm. tauto. }
    rewrite print_object in L, F. cbn [map] in L, F.
    rewrite chars_bracketed, <- !app_assoc in L.
    rewrite length_bracketed in F. change (String.length "{") with 1%nat in F.
    pose proof (skip_looks_at pending inv Hpending _ _ L) as L1. simpl in L1.
    destruct fuel as [|fuel]; [lia|].
    destruct (parse_object_loop_text m k x [] fuel rest (skip p) h Rk (Hx Rx) Hm' D
                ltac:(reflexivity) L1 ltac:(lia)) as (p' & L' & E').
    exists p'. split; [exact L'|]. destruct L as (C & _). simpl in C.
    rewrite parse_eq, C. eval_tests. unfold parse_object. rewrite E', build_object.
    reflexivity.
Qed.

End ReadBack.

(** ** Reading a stream that holds the text of a tree *)

Lemma StreamReader_returns_pending : returns_pending StreamReader_pending StreamReader_wf.
Proof. intros r I. apply StreamReader_rdch_pending. exact I. Qed.

Lemma stream_looks_at (text : string) :
  looks_at StreamReader_pending StreamReader_wf
    (Parser_new (StreamReader_new (istream_of text))) (chars text).
Proof.
  unfold chars. rewrite <- (StreamReader_new_pending text).
  apply (Parser_new_looks_at _ _ StreamReader_returns_pending), StreamReader_new_wf.
Qed.

Lemma peek_hd (s : string) : peek s = hd zero (chars s).
Proof. destruct s; reflexivity. Qed.

(** X11.  [deserialize(std::istream&)] on a stream that holds white space, the
    minimal text of a readable tree and then anything that does not
    continue a number: the white space is skipped, the Value returned is
    the one of the tree, and what follows the text is left alone. *)
Theorem deserialize_stream_reads_back
    (ws rest : string) (t : Json) (fuel : nat) (h : Heap) :
  Forall (fun c => isspace c = true) (chars ws) ->
  readable t = true ->
  continues_number (peek rest) = false ->
  (String.length ws + (String.length (print t) + 2) <= fuel)%nat ->
  deserialize_stream fuel (istream_of (String.append ws (String.append (print t) rest))) h
  = Ret (build t h).
Proof.
  intros W Rd Cn F.
  pose proof (stream_looks_at (String.append ws (String.append (print t) rest))) as L.
  rewrite !chars_append in L.
  destruct (parse_skips_spaces _ _ StreamReader_returns_pending _ _ _ W L) as (p1 & L1 & E1).
  rewrite peek_hd in Cn.
  destruct (parse_reads_back _ _ StreamReader_returns_pending t Rd
              (fuel - String.length ws)%nat (chars rest) p1 h L1 Cn ltac:(lia))
    as (p' & _ & E').
  unfold deserialize_stream, deserialize_with.
  replace fuel with (length (chars ws) + (fuel - String.length ws))%nat at 1
    by (rewrite length_chars; lia).
  rewrite E1, E'. cbn [bind]. destruct (build t h) as [[ty d] h']. reflexivity.
Qed.

Lemma deserialize_stream_reads_back_witness :
  Forall (fun c => isspace c = true) (chars " ")
  /\ readable (JObject [("k", JArray [JInt (-12)%Z; JString "a"; JNull])]) = true
  /\ continues_number (peek "]") = false
  /\ (String.length " "
      + (String.length (print (JObject [("k", JArray [JInt (-12)%Z; JString "a"; JNull])])) + 2)
      <= 40)%nat
  /\ deserialize_stream 40
       (istream_of
          (String.append " "
             (String.append (print (JObject [("k", JArray [JInt (-12)%Z; JString "a"; JNull])]))
                "]")))
       empty_heap
     = Ret (build (JObject [("k", JArray [JInt (-12)%Z; JString "a"; JNull])]) empty_heap).
Proof.
  assert (W : Forall (fun c => isspace c = true) (chars " "))
    by (repeat constructor).
  assert (Rd : readable (JObject [("k", JArray [JInt (-12)%Z; JString "a"; JNull])]) = true)
    by reflexivity.
  assert (Cn : continues_number (peek "]") = false) by reflexivity.
  assert (F : (String.length " "
               + (String.length (print (JObject [("k", JArray [JInt (-12)%Z; JString "a"; JNull])]))
                  + 2)
               <= 40)%nat) by (vm_compute; lia).
  split; [exact W|]. split; [exact Rd|]. split; [exact Cn|]. split; [exact F|].
  exact (deserialize_stream_reads_back " " "]" _ 40 empty_heap W Rd Cn F).
Defined.

(** X12.  A string that is not closed is refused: on a stream that ends
    inside a string, [deserialize(std::istream&)] throws
    [UnexpectedToken] when it meets the sentinel. *)
Theorem deserialize_stream_unterminated_string (s : string) (fuel : nat) (h : Heap) :
  c_str s = s ->
  (String.length s + 2 <= fuel)%nat ->
  deserialize_stream fuel (istream_of (String dquote (serialize_chars s))) h
  = Throw UnexpectedToken.
Proof.
  intros Hs F.
  pose proof (stream_looks_at (String dquote (serialize_chars s))) as L.
  change (chars (String dquote (serialize_chars s)))
    with (dquote :: chars (serialize_chars s)) in L.
  pose proof (parse_string_unterminated _ _ StreamReader_returns_pending s _ Hs L) as E.
  destruct L as (C & _). simpl in C.
  unfold deserialize_stream, deserialize_with.
  destruct fuel as [|fuel]; [lia|].
  rewrite parse_eq, C. eval_tests. unfold parse_string_value.
  replace fuel with (String.length s + S (fuel - String.length s - 1))%nat by lia.
  rewrite E. reflexivity.
Qed.

Lemma deserialize_stream_unterminated_string_witness :
  c_str "ab" = "ab"
  /\ (String.length "ab" + 2 <= 4)%nat
  /\ deserialize_stream 4 (istream_of (String dquote (serialize_chars "ab"))) empty_heap
     = Throw UnexpectedToken.
Proof.
  assert (Hs : c_str "ab" = "ab") by reflexivity.
  assert (F : (String.length "ab" + 2 <= 4)%nat) by (simpl; lia).
  split; [exact Hs|]. split; [exact F|].
  exact (deserialize_stream_unterminated_string "ab" 4 empty_heap Hs F).
Defined.

(** ** The Value that [build] makes of a tree *)

(** [build] allocates upwards and leaves the boxes below [next] alone. *)
Lemma new_wrapper_below (x : Payload) (h : Heap) (p : addr) :
  (p < next h)%positive -> cells (snd (new_wrapper x h)) !! p = cells h !! p.
Proof. intros Lt. unfold new_wrapper. simpl. apply lookup_insert_ne. lia. Qed.

Lemma build_seq_frame (l : list Json) :
  Forall (fun t => forall h,
            (next h <= next (snd (build t h)))%positive
            /\ forall p, (p < next h)%positive ->
                         cells (snd (build t h)) !! p = cells h !! p) l ->
  forall h,
    (next h <= next (snd (build_seq build l h)))%positive
    /\ forall p, (p < next h)%positive ->
                 cells (snd (build_seq build l h)) !! p = cells h !! p.
Proof.
  induction 1 as [|x l Hx _ IH]; intros h.
  - split; [simpl; lia | reflexivity].
  - cbn [build_seq]. destruct (Hx h) as (N1 & C1). destruct (build x h) as [v h1].
    destruct (IH h1) as (N2 & C2). destruct (build_seq build l h1) as [vs h2].
    cbn [fst snd] in *. split; [lia|]. intros p Lt.
    rewrite C2 by lia. apply C1. exact Lt.
Qed.

Lemma build_members_frame (m : list (string * Json)) :
  Forall (fun kv => forall h,
            (next h <= next (snd (build (snd kv) h)))%positive
            /\ forall p, (p < next h)%positive ->
                         cells (snd (build (snd kv) h)) !! p = cells h !! p) m ->
  forall h,
    (next h <= next (snd (build_members build m h)))%positive
    /\ forall p, (p < next h)%positive ->
                 cells (snd (build_members build m h)) !! p = cells h !! p.
Proof.
  induction 1 as [|[k x] m Hx _ IH]; intros h.
  - split; [simpl; lia | reflexivity].
  - cbn [build_members]. cbn [snd] in Hx.
    destruct (Hx h) as (N1 & C1). destruct (build x h) as [v h1].
    destruct (IH h1) as (N2 & C2). destruct (build_members build m h1) as [kvs h2].
    cbn [fst snd] in *. split; [lia|]. intros p Lt.
    rewrite C2 by lia. apply C1. exact Lt.
Qed.

Lemma build_frame (t : Json) (h : Heap) :
  (next h <= next (snd (build t h)))%positive
  /\ forall p, (p < next h)%positive -> cells (snd (build t h)) !! p = cells h !! p.
Proof.
  revert h. induction t as [| b | i | s | l IH | m IH] using Json_induction; intros h;
    try (split; [simpl; lia | reflexivity]).
  - split; [simpl; lia|]. intros p Lt. apply new_wrapper_below. exact Lt.
  - rewrite build_array. destruct (build_seq_frame l IH h) as (N & C).
    split; [simpl; lia|]. intros p Lt.
    unfold Value_array. simpl. rewrite lookup_insert_ne by lia. apply C. exact Lt.
  - rewrite build_object. destruct (build_members_frame m IH h) as (N & C).
    split; [simpl; lia|]. intros p Lt.
    unfold Value_object. simpl. rewrite lookup_insert_ne by lia. apply C. exact Lt.
Qed.

(** A heap that holds the boxes [build] has allocated for a sequence of
    trees holds the trees. *)
Lemma trees_of_build_seq (fuel : nat) (l : list Json) :
  Forall (fun t => forall h h2,
            (depth t < fuel)%nat ->
            (forall p, (next h <= p)%positive -> (p < next (snd (build t h)))%positive ->
                       cells h2 !! p = cells (snd (build t h)) !! p) ->
            tree_of fuel h2 (fst (build t h)) = Some t) l ->
  forall h h2,
    Forall (fun t => (depth t < fuel)%nat) l ->
    (forall p, (next h <= p)%positive -> (p < next (snd (build_seq build l h)))%positive ->
               cells h2 !! p = cells (snd (build_seq build l h)) !! p) ->
    trees_of (tree_of fuel h2) (fst (build_seq build l h)) = Some l.
Proof.
  induction 1 as [|x l Hx _ IH]; intros h h2 D A; [reflexivity|].
  inversion D as [|? ? Dx Dl]; subst.
  cbn [build_seq] in *.
  pose proof (build_frame x h) as (N1 & _).
  specialize (Hx h h2 Dx). specialize (IH (snd (build x h)) h2 Dl).
  destruct (build x h) as [v h1]. cbn [fst snd] in *.
  assert (Fr : Forall (fun t => forall h,
                         (next h <= next (snd (build t h)))%positive
                         /\ forall p, (p < next h)%positive ->
                                      cells (snd (build t h)) !! p = cells h !! p) l)
    by (apply Forall_forall; intros t _ h0; apply build_frame).
  destruct (build_seq_frame l Fr h1) as (N2 & C2).
  destruct (build_seq build l h1) as [vs h3]. cbn [fst snd] in *.
  cbn [trees_of fold_right]. fold (trees_of (tree_of fuel h2) vs).
  rewrite Hx, IH; [reflexivity | |].
  - intros p Lo Hi. apply A; lia.
  - intros p Lo Hi. rewrite A by lia. apply C2. exact Hi.
Qed.

Lemma member_trees_of_build_members (fuel : nat) (m : list (string * Json)) :
  Forall (fun kv => forall h h2,
            (depth (snd kv) < fuel)%nat ->
            (forall p, (next h <= p)%positive ->
                       (p < next (snd (build (snd kv) h)))%positive ->
                       cells h2 !! p = cells (snd (build (snd kv) h)) !! p) ->
            tree_of fuel h2 (fst (build (snd kv) h)) = Some (snd kv)) m ->
  forall h h2,
    Forall (fun kv => (depth (snd kv) < fuel)%nat) m ->
    (forall p, (next h <= p)%positive -> (p < next (snd (build_members build m h)))%positive ->
               cells h2 !! p = cells (snd (build_members build m h)) !! p) ->
    member_trees_of (tree_of fuel h2) (fst (build_members build m h)) = Some m.
Proof.
  induction 1 as [|[k x] m Hx _ IH]; intros h h2 D A; [reflexivity|].
  inversion D as [|? ? Dx Dl]; subst. cbn [snd] in Hx, Dx.
  cbn [build_members] in *.
  pose proof (build_frame x h) as (N1 & _).
  specialize (Hx h h2 Dx). specialize (IH (snd (build x h)) h2 Dl).
  destruct (build x h) as [v h1]. cbn [fst snd] in *.
  assert (Fr : Forall (fun kv : string * Json => forall h,
                         (next h <= next (snd (build (snd kv) h)))%positive
                         /\ forall p, (p < next h)%positive ->
                                      cells (snd (build (snd kv) h)) !! p = cells h !! p) m)
    by (apply Forall_forall; intros t _ h0; apply build_frame).
  destruct (build_members_frame m Fr h1) as (N2 & C2).
  destruct (build_members build m h1) as [kvs h3]. cbn [fst snd] in *.
  cbn [member_trees_of fold_right fst snd]. fold (member_trees_of (tree_of fuel h2) kvs).
  rewrite Hx, IH; [reflexivity | |].
  - intros p Lo Hi. apply A; lia.
  - intros p Lo Hi. rewrite A by lia. apply C2. exact Hi.
Qed.

Lemma depth_elements (l : list Json) (fuel : nat) :
  (depth (JArray l) < S fuel)%nat -> Forall (fun t => (depth t < fuel)%nat) l.
Proof.
  cbn [depth]. induction l as [|x l IH]; intros D; constructor; cbn [fold_right] in D.
  - lia.
  - apply IH. lia.
Qed.

Lemma depth_members (m : list (string * Json)) (fuel : nat) :
  (depth (JObject m) < S fuel)%nat -> Forall (fun kv => (depth (snd kv) < fuel)%nat) m.
Proof.
  cbn [depth]. induction m as [|[k x] m IH]; intros D; constructor; cbn [fold_right snd] in *.
  - lia.
  - apply IH. lia.
Qed.

(** Any heap that holds the boxes [build] has allocated for a tree holds
    the tree. *)
Lemma tree_of_build_in (t : Json) :
  forall (fuel : nat) (h h2 : Heap),
    (depth t < fuel)%nat ->
    (forall p, (next h <= p)%positive -> (p < next (snd (build t h)))%positive ->
               cells h2 !! p = cells (snd (build t h)) !! p) ->
    tree_of fuel h2 (fst (build t h)) = Some t.
Proof.
  induction t as [| b | i | s | l IH | m IH] using Json_induction; intros fuel h h2 D A;
    (destruct fuel as [|fuel]; [lia|]); try reflexivity.
  - cbn [build Value_string new_wrapper fst snd] in *.
    cbn [tree_of type_ data_]. rewrite A by (simpl; lia). simpl.
    rewrite lookup_insert_eq. reflexivity.
  - rewrite build_array in *.
    assert (IH' : Forall (fun t => forall h h2,
                            (depth t < fuel)%nat ->
                            (forall p, (next h <= p)%positive ->
                                       (p < next (snd (build t h)))%positive ->
                                       cells h2 !! p = cells (snd (build t h)) !! p) ->
                            tree_of fuel h2 (fst (build t h)) = Some t) l).
    { eapply Forall_impl; [exact IH|]. intros t Ht. apply Ht. }
    pose proof (trees_of_build_seq fuel l IH' h h2 (depth_elements l fuel D)) as T.
    assert (Fr : Forall (fun t => forall h,
                           (next h <= next (snd (build t h)))%positive
                           /\ forall p, (p < next h)%positive ->
                                        cells (snd (build t h)) !! p = cells h !! p) l)
      by (apply Forall_forall; intros t _ h0; apply build_frame).
    destruct (build_seq_frame l Fr h) as (N & _).
    destruct (build_seq build l h) as [vs h1]. cbn [fst snd] in *.
    unfold Value_array, new_wrapper in *. cbn [fst snd next cells] in *.
    cbn [tree_of type_ data_]. rewrite A by lia. rewrite lookup_insert_eq.
    fold (trees_of (tree_of fuel h2) vs). rewrite T; [reflexivity|].
    intros p Lo Hi. rewrite A by lia. apply lookup_insert_ne. lia.
  - rewrite build_object in *.
    assert (IH' : Forall (fun kv : string * Json => forall h h2,
                            (depth (snd kv) < fuel)%nat ->
                            (forall p, (next h <= p)%positive ->
                                       (p < next (snd (build (snd kv) h)))%positive ->
                                       cells h2 !! p = cells (snd (build (snd kv) h)) !! p) ->
                            tree_of fuel h2 (fst (build (snd kv) h)) = Some (snd kv)) m).
    { eapply Forall_impl; [exact IH|]. intros kv Ht. apply Ht. }
    pose proof (member_trees_of_build_members fuel m IH' h h2 (depth_members m fuel D)) as T.
    assert (Fr : Forall (fun kv : string * Json => forall h,
                           (next h <= next (snd (build (snd kv) h)))%positive
                           /\ forall p, (p < next h)%positive ->
                                        cells (snd (build (snd kv) h)) !! p = cells h !! p) m)
      by (apply Forall_forall; intros t _ h0; apply build_frame).
    destruct (build_members_frame m Fr h) as (N & _).
    destruct (build_members build m h) as [kvs h1]. cbn [fst snd] in *.
    unfold Value_object, new_wrapper in *. cbn [fst snd next cells] in *.
    cbn [tree_of type_ data_]. rewrite A by lia. rewrite lookup_insert_eq.
    fold (member_trees_of (tree_of fuel h2) kvs). rewrite T; [reflexivity|].
    intros p Lo Hi. rewrite A by lia. apply lookup_insert_ne. lia.
Qed.

(** ** Round trips *)

(** The stream that holds the text of a readable tree and what follows. *)
Lemma deserialize_stream_text (t : Json) (rest : string) (fuel : nat) (h : Heap) :
  readable t = true ->
  continues_number (hd zero (chars rest)) = false ->
  (String.length (print t) + 2 <= fuel)%nat ->
  deserialize_stream fuel (istream_of (String.append (print t) rest)) h = Ret (build t h).
Proof.
  intros Rd Cn F.
  pose proof (stream_looks_at (String.append (print t) rest)) as L.
  rewrite chars_append in L.
  destruct (parse_reads_back _ _ StreamReader_returns_pending t Rd fuel (chars rest) _ h L Cn F)
    as (p' & _ & E').
  unfold deserialize_stream, deserialize_with.
  rewrite E'. cbn [bind]. destruct (build t h) as [[ty d] h']. reflexivity.
Qed.

(** X13.  Text to Value to text: deserializing the minimal text of a
    readable tree in which no object has more than one member gives a
    Value that serializes to the same text. *)
Theorem serialize_after_deserialize
    (show_Float : Float -> string) (t : Json) (fuel fuel' : nat) (h : Heap) :
  readable t = true ->
  order_free t = true ->
  (String.length (print t) + 2 <= fuel)%nat ->
  (depth t < fuel')%nat ->
  exists v h',
    deserialize_stream fuel (istream_of (print t)) h = Ret (v, h')
    /\ serialize show_Float fuel' h' v = Ret (print t).
Proof.
  intros Rd _ F D. exists (fst (build t h)), (snd (build t h)). split.
  - rewrite <- (append_empty_r (print t)) at 1.
    rewrite (deserialize_stream_text t EmptyString fuel h Rd eq_refl F).
    destruct (build t h); reflexivity.
  - apply serialize_prints_tree. apply tree_of_build_in; [exact D | reflexivity].
Qed.

Lemma serialize_after_deserialize_witness :
  readable (JArray [JObject [("a", JInt 7%Z)]; JString "b"]) = true
  /\ order_free (JArray [JObject [("a", JInt 7%Z)]; JString "b"]) = true
  /\ (String.length (print (JArray [JObject [("a", JInt 7%Z)]; JString "b"])) + 2 <= 20)%nat
  /\ (depth (JArray [JObject [("a", JInt 7%Z)]; JString "b"]) < 3)%nat
  /\ exists v h',
       deserialize_stream 20
         (istream_of (print (JArray [JObject [("a", JInt 7%Z)]; JString "b"]))) empty_heap
       = Ret (v, h')
       /\ serialize (fun _ => "0") 3 h' v
          = Ret (print (JArray [JObject [("a", JInt 7%Z)]; JString "b"])).
Proof.
  assert (Rd : readable (JArray [JObject [("a", JInt 7%Z)]; JString "b"]) = true) by reflexivity.
  assert (Of : order_free (JArray [JObject [("a", JInt 7%Z)]; JString "b"]) = true)
    by reflexivity.
  assert (F : (String.length (print (JArray [JObject [("a", JInt 7%Z)]; JString "b"])) + 2
               <= 20)%nat) by (vm_compute; lia).
  assert (D : (depth (JArray [JObject [("a", JInt 7%Z)]; JString "b"]) < 3)%nat)
    by (vm_compute; lia).
  split; [exact Rd|]. split; [exact Of|]. split; [exact F|]. split; [exact D|].
  exact (serialize_after_deserialize (fun _ => "0") _ 20 3 empty_heap Rd Of F D).
Defined.

(** X14.  Value to text to Value: [operator<<] writes, for a Value that
    stands for a tree in which no object has more than one member, the
    minimal text of the tree; when the tree is readable,
    [deserialize(std::istream&)] makes of that text, in any heap, a Value
    that stands for the same tree. *)
Theorem deserialize_after_serialize
    (show_Float : Float -> string) (fuel : nat) (h : Heap) (v : Value) (t : Json) :
  tree_of fuel h v = Some t ->
  order_free t = true ->
  serialize show_Float fuel h v = Ret (print t)
  /\ (readable t = true ->
      forall fuel' h0,
        (String.length (print t) + 2 <= fuel')%nat ->
        exists v' h',
          deserialize_stream fuel' (istream_of (print t)) h0 = Ret (v', h')
          /\ tree_of (S (depth t)) h' v' = Some t).
Proof.
  intros T _. split; [apply serialize_prints_tree; exact T|].
  intros Rd fuel' h0 F. exists (fst (build t h0)), (snd (build t h0)). split.
  - rewrite <- (append_empty_r (print t)) at 1.
    rewrite (deserialize_stream_text t EmptyString fuel' h0 Rd eq_refl F).
    destruct (build t h0); reflexivity.
  - apply tree_of_build_in; [lia | reflexivity].
Qed.

Lemma deserialize_after_serialize_witness :
  tree_of 2 (snd (Value_array [Value_int 1; Value_bool true] empty_heap))
    (fst (Value_array [Value_int 1; Value_bool true] empty_heap))
  = Some (JArray [JInt 1%Z; JBool true])
  /\ order_free (JArray [JInt 1%Z; JBool true]) = true
  /\ serialize (fun _ => "0") 2 (snd (Value_array [Value_int 1; Value_bool true] empty_heap))
       (fst (Value_array [Value_int 1; Value_bool true] empty_heap))
     = Ret (print (JArray [JInt 1%Z; JBool true]))
  /\ (readable (JArray [JInt 1%Z; JBool true]) = true ->
      forall fuel' h0,
        (String.length (print (JArray [JInt 1%Z; JBool true])) + 2 <= fuel')%nat ->
        exists v' h',
          deserialize_stream fuel' (istream_of (print (JArray [JInt 1%Z; JBool true]))) h0
          = Ret (v', h')
          /\ tree_of (S (depth (JArray [JInt 1%Z; JBool true]))) h' v'
             = Some (JArray [JInt 1%Z; JBool true])).
Proof.
  assert (T : tree_of 2 (snd (Value_array [Value_int 1; Value_bool true] empty_heap))
                (fst (Value_array [Value_int 1; Value_bool true] empty_heap))
              = Some (JArray [JInt 1%Z; JBool true])) by (vm_compute; reflexivity).
  assert (Of : order_free (JArray [JInt 1%Z; JBool true]) = true) by reflexivity.
  split; [exact T|]. split; [exact Of|].
  exact (deserialize_after_serialize (fun _ => "0") 2 _ _ _ T Of).
Defined.

(** ** The overload for strings *)

Lemma c_str_append (s r : string) :
  c_str s = s -> c_str (String.append s r) = String.append s (c_str r).
Proof.
  induction s as [|c s IH]; simpl; intros E; [reflexivity|].
  destruct (Ascii.eqb c zero); [discriminate|]. injection E as E. rewrite (IH E). reflexivity.
Qed.

Lemma c_str_serialize_char (c : ascii) :
  Ascii.eqb c zero = false -> c_str (serialize_char c) = serialize_char c.
Proof.
  intros N. unfold serialize_char. repeat (case_if; [reflexivity|]).
  simpl. rewrite N. reflexivity.
Qed.

Lemma c_str_serialize_chars (s : string) : c_str (serialize_chars s) = serialize_chars s.
Proof.
  induction s as [|c s IH]; simpl; [reflexivity|].
  destruct (Ascii.eqb c zero) eqn:N; [reflexivity|].
  rewrite c_str_append by (apply c_str_serialize_char; exact N). rewrite IH. reflexivity.
Qed.

Lemma c_str_serialize_string (s : string) : c_str (serialize_string s) = serialize_string s.
Proof.
  unfold serialize_string. change (c_str (String dquote ?x)) with (String dquote (c_str x)).
  rewrite c_str_append by apply c_str_serialize_chars. reflexivity.
Qed.

Lemma c_str_uint (d : Decimal.uint) :
  c_str (NilEmpty.string_of_uint d) = NilEmpty.string_of_uint d.
Proof. induction d; simpl; [reflexivity | rewrite IHd; reflexivity ..]. Qed.

Lemma c_str_serialize_int (i : Int) : c_str (serialize_int i) = serialize_int i.
Proof.
  destruct (serialize_int_digits i) as (d & _ & _ & ->).
  destruct (i <? 0); [|apply c_str_uint].
  change (c_str (String "-" ?x)) with (String "-"%char (c_str x)). rewrite c_str_uint.
  reflexivity.
Qed.

Lemma c_str_items_tail (items : list string) (closing : string) :
  Forall (fun s => c_str s = s) items -> c_str closing = closing ->
  c_str (items_tail items closing) = items_tail items closing.
Proof.
  intros Hi Hc. unfold items_tail.
  induction Hi as [|x items Hx _ IH]; cbn [map cat]; [exact Hc|].
  rewrite !append_assoc.
  change (String.append "," ?y) with (String ","%char y).
  change (c_str (String "," ?y)) with (String ","%char (c_str y)).
  rewrite c_str_append by exact Hx. rewrite IH. reflexivity.
Qed.

Lemma c_str_bracketed (opening closing : string) (items : list string) :
  c_str opening = opening -> c_str closing = closing ->
  Forall (fun s => c_str s = s) items ->
  c_str (bracketed opening items closing) = bracketed opening items closing.
Proof.
  intros Ho Hc Hi. destruct Hi as [|x items Hx Hi]; cbn [bracketed].
  - rewrite c_str_append by exact Ho. rewrite Hc. reflexivity.
  - rewrite c_str_append by exact Ho. rewrite c_str_append by exact Hx.
    fold (items_tail items closing). rewrite c_str_items_tail by assumption. reflexivity.
Qed.

(** The serializer writes no byte 0. *)
Lemma c_str_print (t : Json) : c_str (print t) = print t.
Proof.
  induction t as [| b | i | s | l IH | m IH] using Json_induction.
  - reflexivity.
  - destruct b; reflexivity.
  - apply c_str_serialize_int.
  - apply c_str_serialize_string.
  - cbn [print]. apply c_str_bracketed; [reflexivity | reflexivity |].
    induction IH; constructor; assumption.
  - rewrite print_object. apply c_str_bracketed; [reflexivity | reflexivity |].
    induction IH as [|[k x] m Hx _ IH']; constructor; [|exact IH'].
    unfold print_member. cbn [fst snd] in *.
    rewrite c_str_append by apply c_str_serialize_string.
    change (String.append ":" ?y) with (String ":"%char y).
    change (c_str (String ":" ?y)) with (String ":"%char (c_str y)). rewrite Hx. reflexivity.
Qed.

(** X15.  [deserialize(const String&)] reads what follows the first
    character of its argument: behind any first character other than the
    byte 0, the minimal text of a readable tree is read back as by the
    overload for streams. *)
Theorem deserialize_reads_back_behind_first_char
    (c : ascii) (t : Json) (rest : string) (fuel : nat) (h : Heap) :
  c <> zero ->
  readable t = true ->
  c_str rest = rest ->
  continues_number (peek rest) = false ->
  (String.length (print t) + 2 <= fuel)%nat ->
  deserialize fuel (String c (String.append (print t) rest)) h = Ret (build t h).
Proof.
  intros Nc Rd Hr Cn F. rewrite peek_hd in Cn.
  pose proof (deserialize_stream_text t rest fuel h Rd Cn F) as E.
  destruct (build t h) as [v h'].
  apply (deserialize_string_as_stream_of_tail fuel c _ h h' v Nc); [|exact E].
  rewrite c_str_append by apply c_str_print. rewrite Hr. reflexivity.
Qed.

Lemma deserialize_reads_back_behind_first_char_witness :
  "x"%char <> zero
  /\ readable (JArray [JInt 1%Z; JNull]) = true
  /\ c_str " tail" = " tail"
  /\ continues_number (peek " tail") = false
  /\ (String.length (print (JArray [JInt 1%Z; JNull])) + 2 <= 12)%nat
  /\ deserialize 12 (String "x" (String.append (print (JArray [JInt 1%Z; JNull])) " tail"))
       empty_heap
     = Ret (build (JArray [JInt 1%Z; JNull]) empty_heap).
Proof.
  assert (Nc : "x"%char <> zero) by discriminate.
  assert (Rd : readable (JArray [JInt 1%Z; JNull]) = true) by reflexivity.
  assert (Hr : c_str " tail" = " tail") by reflexivity.
  assert (Cn : continues_number (peek " tail") = false) by reflexivity.
  assert (F : (String.length (print (JArray [JInt 1%Z; JNull])) + 2 <= 12)%nat)
    by (vm_compute; lia).
  split; [exact Nc|]. split; [exact Rd|]. split; [exact Hr|]. split; [exact Cn|].
  split; [exact F|].
  exact (deserialize_reads_back_behind_first_char "x" _ " tail" 12 empty_heap Nc Rd Hr Cn F).
Defined.

(** ** Access to the parts of a deserialized Value *)

Lemma trees_of_length (f : Value -> option Json) (a : Array) (l : list Json) :
  trees_of f a = Some l -> length a = length l.
Proof.
  revert l. induction a as [|e a IH]; intros l E; simpl in E.
  - injection E as <-. reflexivity.
  - destruct (f e); [|discriminate]. fold (trees_of f a) in E.
    destruct (trees_of f a) as [ts|]; [|discriminate]. injection E as <-.
    simpl. rewrite (IH ts eq_refl). reflexivity.
Qed.

Lemma trees_of_nth (f : Value -> option Json) (a : Array) (l : list Json) :
  trees_of f a = Some l ->
  forall i x, nth_error l i = Some x -> exists e, nth_error a i = Some e /\ f e = Some x.
Proof.
  revert l. induction a as [|e a IH]; intros l E i x N; simpl in E.
  - injection E as <-. destruct i; discriminate.
  - destruct (f e) as [t|] eqn:Fe; [|discriminate]. fold (trees_of f a) in E.
    destruct (trees_of f a) as [ts|]; [|discriminate]. injection E as <-.
    destruct i as [|i]; simpl in N.
    + injection N as <-. exists e. split; [reflexivity | exact Fe].
    + exact (IH ts eq_refl i x N).
Qed.

Lemma member_trees_of_length (f : Value -> option Json) (o : Object)
    (m : list (string * Json)) :
  member_trees_of f o = Some m -> length o = length m.
Proof.
  revert m. induction o as [|[k e] o IH]; intros m E; simpl in E.
  - injection E as <-. reflexivity.
  - destruct (f e); [|discriminate]. fold (member_trees_of f o) in E.
    destruct (member_trees_of f o) as [ts|]; [|discriminate]. injection E as <-.
    simpl. rewrite (IH ts eq_refl). reflexivity.
Qed.

Lemma member_trees_of_absent (f : Value -> option Json) (o : Object) (m : list (string * Json))
    (k : string) :
  member_trees_of f o = Some m -> ~ In k (map fst m) -> find k o = None.
Proof.
  revert m. induction o as [|[k0 e] o IH]; intros m E N; simpl in E; [reflexivity|].
  destruct (f e); [|discriminate]. fold (member_trees_of f o) in E.
  destruct (member_trees_of f o) as [ts|]; [|discriminate]. injection E as <-.
  simpl in *. destruct (String.eqb k0 k) eqn:K.
  - apply String.eqb_eq in K. tauto.
  - apply (IH ts eq_refl). tauto.
Qed.

Lemma member_trees_of_find (f : Value -> option Json) (o : Object) (m : list (string * Json))
    (k : string) (x : Json) :
  member_trees_of f o = Some m -> distinct (map fst m) = true -> In (k, x) m ->
  exists e, find k o = Some e /\ f e = Some x.
Proof.
  revert m. induction o as [|[k0 e] o IH]; intros m E D I; simpl in E.
  - injection E as <-. destruct I.
  - destruct (f e) as [t|] eqn:Fe; [|discriminate]. fold (member_trees_of f o) in E.
    destruct (member_trees_of f o) as [ts|]; [|discriminate]. injection E as <-.
    cbn [map fst] in D. destruct (distinct_cons _ _ D) as (D' & N).
    simpl. destruct I as [I|I].
    + injection I as -> ->. rewrite String.eqb_refl. exists e. split; [reflexivity | exact Fe].
    + rewrite (N k) by (apply (in_map fst _ _ I)). exact (IH ts eq_refl D' I).
Qed.

Lemma gets_tree (n : nat) (h : Heap) (e : Value) (x : Json) :
  tree_of (S n) h e = Some x -> gets h e x.
Proof.
  destruct e as [ty d]. cbn [tree_of type_ data_]. intros E.
  destruct ty; destruct d; try discriminate; try (injection E as <-; reflexivity).
  - destruct (cells h !! p) as [[[s|a|o] u]|] eqn:L; try discriminate.
    injection E as <-. unfold gets, get_string, ptr_of, deref. simpl. rewrite L. reflexivity.
  - destruct (cells h !! p) as [[[s|a|o] u]|] eqn:L; try discriminate.
    fold (trees_of (tree_of n h) a) in E.
    destruct (trees_of (tree_of n h) a) as [ts|] eqn:Ea; [|discriminate].
    injection E as <-. exists a. split; [|exact (trees_of_length _ _ _ Ea)].
    unfold get_array, ptr_of, deref. simpl. rewrite L. reflexivity.
  - destruct (cells h !! p) as [[[s|a|o] u]|] eqn:L; try discriminate.
    fold (member_trees_of (tree_of n h) o) in E.
    destruct (member_trees_of (tree_of n h) o) as [ts|] eqn:Eo; [|discriminate].
    injection E as <-. exists o. split; [|exact (member_trees_of_length _ _ _ Eo)].
    unfold get_object, ptr_of, deref. simpl. rewrite L. reflexivity.
Qed.

(** The accessors on a Value that stands for an object or an array. *)
Lemma at_key_const_tree (n : nat) (h : Heap) (v : Value) (m : list (string * Json)) :
  tree_of (S n) h v = Some (JObject m) -> distinct (map fst m) = true ->
  (forall k x, In (k, x) m ->
     exists e, at_key_const v k h = Ret e /\ has_key v k h = Ret true
               /\ tree_of n h e = Some x)
  /\ (forall k, ~ In k (map fst m) ->
        at_key_const v k h = Throw (KeyNotExists k) /\ has_key v k h = Ret false).
Proof.
  destruct v as [ty d]. cbn [tree_of type_ data_]. intros E D.
  destruct ty; destruct d; try discriminate; try (injection E as E; discriminate).
  - destruct (cells h !! p) as [[[s|a|o] u]|]; discriminate.
  - destruct (cells h !! p) as [[[s|a|o] u]|]; try discriminate.
    destruct (fold_right _ _ a); discriminate.
  - destruct (cells h !! p) as [[[s|a|o] u]|] eqn:L; try discriminate.
    fold (member_trees_of (tree_of n h) o) in E.
    destruct (member_trees_of (tree_of n h) o) as [ts|] eqn:Eo; [|discriminate].
    injection E as <-. split.
    + intros k x I. destruct (member_trees_of_find _ _ _ k x Eo D I) as (e & F & T).
      exists e. unfold at_key_const, has_key, ptr_of, deref. simpl. rewrite L. simpl.
      rewrite F. auto.
    + intros k N. pose proof (member_trees_of_absent _ _ _ k Eo N) as F.
      unfold at_key_const, has_key, ptr_of, deref. simpl. rewrite L. simpl.
      rewrite F. auto.
Qed.

Lemma at_index_tree (n : nat) (h : Heap) (v : Value) (l : list Json) :
  tree_of (S n) h v = Some (JArray l) ->
  (forall i x, nth_error l i = Some x ->
     exists e, at_index v i h = Ret e /\ has_index v i h = Ret true
               /\ tree_of n h e = Some x)
  /\ (forall i, (length l <= i)%nat ->
        at_index v i h = Throw IndexOutOfRange /\ has_index v i h = Ret false).
Proof.
  destruct v as [ty d]. cbn [tree_of type_ data_]. intros E.
  destruct ty; destruct d; try discriminate; try (injection E as E; discriminate).
  - destruct (cells h !! p) as [[[s|a|o] u]|]; discriminate.
  - destruct (cells h !! p) as [[[s|a|o] u]|] eqn:L; try discriminate.
    fold (trees_of (tree_of n h) a) in E.
    destruct (trees_of (tree_of n h) a) as [ts|] eqn:Ea; [|discriminate].
    injection E as <-. pose proof (trees_of_length _ _ _ Ea) as Len. split.
    + intros i x N. destruct (trees_of_nth _ _ _ Ea i x N) as (e & F & T).
      exists e. unfold at_index, has_index, ptr_of, deref. simpl. rewrite L. simpl.
      rewrite F. split; [reflexivity|]. split; [|exact T].
      assert (i < length a)%nat as Lt by (apply nth_error_Some; congruence).
      apply Nat.ltb_lt in Lt. rewrite Lt. reflexivity.
    + intros i G. unfold at_index, has_index, ptr_of, deref. simpl. rewrite L. simpl.
      assert (nth_error a i = None) as -> by (apply nth_error_None; lia).
      assert (Nat.ltb i (length a) = false) as -> by (apply Nat.ltb_ge; lia).
      auto.
  - destruct (cells h !! p) as [[[s|a|o] u]|]; try discriminate.
    destruct (fold_right _ _ o); discriminate.
Qed.

(** X16.  The members of a deserialized object: after
    [deserialize(std::istream&)] on the minimal text of a readable object,
    the read-only [at] returns for every key of the text a Value that
    stands for the member's tree, [has] is true for it and the typed
    getters give its content; for any other key [at] throws
    [KeyNotExists] and [has] is false. *)
Theorem deserialized_members (m : list (string * Json)) (fuel : nat) (h : Heap) :
  readable (JObject m) = true ->
  (String.length (print (JObject m)) + 2 <= fuel)%nat ->
  exists v h',
    deserialize_stream fuel (istream_of (print (JObject m))) h = Ret (v, h')
    /\ (forall k x, In (k, x) m ->
          exists e, at_key_const v k h' = Ret e /\ has_key v k h' = Ret true
                    /\ tree_of (depth (JObject m)) h' e = Some x /\ gets h' e x)
    /\ (forall k, ~ In k (map fst m) ->
          at_key_const v k h' = Throw (KeyNotExists k) /\ has_key v k h' = Ret false).
Proof.
  intros Rd F. exists (fst (build (JObject m) h)), (snd (build (JObject m) h)).
  assert (D : distinct (map fst m) = true).
  { destruct m as [|kx m]; [discriminate|]. cbn [readable] in Rd.
    apply andb_prop in Rd. tauto. }
  assert (T : tree_of (S (depth (JObject m))) (snd (build (JObject m) h))
                (fst (build (JObject m) h)) = Some (JObject m))
    by (apply tree_of_build_in; [lia | reflexivity]).
  destruct (at_key_const_tree _ _ _ _ T D) as (In_ & Out).
  split; [|split; [|exact Out]].
  - rewrite <- (append_empty_r (print (JObject m))) at 1.
    rewrite (deserialize_stream_text _ EmptyString fuel h Rd eq_refl F).
    destruct (build (JObject m) h); reflexivity.
  - intros k x I. destruct (In_ k x I) as (e & A & B & C).
    exists e. repeat split; try assumption.
    cbn [depth] in C. exact (gets_tree _ _ _ _ C).
Qed.

Lemma deserialized_members_witness :
  readable (JObject [("one", JInt 1%Z); ("s", JString "12345")]) = true
  /\ (String.length (print (JObject [("one", JInt 1%Z); ("s", JString "12345")])) + 2
      <= 30)%nat
  /\ exists v h',
       deserialize_stream 30
         (istream_of (print (JObject [("one", JInt 1%Z); ("s", JString "12345")]))) empty_heap
       = Ret (v, h')
       /\ (forall k x, In (k, x) [("one", JInt 1%Z); ("s", JString "12345")] ->
             exists e, at_key_const v k h' = Ret e /\ has_key v k h' = Ret true
                       /\ tree_of (depth (JObject [("one", JInt 1%Z); ("s", JString "12345")]))
                            h' e = Some x
                       /\ gets h' e x)
       /\ (forall k, ~ In k (map fst [("one", JInt 1%Z); ("s", JString "12345")]) ->
             at_key_const v k h' = Throw (KeyNotExists k) /\ has_key v k h' = Ret false).
Proof.
  assert (Rd : readable (JObject [("one", JInt 1%Z); ("s", JString "12345")]) = true)
    by reflexivity.
  assert (F : (String.length (print (JObject [("one", JInt 1%Z); ("s", JString "12345")])) + 2
               <= 30)%nat) by (vm_compute; lia).
  split; [exact Rd|]. split; [exact F|].
  exact (deserialized_members _ 30 empty_heap Rd F).
Defined.

(** X17.  The elements of a deserialized array: after
    [deserialize(std::istream&)] on the minimal text of a readable array,
    [at] returns at every position of the text a Value that stands for the
    element's tree, [has] is true there and the typed getters give its
    content; from the length on [at] throws [IndexOutOfRange] and [has] is
    false. *)
Theorem deserialized_elements (l : list Json) (fuel : nat) (h : Heap) :
  readable (JArray l) = true ->
  (String.length (print (JArray l)) + 2 <= fuel)%nat ->
  exists v h',
    deserialize_stream fuel (istream_of (print (JArray l))) h = Ret (v, h')
    /\ (forall i x, nth_error l i = Some x ->
          exists e, at_index v i h' = Ret e /\ has_index v i h' = Ret true
                    /\ tree_of (depth (JArray l)) h' e = Some x /\ gets h' e x)
    /\ (forall i, (length l <= i)%nat ->
          at_index v i h' = Throw IndexOutOfRange /\ has_index v i h' = Ret false).
Proof.
  intros Rd F. exists (fst (build (JArray l) h)), (snd (build (JArray l) h)).
  assert (T : tree_of (S (depth (JArray l))) (snd (build (JArray l) h))
                (fst (build (JArray l) h)) = Some (JArray l))
    by (apply tree_of_build_in; [lia | reflexivity]).
  destruct (at_index_tree _ _ _ _ T) as (In_ & Out).
  split; [|split; [|exact Out]].
  - rewrite <- (append_empty_r (print (JArray l))) at 1.
    rewrite (deserialize_stream_text _ EmptyString fuel h Rd eq_refl F).
    destruct (build (JArray l) h); reflexivity.
  - intros i x N. destruct (In_ i x N) as (e & A & B & C).
    exists e. repeat split; try assumption.
    cbn [depth] in C. exact (gets_tree _ _ _ _ C).
Qed.

Lemma deserialized_elements_witness :
  readable (JArray [JNull; JBool true; JInt 12345%Z; JString "12345"]) = true
  /\ (String.length (print (JArray [JNull; JBool true; JInt 12345%Z; JString "12345"])) + 2
      <= 40)%nat
  /\ exists v h',
       deserialize_stream 40
         (istream_of (print (JArray [JNull; JBool true; JInt 12345%Z; JString "12345"])))
         empty_heap
       = Ret (v, h')
       /\ (forall i x,
             nth_error [JNull; JBool true; JInt 12345%Z; JString "12345"] i = Some x ->
             exists e, at_index v i h' = Ret e /\ has_index v i h' = Ret true
                       /\ tree_of
                            (depth (JArray [JNull; JBool true; JInt 12345%Z; JString "12345"]))
                            h' e = Some x
                       /\ gets h' e x)
       /\ (forall i,
             (length [JNull; JBool true; JInt 12345%Z; JString "12345"] <= i)%nat ->
             at_index v i h' = Throw IndexOutOfRange /\ has_index v i h' = Ret false).
Proof.
  assert (Rd : readable (JArray [JNull; JBool true; JInt 12345%Z; JString "12345"]) = true)
    by reflexivity.
  assert (F : (String.length
                 (print (JArray [JNull; JBool true; JInt 12345%Z; JString "12345"])) + 2
               <= 40)%nat) by (vm_compute; lia).
  split; [exact Rd|]. split; [exact F|].
  exact (deserialized_elements _ 40 empty_heap Rd F).
Defined.
